(** * TrackFlow: escrowed logistics contracts with QR-verified milestones

    A shallow embedding of [contracts/TrackFlow.sol] (Solidity ^0.8.20, the
    CREATED -> ACTIVE -> COMPLETED generation) and the properties of its
    escrow state machine.

    Conventions of the embedding:
    - [uint256], [address] and [bytes32] values are integers in [Z]; Solidity
      0.8 arithmetic is checked, so every [+], [-], [/] and [++] of the source
      is a monadic operation that reverts with the compiler's [Panic] code
      instead of wrapping around.
    - [mapping(uint256 => LogisticsContract)] is a finite map read with the
      all-zero record as default, which is what an EVM mapping returns for a
      key that was never written.
    - a function body is a computation in a state-and-revert monad; a revert
      discards every write of the call, as the EVM does.
    - the external call [c.carrier.call{value: amount}("")] hands control to
      the carrier account.  Its behaviour is supplied by the environment: the
      calls it makes back into TrackFlow while it runs, and whether it
      finally reports success.
    - [keccak256] is a parameter: every property holds for any hash
      function.

    Besides the contract the development embeds the pages of the web client
    that read and create contracts ([loadContract], [loadContracts],
    [handleSubmit] and the wrappers of [lib/contracts.ts]), and the first
    generation of the contract, [contracts/contracts/TrackFlow.sol], in the
    module [Legacy]. *)

From Stdlib Require Import ZArith Lia List.
From Stdlib Require Import Strings.String Strings.Byte.
From stdpp Require Import base decidable option list gmap strings.

Local Open Scope Z_scope.

(** ** Machine types *)

Definition uint256_max : Z := 2 ^ 256 - 1.

(** [xs.length] as a [uint256]. *)
Definition len {A} (xs : list A) : Z := Z.of_nat (length xs).

(** ** Data model (lines 13-37 of the contract) *)

Inductive Status := CREATED | ACTIVE | COMPLETED.

#[global] Instance Status_eq_dec : EqDecision Status.
Proof. solve_decision. Defined.

Definition Status_eqb (a b : Status) : bool :=
  match a, b with
  | CREATED, CREATED | ACTIVE, ACTIVE | COMPLETED, COMPLETED => true
  | _, _ => false
  end.

Record Milestone := mkMilestone {
  qrHash : Z;
  location : string;
  verifier : Z;
  completed : bool
}.

Record LogisticsContract := mkContract {
  shipper : Z;
  carrier : Z;
  recipient : Z;
  payment : Z;
  releasedAmount : Z;
  status : Status;
  milestones : list Milestone;
  completedMilestones : Z
}.

(** The value of a storage slot that was never written. *)
Definition zero_contract : LogisticsContract :=
  mkContract 0 0 0 0 0 CREATED [] 0.

Inductive Event :=
| ContractCreated (contractId shipper carrier recipient payment : Z)
| ContractAccepted (contractId carrier : Z)
| MilestoneVerified (contractId milestoneIndex : Z) (location : string) (verifier : Z)
| PaymentReleased (contractId carrier amount milestoneIndex : Z).

(** Contract storage, the reentrancy guard's flag, the log of emitted
    events, and the ether that has left the contract: one entry, recipient
    and amount in wei, per value transfer made, oldest first. *)
Record State := mkState {
  contracts : gmap Z LogisticsContract;
  nextContractId : Z;
  entered : bool;
  events : list Event;
  transfers : list (Z * Z)
}.

Definition initial : State := mkState ∅ 0 false [] [].

(** [contracts[contractId]] read as a value. *)
Definition contract (s : State) (contractId : Z) : LogisticsContract :=
  default zero_contract (contracts s !! contractId).

(** ** Reverts *)

Inductive Failure :=
| Error (reason : string)
| Panic (code : Z)
| ReentrancyGuardReentrantCall.

Inductive Result (A : Type) :=
| Ok (a : A)
| Revert (f : Failure).
Arguments Ok {A} a.
Arguments Revert {A} f.

(** ** The state-and-revert monad *)

Definition M (A : Type) : Type := State -> Result (A * State).

Definition ret {A} (a : A) : M A := fun s => Ok (a, s).

Definition bind {A B} (m : M A) (k : A -> M B) : M B :=
  fun s => match m s with
           | Ok (a, s') => k a s'
           | Revert f => Revert f
           end.

Definition revert {A} (f : Failure) : M A := fun _ => Revert f.

Declare Scope evm_scope.
Delimit Scope evm_scope with evm.
Notation "'let!' x ':=' m 'in' k" := (bind m (fun x => k))
  (at level 10, x name, m at level 89, k at level 200) : evm_scope.
Notation "m '>>' k" := (bind m (fun _ => k))
  (at level 90, right associativity) : evm_scope.
Local Open Scope evm_scope.

Definition require (cond : bool) (reason : string) : M unit :=
  if cond then ret tt else revert (Error reason).

Definition emit (e : Event) : M unit :=
  fun s => Ok (tt, mkState (contracts s) (nextContractId s) (entered s)
                           (events s ++ [e]) (transfers s)).

(** A value transfer of [amount] wei from the contract to [to]. *)
Definition pay (to amount : Z) (s : State) : State :=
  mkState (contracts s) (nextContractId s) (entered s) (events s)
          (transfers s ++ [(to, amount)]).

(** Reading and writing the storage struct behind [contracts[contractId]]. *)
Definition sload (contractId : Z) : M LogisticsContract :=
  fun s => Ok (contract s contractId, s).

Definition sstore (contractId : Z) (c : LogisticsContract) : M unit :=
  fun s => Ok (tt, mkState (<[contractId := c]> (contracts s))
                           (nextContractId s) (entered s) (events s) (transfers s)).

(** Checked arithmetic of Solidity 0.8: [Panic(0x11)] on overflow or
    underflow, [Panic(0x12)] on division by zero, [Panic(0x32)] on an
    out-of-bounds array index. *)
Definition checked_add (a b : Z) : M Z :=
  if a + b <=? uint256_max then ret (a + b) else revert (Panic 17).

Definition checked_sub (a b : Z) : M Z :=
  if b <=? a then ret (a - b) else revert (Panic 17).

Definition checked_div (a b : Z) : M Z :=
  if b =? 0 then revert (Panic 18) else ret (a / b).

Definition index {A} (xs : list A) (i : Z) : M A :=
  if (0 <=? i) && (i <? len xs) then
    match xs !! Z.to_nat i with
    | Some x => ret x
    | None => revert (Panic 50)
    end
  else revert (Panic 50).

(** [nextContractId++]: yields the old value. *)
Definition next_id : M Z :=
  fun s => match checked_add (nextContractId s) 1 s with
           | Ok (n, _) =>
               Ok (nextContractId s,
                   mkState (contracts s) n (entered s) (events s) (transfers s))
           | Revert f => Revert f
           end.

(** The [nonReentrant] modifier.  The contract imports it from OpenZeppelin's
    [ReentrancyGuard], which is not among the sources; this is the behaviour
    that library documents: revert with [ReentrancyGuardReentrantCall] while
    the flag is set, otherwise set it for the duration of the body. *)
Definition nonReentrant {A} (body : M A) : M A :=
  fun s =>
    if entered s then Revert ReentrancyGuardReentrantCall
    else match body (mkState (contracts s) (nextContractId s) true (events s)
                             (transfers s)) with
         | Ok (a, s') =>
             Ok (a, mkState (contracts s') (nextContractId s') false (events s')
                            (transfers s'))
         | Revert f => Revert f
         end.

(** ** Commitment encoding *)

Definition byte_of_Z (z : Z) : byte :=
  default x00 (Byte.of_N (Z.to_N (z mod 256))).

(** Big-endian bytes of an unsigned integer, [width] bytes wide. *)
Fixpoint be_bytes (width : nat) (z : Z) : list byte :=
  match width with
  | O => []
  | S w => be_bytes w (z / 256) ++ [byte_of_Z z]
  end.

(** [abi.encodePacked(uint256, string, address)]: 32 bytes, the raw bytes of
    the string, 20 bytes; nothing separates the fields. *)
Definition encodePacked (contractId : Z) (loc : string) (who : Z) : list byte :=
  be_bytes 32 contractId ++ list_byte_of_string loc ++ be_bytes 20 who.

(** ** Record updates, one per assignment of the source *)

Definition set_parties (c : LogisticsContract) (sh ca re va : Z) : LogisticsContract :=
  mkContract sh ca re va 0 CREATED (milestones c) (completedMilestones c).

Definition set_status (c : LogisticsContract) (st : Status) : LogisticsContract :=
  mkContract (shipper c) (carrier c) (recipient c) (payment c) (releasedAmount c)
             st (milestones c) (completedMilestones c).

Definition set_milestones (c : LogisticsContract) (ms : list Milestone) : LogisticsContract :=
  mkContract (shipper c) (carrier c) (recipient c) (payment c) (releasedAmount c)
             (status c) ms (completedMilestones c).

Definition set_completedMilestones (c : LogisticsContract) (n : Z) : LogisticsContract :=
  mkContract (shipper c) (carrier c) (recipient c) (payment c) (releasedAmount c)
             (status c) (milestones c) n.

Definition set_releasedAmount (c : LogisticsContract) (r : Z) : LogisticsContract :=
  mkContract (shipper c) (carrier c) (recipient c) (payment c) r
             (status c) (milestones c) (completedMilestones c).

Definition set_completed (m : Milestone) : Milestone :=
  mkMilestone (qrHash m) (location m) (verifier m) true.

(** ** The contract *)

Inductive Call :=
| CreateContract (msg_sender msg_value carrier recipient : Z)
                 (locations : list string) (verifiers : list Z)
| AcceptContract (msg_sender contractId : Z)
| VerifyMilestone (msg_sender contractId milestoneIndex : Z) (qrData : list byte).

(** What the carrier account does when it receives a transfer: the calls it
    makes back into TrackFlow, and whether it reports success.  A failed
    call undoes everything the callee did. *)
Record Callee := mkCallee {
  reenter : list Call;
  sent : bool
}.

Record Tx := mkTx {
  tx_call : Call;
  tx_callee : Callee
}.

(** The state after a call as a transaction: a revert leaves the state as it
    was. *)
Definition commit {A} (m : M A) (s : State) : State :=
  match m s with
  | Ok (_, s') => s'
  | Revert _ => s
  end.

Section TrackFlow.

(** The EVM's hash primitive. *)
Variable keccak256 : list byte -> Z.

(** The creation loop (lines 98-109): one pushed milestone per index of
    [locations], reading [verifiers] at the same index.  The loop runs
    after the two arrays were checked to have the same length. *)
Fixpoint new_milestones (contractId : Z) (locations : list string)
         (verifiers : list Z) : list Milestone :=
  match locations, verifiers with
  | l :: ls, v :: vs =>
      mkMilestone (keccak256 (encodePacked contractId l v)) l v false
        :: new_milestones contractId ls vs
  | _, _ => []
  end.

(** Lines 75-120. *)
Definition createContract (msg_sender msg_value carrier recipient : Z)
           (locations : list string) (verifiers : list Z) : M Z :=
  require (0 <? msg_value) "Payment required" >>
  require (negb (carrier =? 0)) "Invalid carrier" >>
  require (negb (recipient =? 0)) "Invalid recipient" >>
  require (0 <? len locations) "No milestones" >>
  require (len locations =? len verifiers) "Mismatched arrays" >>
  let! contractId := next_id in
  let! c := sload contractId in
  let c := set_parties c msg_sender carrier recipient msg_value in
  let c := set_milestones c
             (milestones c ++ new_milestones contractId locations verifiers) in
  sstore contractId c >>
  emit (ContractCreated contractId msg_sender carrier recipient msg_value) >>
  ret contractId.

(** Lines 126-134. *)
Definition acceptContract (msg_sender contractId : Z) : M unit :=
  let! c := sload contractId in
  require (carrier c =? msg_sender) "Not the carrier" >>
  require (Status_eqb (status c) CREATED) "Invalid status" >>
  sstore contractId (set_status c ACTIVE) >>
  emit (ContractAccepted contractId msg_sender).

(** Lines 166-177: the amount owed for [milestoneIndex] and the record
    after the status assignment of the last-milestone branch. *)
Definition release_amount (c : LogisticsContract) (milestoneIndex : Z)
  : M (LogisticsContract * Z) :=
  let total := len (milestones c) in
  let! perMilestone := checked_div (payment c) total in
  let! last := checked_sub total 1 in
  if milestoneIndex =? last then
    let! amount := checked_sub (payment c) (releasedAmount c) in
    ret (set_status c COMPLETED, amount)
  else
    ret (c, perMilestone).

(** Lines 158-161: the condition of the QR check, the commitment verifier
    of the design. *)
Definition commitment_ok (qrData : list byte) (milestone : Milestone) : bool :=
  keccak256 qrData =? qrHash milestone.

(** Lines 148-189, the body of [verifyMilestone].  [transfer] is the
    semantics of the external call. *)
Definition verifyMilestone_body (transfer : Z -> Z -> M bool)
           (msg_sender contractId milestoneIndex : Z) (qrData : list byte) : M unit :=
  let! c := sload contractId in
  require (Status_eqb (status c) ACTIVE) "Invalid status" >>
  require (milestoneIndex <? len (milestones c)) "Invalid milestone" >>
  require (milestoneIndex =? completedMilestones c) "Out of order" >>
  let! milestone := index (milestones c) milestoneIndex in
  require (negb (completed milestone)) "Already verified" >>
  require (verifier milestone =? msg_sender) "Not authorized" >>
  require (commitment_ok qrData milestone) "Invalid QR code" >>
  let c := set_milestones c
             (<[Z.to_nat milestoneIndex := set_completed milestone]> (milestones c)) in
  let! count := checked_add (completedMilestones c) 1 in
  let c := set_completedMilestones c count in
  let! ca := release_amount c milestoneIndex in
  let c := fst ca in
  let amount := snd ca in
  let! released := checked_add (releasedAmount c) amount in
  sstore contractId (set_releasedAmount c released) >>
  let! ok := transfer (carrier c) amount in
  require ok "Failed to send payment" >>
  let! c := sload contractId in
  emit (PaymentReleased contractId (carrier c) amount milestoneIndex) >>
  let! milestone := index (milestones c) milestoneIndex in
  emit (MilestoneVerified contractId milestoneIndex (location milestone) msg_sender).

(** Lines 143-147: the function with its [nonReentrant] modifier. *)
Definition verifyMilestone (transfer : Z -> Z -> M bool)
           (msg_sender contractId milestoneIndex : Z) (qrData : list byte) : M unit :=
  nonReentrant (verifyMilestone_body transfer msg_sender contractId milestoneIndex qrData).

(** Lines 196-215. *)
Definition getContract (contractId : Z) : M (Z * Z * Z * Z * Status * Z * Z) :=
  let! c := sload contractId in
  ret (shipper c, carrier c, recipient c, payment c, status c,
       len (milestones c), completedMilestones c).

(** Lines 222-232. *)
Definition getMilestone (contractId milestoneIndex : Z) : M (string * Z * bool) :=
  let! c := sload contractId in
  require (milestoneIndex <? len (milestones c)) "Invalid milestone" >>
  let! m := index (milestones c) milestoneIndex in
  ret (location m, verifier m, completed m).

(** *** Transactions *)

Definition dispatch (transfer : Z -> Z -> M bool) (call : Call) : M unit :=
  match call with
  | CreateContract msg_sender msg_value carrier recipient locations verifiers =>
      createContract msg_sender msg_value carrier recipient locations verifiers >>
      ret tt
  | AcceptContract msg_sender contractId =>
      acceptContract msg_sender contractId
  | VerifyMilestone msg_sender contractId milestoneIndex qrData =>
      verifyMilestone transfer msg_sender contractId milestoneIndex qrData
  end.

(** A call made by the callee while the outer [verifyMilestone] is still
    running.  The callee may catch a revert, so a failed inner call only
    loses its own writes.  An inner [verifyMilestone] stops at the guard;
    the transfer it would make is never reached. *)
Definition inner_call (s : State) (call : Call) : State :=
  commit (dispatch (fun _ _ => ret false) call) s.

(** [c.carrier.call{value: amount}("")]: the callee [k] either accepts the
    [amount], which leaves the contract for [to] before the callee runs and
    makes its calls back into the contract, or refuses it with nothing
    changed.  A transfer that cannot be made for any reason is a refused
    one. *)
Definition carrier_call (k : Callee) (to amount : Z) : M bool :=
  fun s => if sent k then Ok (true, fold_left inner_call (reenter k) (pay to amount s))
           else Ok (false, s).

Definition run (tx : Tx) : M unit :=
  dispatch (carrier_call (tx_callee tx)) (tx_call tx).

Definition transact (s : State) (tx : Tx) : State := commit (run tx) s.

Definition run_all (txs : list Tx) : State := fold_left transact txs initial.

(** A state is reachable when some sequence of transactions leads to it
    from the freshly deployed contract. *)
Definition reachable (s : State) : Prop := exists txs, s = run_all txs.

(** *** Invariants of the store *)

(** Milestone [j] of contract [contractId], of which the first [count]
    milestones are verified. *)
Definition milestone_ok (contractId count : Z) (j : nat) (m : Milestone) : Prop :=
  completed m = bool_decide (Z.of_nat j < count) /\
  qrHash m = keccak256 (encodePacked contractId (location m) (verifier m)).

Record record_ok (contractId : Z) (c : LogisticsContract) : Prop := mk_record_ok {
  ok_payment : 0 < payment c;
  ok_total : 0 < len (milestones c);
  ok_count : 0 <= completedMilestones c <= len (milestones c);
  ok_completed :
    status c = COMPLETED ->
    completedMilestones c = len (milestones c) /\ releasedAmount c = payment c;
  ok_running :
    status c <> COMPLETED ->
    completedMilestones c < len (milestones c) /\
    releasedAmount c = completedMilestones c * (payment c / len (milestones c));
  ok_created : status c = CREATED -> completedMilestones c = 0;
  ok_milestones :
    forall j m, milestones c !! j = Some m ->
                milestone_ok contractId (completedMilestones c) j m
}.

(** A slot no creation has written: everything but the status is zero. *)
Definition blank (c : LogisticsContract) : Prop :=
  c = set_status zero_contract (status c).

Record store_ok (s : State) : Prop := mk_store_ok {
  ok_next : 0 <= nextContractId s;
  ok_records :
    forall contractId, 0 <= contractId < nextContractId s ->
                       record_ok contractId (contract s contractId);
  ok_blank :
    forall contractId, ~ 0 <= contractId < nextContractId s ->
                       blank (contract s contractId)
}.

End TrackFlow.

(** ** The log of releases *)

(** Sum of the amounts of the [PaymentReleased] events of one contract. *)
Fixpoint released_total (contractId : Z) (evs : list Event) : Z :=
  match evs with
  | [] => 0
  | PaymentReleased i _ amount _ :: rest =>
      (if i =? contractId then amount else 0) + released_total contractId rest
  | _ :: rest => released_total contractId rest
  end.

(** The identifiers announced by the [ContractCreated] events, in order. *)
Fixpoint created_ids (evs : list Event) : list Z :=
  match evs with
  | [] => []
  | ContractCreated i _ _ _ _ :: rest => i :: created_ids rest
  | _ :: rest => created_ids rest
  end.

(** The log agrees with the store: the releases logged for a contract add
    up to its [releasedAmount], and the identifiers created so far are
    0, 1, ..., [nextContractId - 1]. *)
Definition log_ok (s : State) : Prop :=
  (forall contractId,
      released_total contractId (events s) = releasedAmount (contract s contractId)) /\
  created_ids (events s) = seqZ 0 (nextContractId s).

(** The order of the lifecycle. *)
Definition status_rank (st : Status) : Z :=
  match st with CREATED => 0 | ACTIVE => 1 | COMPLETED => 2 end.

(** ** Error taxonomy

    The contract reverts with reason strings; the design document names
    error kinds.  This is the correspondence, per entry point: creation
    preconditions are validation errors, a wrong caller is an authorization
    error, a wrong status a state error, and an index that does not exist is
    a validation error for [verifyMilestone] and a not-found error for the
    lookups. *)

Inductive ErrorKind :=
| ValidationError | AuthorizationError | StateError | OrderError
| VerificationError | PaymentError | NotFoundError.

Inductive EntryPoint :=
| in_createContract | in_acceptContract | in_verifyMilestone | in_getContract | in_getMilestone.

Definition reason_kind (ep : EntryPoint) (reason : string) : option ErrorKind :=
  match ep with
  | in_createContract =>
      if existsb (String.eqb reason)
           ["Payment required"; "Invalid carrier"; "Invalid recipient";
            "No milestones"; "Mismatched arrays"]%string
      then Some ValidationError else None
  | in_acceptContract =>
      if String.eqb reason "Not the carrier" then Some AuthorizationError
      else if String.eqb reason "Invalid status" then Some StateError
      else None
  | in_verifyMilestone =>
      if String.eqb reason "Invalid status" then Some StateError
      else if String.eqb reason "Invalid milestone" then Some ValidationError
      else if String.eqb reason "Out of order" then Some OrderError
      else if String.eqb reason "Already verified" then Some OrderError
      else if String.eqb reason "Not authorized" then Some AuthorizationError
      else if String.eqb reason "Invalid QR code" then Some VerificationError
      else if String.eqb reason "Failed to send payment" then Some PaymentError
      else None
  | in_getContract => None
  | in_getMilestone =>
      if String.eqb reason "Invalid milestone" then Some NotFoundError else None
  end.

Definition error_kind (ep : EntryPoint) (f : Failure) : option ErrorKind :=
  match f with
  | Error reason => reason_kind ep reason
  | Panic _ | ReentrancyGuardReentrantCall => None
  end.

(** [m] fails in state [s] with an error of kind [k]. *)
Definition fails_with {A} (ep : EntryPoint) (k : ErrorKind) (m : M A) (s : State) : Prop :=
  exists f, m s = Revert f /\ error_kind ep f = Some k.

(** ** A concrete instance, to run the contract on examples *)

(** A stand-in for the hash primitive with the same type, used only to
    evaluate the contract on concrete inputs. *)
Definition sample_hash (bs : list byte) : Z :=
  fold_left (fun h b => (h * 257 + Z.of_N (Byte.to_N b) + 1) mod 2 ^ 256) bs 0.

Definition quiet : Callee := mkCallee [] true.
Definition refusing : Callee := mkCallee [] false.

(** Escrow 100 over milestones A, B, C with verifiers 11, 12, 11; shipper 1,
    carrier 2, recipient 3. *)
Definition abc_created : list Tx :=
  [mkTx (CreateContract 1 100 2 3 ["A"; "B"; "C"]%string [11; 12; 11]) quiet].

Definition abc_active : list Tx :=
  abc_created ++ [mkTx (AcceptContract 2 0) quiet].

Definition abc_first : list Tx :=
  abc_active ++ [mkTx (VerifyMilestone 11 0 0 (encodePacked 0 "A" 11)) quiet].

Definition abc_second : list Tx :=
  abc_first ++ [mkTx (VerifyMilestone 12 0 1 (encodePacked 0 "B" 12)) quiet].

Definition abc_third : list Tx :=
  abc_second ++ [mkTx (VerifyMilestone 11 0 2 (encodePacked 0 "C" 11)) quiet].

(** Escrow 7 with the single milestone "Depot". *)
Definition single_active : list Tx :=
  [mkTx (CreateContract 1 7 2 3 ["Depot"]%string [11]) quiet;
   mkTx (AcceptContract 2 0) quiet].

Definition single_done : list Tx :=
  single_active ++ [mkTx (VerifyMilestone 11 0 0 (encodePacked 0 "Depot" 11)) quiet].

(** Two milestones with the same location and the same verifier, the first
    of them verified. *)
Definition twin_first : list Tx :=
  [mkTx (CreateContract 1 10 2 3 ["Dock"; "Dock"]%string [11; 11]) quiet;
   mkTx (AcceptContract 2 0) quiet;
   mkTx (VerifyMilestone 11 0 0 (encodePacked 0 "Dock" 11)) quiet].

(** ** The release rule of the design *)

(** In the words of the design: with [n] milestones and
    [base = floor(payment / n)], the last milestone ([milestoneIndex = n - 1])
    is paid [payment - releasedAmount] and every other one [base]. *)
Definition release_rule (payment_ n released milestoneIndex : Z) : Z :=
  let base := payment_ / n in
  if milestoneIndex =? n - 1 then payment_ - released else base.

Definition amount_due (c : LogisticsContract) (milestoneIndex : Z) : Z :=
  release_rule (payment c) (len (milestones c)) (releasedAmount c) milestoneIndex.

(** The record [verifyMilestone] has written when it reaches the transfer. *)
Definition verified (c : LogisticsContract) (milestoneIndex : Z) (m : Milestone)
  : LogisticsContract :=
  mkContract (shipper c) (carrier c) (recipient c) (payment c)
             (releasedAmount c + amount_due c milestoneIndex)
             (if milestoneIndex =? len (milestones c) - 1 then COMPLETED else status c)
             (<[Z.to_nat milestoneIndex := set_completed m]> (milestones c))
             (completedMilestones c + 1).

(** Everything [verifyMilestone] checks before the transfer, for a call by
    [sender] on milestone [i] (stored as [m]) of contract [contractId]: the
    [require]s of lines 149-161 and the absence of arithmetic panics in
    lines 164-179. *)
Definition verify_guards (keccak256 : list byte -> Z) (s : State)
           (sender contractId i : Z) (qr : list byte) (m : Milestone) : Prop :=
  let c := contract s contractId in
  status c = ACTIVE /\ 0 <= i < len (milestones c) /\
  i = completedMilestones c /\
  milestones c !! Z.to_nat i = Some m /\ completed m = false /\
  verifier m = sender /\ commitment_ok keccak256 qr m = true /\
  completedMilestones c + 1 <= uint256_max /\
  (i = len (milestones c) - 1 -> releasedAmount c <= payment c) /\
  releasedAmount c + amount_due c i <= uint256_max.

(** The state in which [verifyMilestone] makes the external call: the
    record is written, the ether has not moved yet. *)
Definition before_transfer (s : State) (contractId i : Z) (m : Milestone) : State :=
  mkState (<[contractId := verified (contract s contractId) i m]> (contracts s))
          (nextContractId s) (entered s) (events s) (transfers s).

(** The state in which the carrier receives the transfer. *)
Definition at_transfer (s : State) (contractId i : Z) (m : Milestone) : State :=
  mkState (<[contractId := verified (contract s contractId) i m]> (contracts s))
          (nextContractId s) (entered s) (events s)
          (transfers s ++
           [(carrier (contract s contractId), amount_due (contract s contractId) i)]).

(** The state [verifyMilestone] returns when the carrier left [mid]. *)
Definition after_transfer (s mid : State) (sender contractId i : Z) (m' : Milestone)
  : State :=
  mkState (contracts mid) (nextContractId mid) (entered mid)
          (events mid ++
           [PaymentReleased contractId (carrier (contract mid contractId))
              (amount_due (contract s contractId) i) i;
            MilestoneVerified contractId i (location m') sender])
          (transfers mid).

(** The state while the guard of [nonReentrant] is set, and after it is
    cleared. *)
Definition lock (s : State) : State :=
  mkState (contracts s) (nextContractId s) true (events s) (transfers s).

Definition unlock (s : State) : State :=
  mkState (contracts s) (nextContractId s) false (events s) (transfers s).

(** What calls other than a successful top-level [verifyMilestone] can do to
    the store: allocate identifiers, and move a record from CREATED to
    ACTIVE.  They release nothing. *)
Definition quiet_step (s1 s2 : State) : Prop :=
  entered s2 = entered s1 /\
  nextContractId s1 <= nextContractId s2 /\
  (forall contractId,
      0 <= contractId < nextContractId s1 ->
      contract s2 contractId = contract s1 contractId \/
      (status (contract s1 contractId) = CREATED /\
       contract s2 contractId = set_status (contract s1 contractId) ACTIVE)) /\
  (forall contractId,
      releasedAmount (contract s2 contractId) = releasedAmount (contract s1 contractId)) /\
  (exists evs,
      events s2 = events s1 ++ evs /\
      (forall contractId, released_total contractId evs = 0) /\
      created_ids evs =
        seqZ (nextContractId s1) (nextContractId s2 - nextContractId s1)).

(** The invariant of the states between transactions. *)
Definition invariant (keccak256 : list byte -> Z) (s : State) : Prop :=
  store_ok keccak256 s /\ log_ok s /\ entered s = false.

(** The escrow bound of the design: a record never has more released than
    was paid in, and has released all of it exactly when it is COMPLETED. *)
Definition escrow_bound (c : LogisticsContract) : Prop :=
  releasedAmount c <= payment c /\
  (releasedAmount c = payment c <-> status c = COMPLETED).

Definition escrow_invariant (s : State) : Prop :=
  forall contractId,
    0 <= contractId < nextContractId s -> escrow_bound (contract s contractId).

(** ** The ledger read off the log *)

(** What the contract has taken in: the payments of the [ContractCreated]
    events, each the [msg.value] of a creation. *)
Fixpoint escrowed_in (evs : list Event) : Z :=
  match evs with
  | [] => 0
  | ContractCreated _ _ _ _ value :: rest => value + escrowed_in rest
  | _ :: rest => escrowed_in rest
  end.

(** What the contract has paid out: the amounts of the [PaymentReleased]
    events, each the value of a transfer that went through. *)
Fixpoint paid_out (evs : list Event) : Z :=
  match evs with
  | [] => 0
  | PaymentReleased _ _ amount _ :: rest => amount + paid_out rest
  | _ :: rest => paid_out rest
  end.

Definition sumZ (f : Z -> Z) (l : list Z) : Z :=
  foldr (fun x acc => f x + acc) 0 l.

(** What a record still owes its carrier. *)
Definition owed (c : LogisticsContract) : Z := payment c - releasedAmount c.

(** What the registry still owes, over the identifiers created so far. *)
Definition outstanding (s : State) : Z :=
  sumZ (fun contractId => owed (contract s contractId)) (seqZ 0 (nextContractId s)).


(** ** The outcome of a verification

    The [require]s of [verifyMilestone] that can fire, in the order of the
    source (lines 149-151, 155, 158-161 and 181): [Some reason] for the
    first one that fails, [None] when none does. *)
Definition verify_outcome (keccak256 : list byte -> Z) (s : State)
           (sender contractId i : Z) (qrData : list byte) (k : Callee)
  : option string :=
  let c := contract s contractId in
  if negb (Status_eqb (status c) ACTIVE) then Some "Invalid status"%string
  else if len (milestones c) <=? i then Some "Invalid milestone"%string
  else if negb (i =? completedMilestones c) then Some "Out of order"%string
  else match milestones c !! Z.to_nat i with
       | Some m =>
           if negb (verifier m =? sender) then Some "Not authorized"%string
           else if negb (commitment_ok keccak256 qrData m)
                then Some "Invalid QR code"%string
                else if sent k then None
                     else Some "Failed to send payment"%string
       | None => Some "Invalid milestone"%string
       end.


(** ** What the log says about one contract *)

(** The recipients and amounts of the [PaymentReleased] events, in the
    order they were emitted. *)
Fixpoint released_log (evs : list Event) : list (Z * Z) :=
  match evs with
  | [] => []
  | PaymentReleased _ to amount _ :: rest => (to, amount) :: released_log rest
  | _ :: rest => released_log rest
  end.

(** A callee that makes the same calls back but for its calls of
    [verifyMilestone]. *)
Definition is_verify (call : Call) : bool :=
  match call with
  | VerifyMilestone _ _ _ _ => true
  | _ => false
  end.


(** The milestone indices of the [MilestoneVerified] events of a contract,
    in the order they were emitted. *)
Fixpoint verified_indices (contractId : Z) (evs : list Event) : list Z :=
  match evs with
  | [] => []
  | MilestoneVerified i index _ _ :: rest =>
      if i =? contractId then index :: verified_indices contractId rest
      else verified_indices contractId rest
  | _ :: rest => verified_indices contractId rest
  end.

(** The amount milestone [index] of record [c] is paid, in closed form. *)
Definition share (c : LogisticsContract) (index : Z) : Z :=
  let n := len (milestones c) in
  if index =? n - 1 then payment c - (n - 1) * (payment c / n)
  else payment c / n.

(** The identifier a call names: the one it allocates or the one it is
    given. *)
Definition target (s : State) (call : Call) : Z :=
  match call with
  | CreateContract _ _ _ _ _ _ => nextContractId s
  | AcceptContract _ contractId => contractId
  | VerifyMilestone _ contractId _ _ => contractId
  end.


(** ** A whole delivery

    The calls that take a contract from creation to completion, each a
    transaction of its own: the creation by the shipper, the acceptance by
    the carrier, and one verification per milestone, in order, made by the
    verifier of the milestone with the packed encoding of identifier,
    location and verifier, the bytes whose hash line 100 stores.  [k] is the
    behaviour of the carrier's account on receiving a transfer. *)

(** One [verifyMilestone] per location, from [index] on. *)
Fixpoint verify_steps (contractId index : Z) (locations : list string)
         (verifiers : list Z) (k : Callee) : list Tx :=
  match locations, verifiers with
  | l :: ls, v :: vs =>
      mkTx (VerifyMilestone v contractId index (encodePacked contractId l v)) k
        :: verify_steps contractId (index + 1) ls vs k
  | _, _ => []
  end.

Definition delivery (contractId shipper_ carrier_ recipient_ : Z)
           (locations : list string) (verifiers : list Z) (payment_ : Z)
           (k : Callee) : list Tx :=
  mkTx (CreateContract shipper_ payment_ carrier_ recipient_ locations verifiers) k
    :: mkTx (AcceptContract carrier_ contractId) k
    :: verify_steps contractId 0 locations verifiers k.

(** The ether sent to the address [to]. *)
Fixpoint transferred (to : Z) (ts : list (Z * Z)) : Z :=
  match ts with
  | [] => 0
  | (recipient_, amount) :: rest =>
      (if recipient_ =? to then amount else 0) + transferred to rest
  end.

(** ** The client

    The pages of the web client read the contract through
    [getContractDetails] and [getMilestoneDetails] of [lib/contracts.ts]:
    one call of the view function on the current state; [None] stands for
    the exception thrown when the call reverts.

    The client holds identifiers, indices and counts as JavaScript numbers,
    that is as doubles: [Number] rounds a [bigint] to the nearest double, and
    ethers refuses, with an error of code INVALID_ARGUMENT, a number beyond
    the safe integers where the contract expects a [uint256]. *)

Definition max_safe_integer : Z := 2 ^ 53 - 1.

Definition is_safe_integer (n : Z) : bool := Z.abs n <=? max_safe_integer.

(** [Number(n)] for a [bigint] [n] of at most 256 bits: [n] itself up to
    [max_safe_integer], and beyond it the nearest integer with 53
    significant bits, a tie going to the even one. *)
Definition js_Number (n : Z) : Z :=
  if is_safe_integer n then n
  else
    let e := Z.log2 (Z.abs n) - 52 in
    let q := Z.abs n / 2 ^ e in
    let r := Z.abs n mod 2 ^ e in
    let half := 2 ^ (e - 1) in
    Z.sgn n * ((if (half <? r) || ((r =? half) && Z.odd q) then q + 1 else q) * 2 ^ e).

Definition Details : Type := Z * Z * Z * Z * Status * Z * Z.

Definition details_of (c : LogisticsContract) : Details :=
  (shipper c, carrier c, recipient c, payment c, status c,
   len (milestones c), completedMilestones c).

Definition details_shipper (d : Details) : Z :=
  let '(shipper_, _, _, _, _, _, _) := d in shipper_.

Definition details_carrier (d : Details) : Z :=
  let '(_, carrier_, _, _, _, _, _) := d in carrier_.

Definition details_totalMilestones (d : Details) : Z :=
  let '(_, _, _, _, _, totalMilestones, _) := d in totalMilestones.

(** [processedDetails] of [loadContract]: the two counts go through
    [Number]; so does the status, a number from 0 to 2. *)
Definition processedDetails (d : Details) : Details :=
  let '(shipper_, carrier_, recipient_, payment_, status_, totalMilestones,
        completedMilestones_) := d in
  (shipper_, carrier_, recipient_, payment_, status_, js_Number totalMilestones,
   js_Number completedMilestones_).

Definition getContractDetails (contractId : Z) (s : State) : option Details :=
  match getContract contractId s with
  | Ok (details, _) => Some details
  | Revert _ => None
  end.

Definition getMilestoneDetails (contractId milestoneIndex : Z) (s : State)
  : option (string * Z * bool) :=
  match getMilestone contractId milestoneIndex s with
  | Ok (milestone, _) => Some milestone
  | Revert _ => None
  end.

(** *** The verification page ([MilestoneVerification], [loadContract]) *)

(** The messages [loadContract] passes to [setError]. *)
Inductive PageError :=
| no_error                 (* "" *)
| enter_contract_id        (* "Please enter a contract ID" *)
| invalid_contract_id      (* "Invalid contract ID. Please enter a valid positive number." *)
| wrong_network            (* "Please connect to the Localhost network to view contracts" *)
| not_found_or_invalid     (* "Contract not found or invalid" *)
| no_milestones            (* "Contract has no milestones" *)
| failed_to_load_milestone (number : Z)  (* "Failed to load milestone <i + 1>: ..." *)
| not_found_or_no_permission
                           (* "Contract not found or you don't have permission to view it" *)
| thrown_message.          (* [err.message] of an INVALID_ARGUMENT error of ethers *)

(** The part of the component's state [loadContract] writes. *)
Record Page := mkPage {
  error : PageError;
  contractDetails : option Details;
  page_milestones : list (string * Z * bool)
}.

Definition setError (p : Page) (e : PageError) : Page :=
  mkPage e (contractDetails p) (page_milestones p).

(** The loop over the milestones: [n] indices from [i] on, pushed to
    [milestoneList].  An index ethers refuses, a failed call and an empty
    location all end the load with the error for milestone [i + 1], a sum of
    doubles; [!milestone.verifier] never holds, the verifier being returned
    as a 42-character address string.  The loop goes on only from a safe
    [i], where [i++] is exact. *)
Fixpoint load_milestones (contractId i : Z) (n : nat) (s : State)
         (milestoneList : list (string * Z * bool))
  : PageError + list (string * Z * bool) :=
  match n with
  | O => inr milestoneList
  | S n' =>
      if negb (is_safe_integer i) then inl (failed_to_load_milestone (js_Number (i + 1)))
      else
        match getMilestoneDetails contractId i s with
        | Some (location_, verifier_, completed_) =>
            if String.eqb location_ ""
            then inl (failed_to_load_milestone (js_Number (i + 1)))
            else load_milestones contractId (i + 1) n' s
                   (milestoneList ++ [(location_, verifier_, completed_)])
        | None => inl (failed_to_load_milestone (js_Number (i + 1)))
        end
  end.

Section Client.

(** JavaScript's [parseInt] on the text of the identifier field: [None] is
    NaN, and the number is otherwise a whole one.  The infinity [parseInt]
    gives for a text of more than 308 digits is represented by an integer
    beyond the safe ones of the same sign, which the page treats alike: the
    comparison with 0 of [validateContractId] depends on the sign only, and
    ethers refuses both. *)
Variable parseInt : string -> option Z.

Definition validateContractId (id : string) : bool :=
  match parseInt id with
  | Some parsedId => negb (parsedId <? 0)
  | None => false
  end.

(** [loadContract] for the text [contractId] of the identifier field;
    [localhost] is false when a browser wallet is connected to a chain other
    than 31337, the only case in which the page refuses to read.  The
    number [parseInt] gives goes to ethers as it is: one that is not a safe
    integer makes [getContractDetails] throw before any call, and the
    outer [catch] shows the message of that error. *)
Definition loadContract (contractId : string) (localhost : bool) (s : State)
           (p : Page) : Page :=
  if String.eqb contractId "" then setError p enter_contract_id
  else if negb (validateContractId contractId) then setError p invalid_contract_id
  else if negb localhost then mkPage wrong_network None []
  else
    match parseInt contractId with
    | None => mkPage thrown_message None []
    | Some id =>
        if negb (is_safe_integer id) then mkPage thrown_message None []
        else
          match getContractDetails id s with
          | None => mkPage not_found_or_no_permission None []
          | Some details =>
              if details_carrier details =? 0
              then mkPage not_found_or_invalid None []
              else
                let totalMilestones := js_Number (details_totalMilestones details) in
                if totalMilestones =? 0
                then mkPage no_milestones (Some (processedDetails details)) []
                else
                  match load_milestones id 0 (Z.to_nat totalMilestones) s [] with
                  | inl e => mkPage e (Some (processedDetails details)) []
                  | inr milestoneList =>
                      mkPage no_error (Some (processedDetails details)) milestoneList
                  end
          end
    end.

End Client.

(** *** The creation form ([CreateContractForm], [handleSubmit]) *)

(** The fields of the form; a milestone row is a location and the address
    of its verifier, both as typed. *)
Record Form := mkForm {
  form_carrier : string;
  form_recipient : string;
  form_payment : string;
  form_milestones : list (string * string)
}.

(** What [handleSubmit] does with the form: one of its two validation
    errors, or the call of [createContract] of [lib/contracts.ts]. *)
Inductive Submission :=
| fill_required     (* "Please fill in all required fields" *)
| fill_milestones   (* "Please fill in all milestone details" *)
| submit (carrier_ recipient_ : string) (locations verifiers : list string)
         (payment_ : string).

(** [!text] for a string. *)
Definition is_empty (text : string) : bool := String.eqb text "".

Definition handleSubmit (f : Form) : Submission :=
  if is_empty (form_carrier f) || is_empty (form_recipient f)
     || is_empty (form_payment f)
  then fill_required
  else
    let locations := map fst (form_milestones f) in
    let verifiers := map snd (form_milestones f) in
    if existsb is_empty locations || existsb is_empty verifiers then fill_milestones
    else submit (form_carrier f) (form_recipient f) locations verifiers
                (form_payment f).

(** The identifier [createContract] of [lib/contracts.ts] reads from the
    receipt: argument 0 of the first [ContractCreated] log, and 0 when there
    is none. *)
Fixpoint created_id (logs : list Event) : Z :=
  match logs with
  | [] => 0
  | ContractCreated contractId _ _ _ _ :: _ => contractId
  | _ :: rest => created_id rest
  end.

Section Wallet.

Variable keccak256 : list byte -> Z.

(** [ethers.parseEther] and the conversion of an address string to an
    address; [None] is a thrown error. *)
Variable parseEther : string -> option Z.
Variable resolveAddress : string -> option Z.

(** [createContract] of [lib/contracts.ts] for the account [signer]: the
    transaction, then the identifier from its receipt, returned as a
    [Number]; [None] is a thrown error, which leaves the chain as it was. *)
Definition lib_createContract (signer : Z) (carrier_ recipient_ : string)
           (locations verifiers : list string) (payment_ : string) (s : State)
  : option Z * State :=
  match parseEther payment_, resolveAddress carrier_, resolveAddress recipient_,
        mapM resolveAddress verifiers with
  | Some paymentWei, Some ca, Some re, Some vs =>
      match createContract keccak256 signer paymentWei ca re locations vs s with
      | Ok (_, s') =>
          (Some (js_Number (created_id (drop (length (events s)) (events s')))), s')
      | Revert _ => (None, s)
      end
  | _, _, _, _ => (None, s)
  end.

(** Submitting the form: the identifier the form then shows, if any. *)
Definition submit_form (f : Form) (signer : Z) (s : State) : option Z * State :=
  match handleSubmit f with
  | submit carrier_ recipient_ locations verifiers payment_ =>
      lib_createContract signer carrier_ recipient_ locations verifiers payment_ s
  | _ => (None, s)
  end.

End Wallet.


(** *** The dashboard ([ContractDashboard], [loadContracts]) *)

(** The loop of [loadContracts] over [n] identifiers from [i] on: a record
    is listed when its shipper is not the zero address. *)
Fixpoint loadContracts_from (i : Z) (n : nat) (s : State) : list (Z * Details) :=
  match n with
  | O => []
  | S n' =>
      match getContractDetails i s with
      | Some details =>
          if negb (details_shipper details =? 0)
          then (i, details) :: loadContracts_from (i + 1) n' s
          else loadContracts_from (i + 1) n' s
      | None => loadContracts_from (i + 1) n' s
      end
  end.

Definition loadContracts (s : State) : list (Z * Details) :=
  loadContracts_from 0 10 s.

(** What the verification page shows of a milestone. *)
Definition milestone_view (m : Milestone) : string * Z * bool :=
  (location m, verifier m, completed m).


(** * The first generation of the contract

    [contracts/contracts/TrackFlow.sol] is the contract before the escrow
    was released per milestone: five statuses, a timestamp per milestone, no
    [releasedAmount], no order check, and the whole payment sent at the last
    milestone.  It inherits [ReentrancyGuard] and [Pausable] but uses no
    modifier of either, so neither has any state here: a carrier that is
    called may call any function back, to any depth.

    The functions are written in explicit state-passing style, one [if] per
    [require] in the order of the source. *)

Module Legacy.

(** Lines 13-39. *)
Inductive Status := CREATED | ACCEPTED | IN_TRANSIT | DELIVERED | DISPUTED.

#[global] Instance Status_eq_dec : EqDecision Status.
Proof. solve_decision. Defined.

Record Milestone := mkMilestone {
  qrHash : Z;
  location : string;
  timestamp : Z;
  verifier : Z;
  completed : bool
}.

Record LogisticsContract := mkContract {
  shipper : Z;
  carrier : Z;
  recipient : Z;
  payment : Z;
  status : Status;
  milestones : list Milestone;
  completedMilestones : Z
}.

Definition zero_contract : LogisticsContract := mkContract 0 0 0 0 CREATED [] 0.

(** Lines 46-73. *)
Inductive Event :=
| ContractCreated (contractId shipper_ carrier_ recipient_ payment_ : Z)
| ContractAccepted (contractId carrier_ : Z)
| MilestoneVerified (contractId milestoneIndex : Z) (location_ : string) (verifier_ : Z)
| PaymentReleased (contractId carrier_ amount : Z)
| ContractDisputed (contractId disputeInitiator : Z) (reason : string).

(** Lines 42-43, and the log. *)
Record State := mkState {
  contracts : gmap Z LogisticsContract;
  nextContractId : Z;
  events : list Event
}.

Definition initial : State := mkState ∅ 0 [].

Definition contract (s : State) (contractId : Z) : LogisticsContract :=
  default zero_contract (contracts s !! contractId).

Definition sstore (contractId : Z) (c : LogisticsContract) (s : State) : State :=
  mkState (<[contractId := c]> (contracts s)) (nextContractId s) (events s).

Definition emit (e : Event) (s : State) : State :=
  mkState (contracts s) (nextContractId s) (events s ++ [e]).

Definition set_status (c : LogisticsContract) (st : Status) : LogisticsContract :=
  mkContract (shipper c) (carrier c) (recipient c) (payment c) st
             (milestones c) (completedMilestones c).

Definition set_completed (m : Milestone) : Milestone :=
  mkMilestone (qrHash m) (location m) (timestamp m) (verifier m) true.

(** Lines 168-169: [milestone.completed = true; c.completedMilestones++]. *)
Definition mark_completed (c : LogisticsContract) (milestoneIndex : Z)
           (milestone : Milestone) : LogisticsContract :=
  mkContract (shipper c) (carrier c) (recipient c) (payment c) (status c)
             (<[Z.to_nat milestoneIndex := set_completed milestone]> (milestones c))
             (completedMilestones c + 1).

Inductive Call :=
| CreateContract (msg_sender msg_value block_timestamp carrier_ recipient_ : Z)
                 (locations : list string) (verifiers : list Z)
| AcceptContract (msg_sender contractId : Z)
| VerifyMilestone (msg_sender contractId milestoneIndex : Z) (qrData : list byte).

(** What the carrier account does when it receives the payment: the calls
    it makes back into the contract, each with the behaviour of the account
    that call pays, and whether it reports success. *)
#[local] Unset Elimination Schemes.
Inductive Callee := mkCallee (reenter : list (Call * Callee)) (sent_ : bool).
#[local] Set Elimination Schemes.

Definition sent (k : Callee) : bool :=
  match k with mkCallee _ sent_ => sent_ end.

Definition commit {A} (r : Result (A * State)) (s : State) : State :=
  match r with
  | Ok (_, s') => s'
  | Revert _ => s
  end.

Section Contract.

Variable keccak256 : list byte -> Z.

(** The creation loop, lines 104-116. *)
Fixpoint new_milestones (contractId block_timestamp : Z) (locations : list string)
         (verifiers : list Z) : list Milestone :=
  match locations, verifiers with
  | l :: ls, v :: vs =>
      mkMilestone (keccak256 (encodePacked contractId l v)) l block_timestamp v false
        :: new_milestones contractId block_timestamp ls vs
  | _, _ => []
  end.

(** Lines 82-127. *)
Definition createContract (msg_sender msg_value block_timestamp carrier_ recipient_ : Z)
           (locations : list string) (verifiers : list Z) (s : State)
  : Result (Z * State) :=
  if negb (0 <? msg_value) then Revert (Error "Payment required")
  else if carrier_ =? 0 then Revert (Error "Invalid carrier")
  else if recipient_ =? 0 then Revert (Error "Invalid recipient")
  else if negb (0 <? len locations) then Revert (Error "No milestones")
  else if negb (len locations =? len verifiers) then Revert (Error "Mismatched arrays")
  else if negb (nextContractId s + 1 <=? uint256_max) then Revert (Panic 17)
  else
    let contractId := nextContractId s in
    let c := contract s contractId in
    let c' := mkContract msg_sender carrier_ recipient_ msg_value CREATED
                (milestones c ++
                 new_milestones contractId block_timestamp locations verifiers)
                (completedMilestones c) in
    Ok (contractId,
        mkState (<[contractId := c']> (contracts s)) (nextContractId s + 1)
                (events s ++
                 [ContractCreated contractId msg_sender carrier_ recipient_ msg_value])).

(** Lines 133-141. *)
Definition acceptContract (msg_sender contractId : Z) (s : State)
  : Result (unit * State) :=
  let c := contract s contractId in
  if negb (carrier c =? msg_sender) then Revert (Error "Not the carrier")
  else if negb (bool_decide (status c = CREATED)) then Revert (Error "Invalid status")
  else Ok (tt, emit (ContractAccepted contractId msg_sender)
                 (sstore contractId (set_status c ACCEPTED) s)).

(** Lines 149-188.  [transfer] is the external call of line 177; the event
    arguments read after it come from storage as the call left it. *)
Definition verifyMilestone (transfer : Z -> Z -> State -> bool * State)
           (msg_sender contractId milestoneIndex : Z) (qrData : list byte) (s : State)
  : Result (unit * State) :=
  let c := contract s contractId in
  if negb (bool_decide (status c = ACCEPTED) || bool_decide (status c = IN_TRANSIT))
  then Revert (Error "Invalid status")
  else if negb (milestoneIndex <? len (milestones c))
  then Revert (Error "Invalid milestone")
  else
    match (if 0 <=? milestoneIndex then milestones c !! Z.to_nat milestoneIndex
           else None) with
    | None => Revert (Panic 50)
    | Some milestone =>
        if completed milestone then Revert (Error "Already verified")
        else if negb (verifier milestone =? msg_sender)
        then Revert (Error "Not authorized")
        else if negb (keccak256 qrData =? qrHash milestone)
        then Revert (Error "Invalid QR code")
        else if negb (completedMilestones c + 1 <=? uint256_max) then Revert (Panic 17)
        else
          let c1 := mark_completed c milestoneIndex milestone in
          let verified_event (s' : State) :=
            MilestoneVerified contractId milestoneIndex
              (location (default milestone
                           (milestones (contract s' contractId)
                              !! Z.to_nat milestoneIndex)))
              msg_sender in
          if milestoneIndex =? 0 then
            let s1 := sstore contractId (set_status c1 IN_TRANSIT) s in
            Ok (tt, emit (verified_event s1) s1)
          else if milestoneIndex =? len (milestones c) - 1 then
            let s1 := sstore contractId (set_status c1 DELIVERED) s in
            let '(ok, s2) := transfer (carrier c) (payment c) s1 in
            if negb ok then Revert (Error "Failed to send payment")
            else
              let c2 := contract s2 contractId in
              let s3 := emit (PaymentReleased contractId (carrier c2) (payment c2)) s2 in
              Ok (tt, emit (verified_event s3) s3)
          else
            let s1 := sstore contractId c1 s in
            Ok (tt, emit (verified_event s1) s1)
    end.

Definition dispatch (transfer : Z -> Z -> State -> bool * State) (call : Call)
           (s : State) : Result (unit * State) :=
  match call with
  | CreateContract msg_sender msg_value block_timestamp carrier_ recipient_
                   locations verifiers =>
      match createContract msg_sender msg_value block_timestamp carrier_ recipient_
                           locations verifiers s with
      | Ok (_, s') => Ok (tt, s')
      | Revert f => Revert f
      end
  | AcceptContract msg_sender contractId => acceptContract msg_sender contractId s
  | VerifyMilestone msg_sender contractId milestoneIndex qrData =>
      verifyMilestone transfer msg_sender contractId milestoneIndex qrData s
  end.

(** [c.carrier.call{value: c.payment}("")] with the callee [k]: its calls
    back run one after the other, each as a call of its own that keeps its
    writes unless it reverts; a refused transfer changes nothing. *)
Fixpoint carrier_call (k : Callee) (to amount : Z) (s : State) {struct k}
  : bool * State :=
  match k with
  | mkCallee calls sent_ =>
      if sent_ then
        (true,
         (fix run_calls (calls : list (Call * Callee)) (s : State) {struct calls}
            : State :=
            match calls with
            | [] => s
            | (call, k') :: rest =>
                run_calls rest (commit (dispatch (carrier_call k') call s) s)
            end) calls s)
      else (false, s)
  end.

(** A transaction: a call with the behaviour of the account it may pay. *)
Definition transact (s : State) (tx : Call * Callee) : State :=
  commit (dispatch (carrier_call tx.2) tx.1 s) s.

Definition run_all (txs : list (Call * Callee)) : State :=
  fold_left transact txs initial.

Definition reachable (s : State) : Prop := exists txs, s = run_all txs.

End Contract.

(** The payments logged for a contract. *)
Fixpoint released_total (contractId : Z) (evs : list Event) : Z :=
  match evs with
  | [] => 0
  | PaymentReleased i _ amount :: rest =>
      (if i =? contractId then amount else 0) + released_total contractId rest
  | _ :: rest => released_total contractId rest
  end.

(** The number of milestones marked completed. *)
Fixpoint completed_count (ms : list Milestone) : Z :=
  match ms with
  | [] => 0
  | m :: rest => (if completed m then 1 else 0) + completed_count rest
  end.

(** The invariant of a record of the registry. *)
Record record_ok (c : LogisticsContract) : Prop := mk_record_ok {
  ok_payment : 0 < payment c;
  ok_total : 0 < len (milestones c);
  ok_count : completedMilestones c = completed_count (milestones c);
  ok_status : status c <> DISPUTED;
  ok_delivered : status c = DELIVERED -> 2 <= len (milestones c)
}.

(** A slot no creation has written. *)
Definition blank (c : LogisticsContract) : Prop :=
  c = set_status zero_contract (status c) /\
  (status c = CREATED \/ status c = ACCEPTED).

(** The invariant of the state while the verifications of the contracts in
    [pending] are waiting for their transfer to return: these contracts are
    DELIVERED with nothing logged yet; every other contract has its payment
    logged exactly when it is DELIVERED. *)
Record state_ok (pending : list Z) (s : State) : Prop := mk_state_ok {
  ok_next : 0 <= nextContractId s;
  ok_records :
    forall contractId, 0 <= contractId < nextContractId s ->
                       record_ok (contract s contractId);
  ok_blank :
    forall contractId, ~ 0 <= contractId < nextContractId s ->
                       blank (contract s contractId);
  ok_pending :
    forall contractId, contractId ∈ pending ->
                       status (contract s contractId) = DELIVERED /\
                       released_total contractId (events s) = 0;
  ok_log :
    forall contractId, contractId ∉ pending ->
                       released_total contractId (events s) =
                       if decide (status (contract s contractId) = DELIVERED)
                       then payment (contract s contractId) else 0
}.

End Legacy.


(** ** Inputs for evaluating the client and the first generation *)

(** A stand-in for [parseInt] on strings of decimal digits: the number
    written, as a double. *)
Fixpoint parse_digits (acc : Z) (text : string) : option Z :=
  match text with
  | EmptyString => Some acc
  | String c rest =>
      let digit := Z.of_nat (Ascii.nat_of_ascii c) - 48 in
      if (0 <=? digit) && (digit <=? 9) then parse_digits (10 * acc + digit) rest
      else None
  end.

Definition sample_parseInt (text : string) : option Z :=
  match text with
  | EmptyString => None
  | _ => option_map js_Number (parse_digits 0 text)
  end.

(** Stand-ins for [parseEther], on whole numbers of ether, and for the
    conversion of an address, on the texts made of 0x and 40 digits or
    lowercase letters of the hexadecimal notation. *)
Definition sample_parseEther (text : string) : option Z :=
  option_map (Z.mul (10 ^ 18)) (sample_parseInt text).

Definition hex_digit (c : Ascii.ascii) : option Z :=
  let code := Z.of_nat (Ascii.nat_of_ascii c) in
  if (48 <=? code) && (code <=? 57) then Some (code - 48)
  else if (97 <=? code) && (code <=? 102) then Some (code - 87)
  else None.

Fixpoint parse_hex (acc : Z) (text : string) : option Z :=
  match text with
  | EmptyString => Some acc
  | String c rest =>
      match hex_digit c with
      | Some digit => parse_hex (16 * acc + digit) rest
      | None => None
      end
  end.

Definition sample_resolveAddress (text : string) : option Z :=
  if String.eqb (substring 0 2 text) "0x" && (String.length text =? 42)%nat
  then parse_hex 0 (substring 2 40 text)
  else None.

(** The form filled in for carrier 2, recipient 3, one ether and the rows
    A/11 and B/12, and the transaction it sends for account 1 once the
    scenario above has taken identifier 0. *)
Definition sample_form : Form :=
  mkForm "0x0000000000000000000000000000000000000002"
         "0x0000000000000000000000000000000000000003"
         "1"
         [("A", "0x000000000000000000000000000000000000000b");
          ("B", "0x000000000000000000000000000000000000000c")]%string.

Definition form_created : list Tx :=
  abc_created ++ [mkTx (CreateContract 1 (10 ^ 18) 2 3 ["A"; "B"]%string [11; 12]) quiet].


(** Twelve contracts created one after the other. *)
Definition twelve_created : list Tx :=
  repeat (mkTx (CreateContract 1 100 2 3 ["A"; "B"; "C"]%string [11; 12; 11]) quiet)
         12.

(** First generation: escrow 100 over milestones A and B, accepted; and
    escrow 7 with the single milestone "Depot", accepted and verified. *)
Definition legacy_quiet : Legacy.Callee := Legacy.mkCallee [] true.

Definition legacy_pair : list (Legacy.Call * Legacy.Callee) :=
  [(Legacy.CreateContract 1 100 0 2 3 ["A"; "B"]%string [11; 12], legacy_quiet);
   (Legacy.AcceptContract 2 0, legacy_quiet)].

Definition legacy_pair_last : list (Legacy.Call * Legacy.Callee) :=
  legacy_pair ++
  [(Legacy.VerifyMilestone 12 0 1 (encodePacked 0 "B" 12), legacy_quiet)].

Definition legacy_single : list (Legacy.Call * Legacy.Callee) :=
  [(Legacy.CreateContract 1 7 0 2 3 ["Depot"]%string [11], legacy_quiet);
   (Legacy.AcceptContract 2 0, legacy_quiet);
   (Legacy.VerifyMilestone 11 0 0 (encodePacked 0 "Depot" 11), legacy_quiet)].


(** * Properties *)

(** ** Storage reads after writes *)

Lemma contract_sstore m n e l t contractId c i :
  contract (mkState (<[contractId := c]> m) n e l t) i =
  if decide (contractId = i) then c else contract (mkState m n e l t) i.
Proof.
  unfold contract; simpl. rewrite lookup_insert. by case_decide.
Qed.

Lemma Status_eqb_eq a b : Status_eqb a b = true <-> a = b.
Proof. destruct a, b; simpl; split; congruence. Qed.

Lemma Status_eqb_neq a b : Status_eqb a b = false <-> a <> b.
Proof. destruct a, b; simpl; split; congruence. Qed.

Lemma len_insert {A} (xs : list A) (i : nat) (x : A) : len (<[i := x]> xs) = len xs.
Proof. unfold len. by rewrite length_insert. Qed.

Lemma released_total_app contractId evs evs' :
  released_total contractId (evs ++ evs') =
  released_total contractId evs + released_total contractId evs'.
Proof.
  induction evs as [|e evs IH]; simpl; [lia|].
  destruct e; rewrite IH; lia.
Qed.

Lemma created_ids_app evs evs' :
  created_ids (evs ++ evs') = created_ids evs ++ created_ids evs'.
Proof.
  induction evs as [|e evs IH]; simpl; [reflexivity|].
  destruct e; rewrite ?IH; reflexivity.
Qed.

(** ** Inversion of monadic computations *)

Arguments uint256_max : simpl never.

Lemma bind_Ok {A B} (m : M A) (k : A -> M B) s r :
  bind m k s = Ok r -> exists a s1, m s = Ok (a, s1) /\ k a s1 = Ok r.
Proof.
  unfold bind. destruct (m s) as [[a s1]|f]; [|discriminate]. eauto.
Qed.

Lemma ret_Ok {A} (a b : A) s s1 : ret a s = Ok (b, s1) -> b = a /\ s1 = s.
Proof. unfold ret. intros [= -> ->]. auto. Qed.

Lemma require_Ok cond reason s u s1 :
  require cond reason s = Ok (u, s1) -> cond = true /\ s1 = s.
Proof. unfold require, ret, revert. destruct cond; [intros [= _ ->]; auto | discriminate]. Qed.

Lemma sload_Ok contractId s c s1 :
  sload contractId s = Ok (c, s1) -> c = contract s contractId /\ s1 = s.
Proof. unfold sload. intros [= <- <-]. auto. Qed.

Lemma checked_add_Ok a b s n s1 :
  checked_add a b s = Ok (n, s1) -> n = a + b /\ a + b <= uint256_max /\ s1 = s.
Proof.
  unfold checked_add, ret, revert. destruct (Z.leb_spec (a + b) uint256_max); [|discriminate].
  intros [= <- <-]. auto.
Qed.

Lemma checked_sub_Ok a b s n s1 :
  checked_sub a b s = Ok (n, s1) -> n = a - b /\ b <= a /\ s1 = s.
Proof.
  unfold checked_sub, ret, revert. destruct (Z.leb_spec b a); [|discriminate].
  intros [= <- <-]. auto.
Qed.

Lemma checked_div_Ok a b s n s1 :
  checked_div a b s = Ok (n, s1) -> n = a / b /\ b <> 0 /\ s1 = s.
Proof.
  unfold checked_div, ret, revert. destruct (Z.eqb_spec b 0); [discriminate|].
  intros [= <- <-]. auto.
Qed.

Lemma index_Ok {A} (xs : list A) i s x s1 :
  index xs i s = Ok (x, s1) ->
  0 <= i < len xs /\ xs !! Z.to_nat i = Some x /\ s1 = s.
Proof.
  unfold index, ret, revert.
  destruct (Z.leb_spec 0 i), (Z.ltb_spec i (len xs)); simpl; try discriminate.
  destruct (xs !! Z.to_nat i); [|discriminate]. intros [= <- <-]. auto.
Qed.

Lemma index_lookup {A} (xs : list A) i x s :
  0 <= i -> xs !! Z.to_nat i = Some x -> index xs i s = Ok (x, s).
Proof.
  intros Hi Hx. unfold index.
  assert (i < len xs) as Hlt.
  { apply lookup_lt_Some in Hx. unfold len. lia. }
  apply Z.leb_le in Hi. apply Z.ltb_lt in Hlt. by rewrite Hi, Hlt, Hx.
Qed.

Lemma next_id_Ok s n s1 :
  next_id s = Ok (n, s1) ->
  n = nextContractId s /\ nextContractId s + 1 <= uint256_max /\
  s1 = mkState (contracts s) (nextContractId s + 1) (entered s) (events s)
               (transfers s).
Proof.
  unfold next_id.
  destruct (checked_add (nextContractId s) 1 s) as [[m s2]|f] eqn:E; [|discriminate].
  apply checked_add_Ok in E as (-> & Hle & _). intros [= <- <-]. auto.
Qed.

Lemma sstore_Ok contractId c s u s1 :
  sstore contractId c s = Ok (u, s1) ->
  s1 = mkState (<[contractId := c]> (contracts s)) (nextContractId s) (entered s)
               (events s) (transfers s).
Proof. unfold sstore. by intros [= _ <-]. Qed.

Lemma emit_Ok e s u s1 :
  emit e s = Ok (u, s1) ->
  s1 = mkState (contracts s) (nextContractId s) (entered s) (events s ++ [e])
               (transfers s).
Proof. unfold emit. by intros [= _ <-]. Qed.

(** Splits a successful run of a sequence of monadic steps into the facts
    each step contributes. *)
Ltac monad_inv H :=
  lazymatch type of H with
  | bind _ _ _ = Ok _ =>
      let a := fresh "a" in
      let s1 := fresh "s" in
      let H1 := fresh "Hm" in
      let H2 := fresh "Hk" in
      apply bind_Ok in H as (a & s1 & H1 & H2); monad_inv H1; monad_inv H2
  | ret _ _ = Ok _ => apply ret_Ok in H as [? ?]; subst
  | require _ _ _ = Ok _ => apply require_Ok in H as [? ?]; subst
  | sload _ _ = Ok _ => apply sload_Ok in H as [? ?]; subst
  | checked_add _ _ _ = Ok _ => apply checked_add_Ok in H as (? & ? & ?); subst
  | checked_sub _ _ _ = Ok _ => apply checked_sub_Ok in H as (? & ? & ?); subst
  | checked_div _ _ _ = Ok _ => apply checked_div_Ok in H as (? & ? & ?); subst
  | index _ _ _ = Ok _ => apply index_Ok in H as (? & ? & ?); subst
  | next_id _ = Ok _ => apply next_id_Ok in H as (? & ? & ?); subst
  | sstore _ _ _ = Ok _ => apply sstore_Ok in H; subst
  | emit _ _ = Ok _ => apply emit_Ok in H; subst
  | _ => idtac
  end.

Section Properties.

Variable keccak256 : list byte -> Z.

(** ** createContract *)

(** The preconditions checked by the five [require]s of [createContract]. *)
Lemma createContract_Ok sender value carrier_ recipient_ locations verifiers s r s' :
  createContract keccak256 sender value carrier_ recipient_ locations verifiers s
    = Ok (r, s') ->
  (0 < value /\ carrier_ <> 0 /\ recipient_ <> 0 /\ 0 < len locations /\
   len locations = len verifiers /\ nextContractId s + 1 <= uint256_max) /\
  r = nextContractId s /\
  s' = mkState
         (<[r := mkContract sender carrier_ recipient_ value 0 CREATED
                   (milestones (contract s r) ++
                    new_milestones keccak256 r locations verifiers)
                   (completedMilestones (contract s r))]> (contracts s))
         (nextContractId s + 1) (entered s)
         (events s ++ [ContractCreated r sender carrier_ recipient_ value])
         (transfers s).
Proof.
  intros H. unfold createContract in H. monad_inv H.
  repeat match goal with
         | H : negb _ = true |- _ => apply negb_true_iff in H
         end.
  split; [|split; reflexivity].
  repeat split; lia.
Qed.
Lemma createContract_succeeds sender value carrier_ recipient_ locations verifiers s :
  0 < value -> carrier_ <> 0 -> recipient_ <> 0 -> 0 < len locations ->
  len locations = len verifiers -> nextContractId s + 1 <= uint256_max ->
  exists s',
    createContract keccak256 sender value carrier_ recipient_ locations verifiers s
      = Ok (nextContractId s, s').
Proof.
  intros Hv Hc Hr Hl Hlv Hn.
  unfold createContract, bind, require, next_id, checked_add, sload, sstore, emit, ret.
  apply Z.ltb_lt in Hv, Hl. apply Z.eqb_neq in Hc, Hr. apply Z.eqb_eq in Hlv.
  apply Z.leb_le in Hn.
  rewrite Hv, Hc, Hr, Hl, Hlv. simpl. rewrite Hn. eauto.
Qed.

Lemma createContract_invalid sender value carrier_ recipient_ locations verifiers s :
  value <= 0 \/ carrier_ = 0 \/ recipient_ = 0 \/ locations = [] \/
  len locations <> len verifiers ->
  exists reason,
    createContract keccak256 sender value carrier_ recipient_ locations verifiers s
      = Revert (Error reason) /\
    reason_kind in_createContract reason = Some ValidationError.
Proof.
  intros Hbad.
  unfold createContract, bind, require, ret, revert.
  destruct (Z.ltb_spec 0 value); [|eexists; split; reflexivity].
  destruct (Z.eqb_spec carrier_ 0); [eexists; split; reflexivity|].
  destruct (Z.eqb_spec recipient_ 0); [eexists; split; reflexivity|].
  simpl.
  destruct (Z.ltb_spec 0 (len locations)) as [Hl|Hl]; [|eexists; split; reflexivity].
  destruct (Z.eqb_spec (len locations) (len verifiers)); [|eexists; split; reflexivity].
  exfalso. destruct Hbad as [?|[?|[?|[->|?]]]]; try lia; try contradiction.
  unfold len in Hl; simpl in Hl; lia.
Qed.

(** ** verifyMilestone *)

Lemma release_amount_Ok c i s c' a s1 :
  release_amount c i s = Ok ((c', a), s1) ->
  s1 = s /\ a = amount_due c i /\
  c' = (if i =? len (milestones c) - 1 then set_status c COMPLETED else c) /\
  (i = len (milestones c) - 1 -> releasedAmount c <= payment c).
Proof.
  intros H. unfold release_amount in H. monad_inv H.
  unfold amount_due, release_rule.
  destruct (Z.eqb_spec i (len (milestones c) - 1)); monad_inv Hk0.
  - match goal with H : (_, _) = (_, _) |- _ => injection H as <- <- end. auto.
  - match goal with H : (_, _) = (_, _) |- _ => injection H as <- <- end.
    repeat split; auto. intros; contradiction.
Qed.

Lemma release_amount_run c i s :
  0 < len (milestones c) ->
  (i = len (milestones c) - 1 -> releasedAmount c <= payment c) ->
  release_amount c i s =
  Ok (if i =? len (milestones c) - 1 then set_status c COMPLETED else c,
      amount_due c i, s).
Proof.
  intros Hn Hle.
  unfold release_amount, bind, checked_div, checked_sub, ret, amount_due, release_rule.
  destruct (Z.eqb_spec (len (milestones c)) 0); [lia|].
  destruct (Z.leb_spec 1 (len (milestones c))); [|lia].
  destruct (Z.eqb_spec i (len (milestones c) - 1)) as [E|E]; [|reflexivity].
  specialize (Hle E). apply Z.leb_le in Hle. by rewrite Hle.
Qed.

Lemma verified_eq c i m :
  let c1 := set_completedMilestones
              (set_milestones c (<[Z.to_nat i := set_completed m]> (milestones c)))
              (completedMilestones
                 (set_milestones c (<[Z.to_nat i := set_completed m]> (milestones c))) + 1) in
  let c2 := if i =? len (milestones c1) - 1 then set_status c1 COMPLETED else c1 in
  amount_due c1 i = amount_due c i /\
  carrier c2 = carrier c /\
  releasedAmount c2 = releasedAmount c /\
  set_releasedAmount c2 (releasedAmount c + amount_due c i) = verified c i m.
Proof.
  unfold verified, amount_due, release_rule. simpl. rewrite len_insert.
  destruct (i =? len (milestones c) - 1); auto.
Qed.

Lemma verifyMilestone_body_Ok transfer sender contractId i qr s u s' :
  verifyMilestone_body keccak256 transfer sender contractId i qr s = Ok (u, s') ->
  exists m mid m',
    verify_guards keccak256 s sender contractId i qr m /\
    transfer (carrier (contract s contractId)) (amount_due (contract s contractId) i)
      (before_transfer s contractId i m) = Ok (true, mid) /\
    milestones (contract mid contractId) !! Z.to_nat i = Some m' /\
    s' = after_transfer s mid sender contractId i m'.
Proof.
  intros Hbody. set (c := contract s contractId).
  unfold verifyMilestone_body in Hbody.
  apply bind_Ok in Hbody as (c0 & s0 & Hload & Hbody).
  apply sload_Ok in Hload as [Hc ->]. fold c in Hc. subst c0.
  apply bind_Ok in Hbody as (? & ? & Hst & Hbody). monad_inv Hst.
  apply bind_Ok in Hbody as (? & ? & Hrange & Hbody). monad_inv Hrange.
  apply bind_Ok in Hbody as (? & ? & Horder & Hbody). monad_inv Horder.
  apply bind_Ok in Hbody as (m & ? & Hm & Hbody). monad_inv Hm.
  apply bind_Ok in Hbody as (? & ? & Hdone & Hbody). monad_inv Hdone.
  apply bind_Ok in Hbody as (? & ? & Hauth & Hbody). monad_inv Hauth.
  apply bind_Ok in Hbody as (? & ? & Hqr & Hbody). monad_inv Hqr.
  apply bind_Ok in Hbody as (? & ? & Hcount & Hbody). monad_inv Hcount.
  apply bind_Ok in Hbody as ([c1 amount] & ? & Hrel & Hbody).
  apply release_amount_Ok in Hrel as (-> & -> & -> & Hlast).
  destruct (verified_eq c i m) as (Eamount & Ecarrier & Ereleased & Everified).
  cbv zeta in Eamount, Ecarrier, Ereleased, Everified.
  cbn [fst snd] in Hbody.
  rewrite Eamount, Ereleased in Hbody.
  apply bind_Ok in Hbody as (? & ? & Hsum & Hbody). monad_inv Hsum.
  rewrite Ecarrier, Everified in Hbody.
  apply bind_Ok in Hbody as (? & ? & Hstore & Hbody). monad_inv Hstore.
  apply bind_Ok in Hbody as (ok & mid & Hcall & Hbody).
  apply bind_Ok in Hbody as (? & ? & Hsent & Hbody). monad_inv Hsent.
  apply bind_Ok in Hbody as (c2 & ? & Hload & Hbody). monad_inv Hload.
  apply bind_Ok in Hbody as (? & ? & Hemit & Hbody). monad_inv Hemit.
  apply bind_Ok in Hbody as (m' & ? & Hm' & Hbody). monad_inv Hm'.
  monad_inv Hbody.
  apply Status_eqb_eq in H. apply Z.eqb_eq in H1, H5. apply negb_true_iff in H4.
  simpl in Hlast, H8. rewrite len_insert in Hlast.
  exists m, mid, m'. unfold verify_guards. fold c.
  repeat split; try assumption; try lia.
  unfold after_transfer. simpl. by rewrite <- app_assoc.
Qed.

Lemma bind_run {A B} (m : M A) (k : A -> M B) s a s1 :
  m s = Ok (a, s1) -> bind m k s = k a s1.
Proof. unfold bind. by intros ->. Qed.

(** What the body computes once its guards hold: the outcome is decided by
    the transfer. *)
Lemma verifyMilestone_body_run transfer sender contractId i qr s m :
  verify_guards keccak256 s sender contractId i qr m ->
  verifyMilestone_body keccak256 transfer sender contractId i qr s =
  match transfer (carrier (contract s contractId))
                 (amount_due (contract s contractId) i)
                 (before_transfer s contractId i m) with
  | Ok (true, mid) =>
      match index (milestones (contract mid contractId)) i mid with
      | Ok (m', _) => Ok (tt, after_transfer s mid sender contractId i m')
      | Revert f => Revert f
      end
  | Ok (false, _) => Revert (Error "Failed to send payment")
  | Revert f => Revert f
  end.
Proof.
  intros (Hst & Hi & Hord & Hm & Hdone & Hver & Hqr & Hcount & Hlast & Hsum).
  set (c := contract s contractId) in *.
  unfold verifyMilestone_body.
  rewrite (bind_run _ _ s c s) by reflexivity.
  apply Status_eqb_eq in Hst. rewrite Hst.
  assert ((i <? len (milestones c)) = true) as -> by (apply Z.ltb_lt; lia).
  assert ((i =? completedMilestones c) = true) as -> by (apply Z.eqb_eq; lia).
  do 3 rewrite (bind_run _ _ s tt s) by reflexivity.
  rewrite (bind_run _ _ s m s) by (apply index_lookup; [lia|assumption]).
  rewrite Hdone, Hqr. apply Z.eqb_eq in Hver. rewrite Hver. simpl negb.
  do 3 rewrite (bind_run _ _ s tt s) by reflexivity.
  rewrite (bind_run _ _ s (completedMilestones c + 1) s); cycle 1.
  { unfold checked_add. cbn [completedMilestones set_milestones].
    apply Z.leb_le in Hcount. by rewrite Hcount. }
  destruct (verified_eq c i m) as (Eamount & Ecarrier & Ereleased & Everified).
  cbv zeta in Eamount, Ecarrier, Ereleased, Everified.
  cbn [completedMilestones set_milestones] in Eamount, Ecarrier, Ereleased, Everified.
  cbn [completedMilestones set_milestones].
  erewrite bind_run; cycle 1.
  { apply release_amount_run; simpl; rewrite len_insert; [lia|exact Hlast]. }
  cbn [fst snd]. rewrite Eamount, Ereleased.
  rewrite (bind_run _ _ s (releasedAmount c + amount_due c i) s); cycle 1.
  { unfold checked_add. apply Z.leb_le in Hsum. by rewrite Hsum. }
  rewrite Ecarrier, Everified.
  rewrite (bind_run _ _ s tt (before_transfer s contractId i m)) by reflexivity.
  unfold bind at 1.
  destruct (transfer (carrier c) (amount_due c i) (before_transfer s contractId i m))
    as [[[] mid]|f]; try reflexivity.
  rewrite (bind_run _ _ mid tt mid) by reflexivity.
  rewrite (bind_run _ _ mid (contract mid contractId) mid) by reflexivity.
  erewrite bind_run by reflexivity.
  unfold bind at 1. unfold index.
  destruct ((0 <=? i) && (i <? len (milestones (contract mid contractId))));
    [|reflexivity].
  destruct (milestones (contract mid contractId) !! Z.to_nat i) as [m'|];
    [|reflexivity].
  unfold ret, emit, after_transfer. simpl. by rewrite <- app_assoc.
Qed.

(** The [require]s of the body, in the order the source checks them. *)

Section VerifyFailures.

Variables (transfer : Z -> Z -> M bool) (sender contractId i : Z) (qr : list byte).
Variable s : State.

Let c := contract s contractId.
Let body := verifyMilestone_body keccak256 transfer sender contractId i qr.

Lemma body_invalid_status :
  status c <> ACTIVE -> body s = Revert (Error "Invalid status").
Proof.
  intros Hst. unfold body, verifyMilestone_body.
  rewrite (bind_run _ _ s c s) by reflexivity.
  apply Status_eqb_neq in Hst. rewrite Hst. reflexivity.
Qed.

Lemma body_invalid_milestone :
  status c = ACTIVE -> len (milestones c) <= i ->
  body s = Revert (Error "Invalid milestone").
Proof.
  intros Hst Hi. unfold body, verifyMilestone_body.
  rewrite (bind_run _ _ s c s) by reflexivity.
  apply Status_eqb_eq in Hst. rewrite Hst.
  rewrite (bind_run _ _ s tt s) by reflexivity.
  apply Z.ltb_ge in Hi. rewrite Hi. reflexivity.
Qed.

Lemma body_out_of_order :
  status c = ACTIVE -> i < len (milestones c) -> i <> completedMilestones c ->
  body s = Revert (Error "Out of order").
Proof.
  intros Hst Hi Hord. unfold body, verifyMilestone_body.
  rewrite (bind_run _ _ s c s) by reflexivity.
  apply Status_eqb_eq in Hst. rewrite Hst.
  rewrite (bind_run _ _ s tt s) by reflexivity.
  apply Z.ltb_lt in Hi. rewrite Hi.
  rewrite (bind_run _ _ s tt s) by reflexivity.
  apply Z.eqb_neq in Hord. rewrite Hord. reflexivity.
Qed.

Variable m : Milestone.
Hypothesis Hst : status c = ACTIVE.
Hypothesis Hi : 0 <= i < len (milestones c).
Hypothesis Hord : i = completedMilestones c.
Hypothesis Hm : milestones c !! Z.to_nat i = Some m.


Lemma body_already_verified :
  completed m = true -> body s = Revert (Error "Already verified").
Proof.
  intros Hdone. unfold body, verifyMilestone_body.
  rewrite (bind_run _ _ s c s) by reflexivity.
  apply Status_eqb_eq in Hst. rewrite Hst.
  assert ((i <? len (milestones c)) = true) as -> by (apply Z.ltb_lt; lia).
  assert ((i =? completedMilestones c) = true) as -> by (apply Z.eqb_eq; lia).
  do 3 rewrite (bind_run _ _ s tt s) by reflexivity.
  rewrite (bind_run _ _ s m s) by (apply index_lookup; [lia|assumption]).
  rewrite Hdone. reflexivity.
Qed.

Lemma body_not_authorized :
  completed m = false -> verifier m <> sender ->
  body s = Revert (Error "Not authorized").
Proof.
  intros Hdone Hver. unfold body, verifyMilestone_body.
  rewrite (bind_run _ _ s c s) by reflexivity.
  apply Status_eqb_eq in Hst. rewrite Hst.
  assert ((i <? len (milestones c)) = true) as -> by (apply Z.ltb_lt; lia).
  assert ((i =? completedMilestones c) = true) as -> by (apply Z.eqb_eq; lia).
  do 3 rewrite (bind_run _ _ s tt s) by reflexivity.
  rewrite (bind_run _ _ s m s) by (apply index_lookup; [lia|assumption]).
  rewrite Hdone. simpl negb.
  rewrite (bind_run _ _ s tt s) by reflexivity.
  apply Z.eqb_neq in Hver. rewrite Hver. reflexivity.
Qed.

Lemma body_invalid_qr :
  completed m = false -> verifier m = sender ->
  commitment_ok keccak256 qr m = false ->
  body s = Revert (Error "Invalid QR code").
Proof.
  intros Hdone Hver Hqr. unfold body, verifyMilestone_body.
  rewrite (bind_run _ _ s c s) by reflexivity.
  apply Status_eqb_eq in Hst. rewrite Hst.
  assert ((i <? len (milestones c)) = true) as -> by (apply Z.ltb_lt; lia).
  assert ((i =? completedMilestones c) = true) as -> by (apply Z.eqb_eq; lia).
  do 3 rewrite (bind_run _ _ s tt s) by reflexivity.
  rewrite (bind_run _ _ s m s) by (apply index_lookup; [lia|assumption]).
  rewrite Hdone. simpl negb.
  rewrite (bind_run _ _ s tt s) by reflexivity.
  apply Z.eqb_eq in Hver. rewrite Hver.
  rewrite (bind_run _ _ s tt s) by reflexivity.
  rewrite Hqr. reflexivity.
Qed.

End VerifyFailures.

(** ** The reentrancy guard *)

Lemma nonReentrant_entered {A} (body : M A) s :
  entered s = true -> nonReentrant body s = Revert ReentrancyGuardReentrantCall.
Proof. unfold nonReentrant. by intros ->. Qed.

Lemma nonReentrant_run {A} (body : M A) s :
  entered s = false ->
  nonReentrant body s =
  match body (lock s) with
  | Ok (a, s') => Ok (a, unlock s')
  | Revert f => Revert f
  end.
Proof. unfold nonReentrant. by intros ->. Qed.

(** ** Preservation of the store invariant *)

Lemma record_ok_verified contractId c i m :
  record_ok keccak256 contractId c ->
  status c = ACTIVE -> 0 <= i < len (milestones c) -> i = completedMilestones c ->
  milestones c !! Z.to_nat i = Some m ->
  record_ok keccak256 contractId (verified c i m).
Proof.
  intros [Hp Hn Hc Hcomp Hrun Hcre Hms] Hst Hi Hord Hm.
  destruct Hrun as [Hlt Hrel]; [congruence|].
  unfold verified, amount_due, release_rule.
  constructor; simpl; rewrite ?len_insert.
  - assumption.
  - assumption.
  - lia.
  - destruct (Z.eqb_spec i (len (milestones c) - 1)); [|congruence].
    intros _. split; lia.
  - destruct (Z.eqb_spec i (len (milestones c) - 1)); [congruence|].
    intros _. split; [lia|]. rewrite Hrel. lia.
  - destruct (Z.eqb_spec i (len (milestones c) - 1)); congruence.
  - intros j m0 Hj.
    destruct (decide (Z.to_nat i = j)) as [<-|Hne].
    + rewrite list_lookup_insert_eq in Hj by (apply lookup_lt_Some in Hm; lia).
      injection Hj as <-. destruct (Hms _ _ Hm) as [_ Hhash].
      split; simpl; [|exact Hhash].
      symmetry. apply bool_decide_eq_true. lia.
    + rewrite list_lookup_insert_ne in Hj by assumption.
      destruct (Hms _ _ Hj) as [Hdone Hhash]. split; [|exact Hhash].
      rewrite Hdone. apply bool_decide_ext. lia.
Qed.

Lemma store_ok_frame s e l t :
  store_ok keccak256 s ->
  store_ok keccak256 (mkState (contracts s) (nextContractId s) e l t).
Proof. intros [Hn Hr Hb]. constructor; assumption. Qed.

Lemma store_ok_update s contractId c' e l t :
  store_ok keccak256 s ->
  0 <= contractId < nextContractId s ->
  record_ok keccak256 contractId c' ->
  store_ok keccak256
    (mkState (<[contractId := c']> (contracts s)) (nextContractId s) e l t).
Proof.
  intros [Hn Hr Hb] Hid Hc'. constructor; simpl.
  - assumption.
  - intros j Hj. rewrite contract_sstore. case_decide; [by subst|]. by apply Hr.
  - intros j Hj. rewrite contract_sstore. case_decide; [subst; lia|]. by apply Hb.
Qed.

Lemma new_milestones_length contractId locations verifiers :
  length locations = length verifiers ->
  length (new_milestones keccak256 contractId locations verifiers) = length locations.
Proof.
  revert verifiers. induction locations as [|l ls IH]; intros [|v vs]; simpl;
    try discriminate; auto.
Qed.

Lemma new_milestones_lookup contractId locations verifiers j m :
  new_milestones keccak256 contractId locations verifiers !! j = Some m ->
  completed m = false /\
  qrHash m = keccak256 (encodePacked contractId (location m) (verifier m)) /\
  locations !! j = Some (location m) /\ verifiers !! j = Some (verifier m).
Proof.
  revert verifiers j. induction locations as [|l ls IH]; intros [|v vs] j; simpl;
    try discriminate.
  destruct j as [|j]; simpl.
  - intros [= <-]. auto.
  - apply IH.
Qed.

Lemma blank_set_status c st : blank c -> blank (set_status c st).
Proof. unfold blank. intros ->. reflexivity. Qed.

Lemma quiet_step_refl s : quiet_step s s.
Proof.
  unfold quiet_step. repeat split; auto; try lia.
  exists []. rewrite app_nil_r. repeat split; auto.
  rewrite seqZ_nil by lia. reflexivity.
Qed.

Lemma quiet_step_released s1 s2 contractId :
  quiet_step s1 s2 ->
  released_total contractId (events s2) = released_total contractId (events s1).
Proof.
  intros (_ & _ & _ & _ & evs & -> & Hz & _). rewrite released_total_app, Hz. lia.
Qed.

Lemma quiet_step_trans s1 s2 s3 :
  quiet_step s1 s2 -> quiet_step s2 s3 -> quiet_step s1 s3.
Proof.
  intros (He & Hn & Hc & Hr & evs & Hl & Hz & Hids)
         (He' & Hn' & Hc' & Hr' & evs' & Hl' & Hz' & Hids').
  unfold quiet_step. split; [|split; [|split; [|split]]].
  - congruence.
  - lia.
  - intros j Hj.
    destruct (Hc j Hj) as [E|[Hst E]];
      (destruct (Hc' j) as [E'|[Hst' E']]; [lia| |]).
    + left. congruence.
    + right. rewrite E', E. rewrite E in Hst'. auto.
    + right. rewrite E'. auto.
    + rewrite E in Hst'. simpl in Hst'. discriminate.
  - intros j. rewrite Hr'. apply Hr.
  - exists (evs ++ evs'). split; [|split].
    + rewrite Hl', Hl. by rewrite app_assoc.
    + intros j. rewrite released_total_app, Hz, Hz'. lia.
    + rewrite created_ids_app, Hids, Hids'.
      replace (nextContractId s3 - nextContractId s1)
        with ((nextContractId s2 - nextContractId s1) +
              (nextContractId s3 - nextContractId s2)) by lia.
      rewrite seqZ_app by lia. do 2 f_equal. lia.
Qed.

Lemma createContract_step sender value carrier_ recipient_ locations verifiers s r s' :
  store_ok keccak256 s ->
  createContract keccak256 sender value carrier_ recipient_ locations verifiers s
    = Ok (r, s') ->
  store_ok keccak256 s' /\ quiet_step s s' /\
  contract s' r =
    mkContract sender carrier_ recipient_ value 0 CREATED
               (new_milestones keccak256 r locations verifiers) 0.
Proof.
  intros Hs H. pose proof Hs as [Hn Hr Hb].
  apply createContract_Ok in H as ((Hv & Hc & Hre & Hl & Hlv & Hmax) & -> & ->).
  assert (blank (contract s (nextContractId s))) as Hblank by (apply Hb; lia).
  rewrite Hblank. simpl.
  split; [|split].
  - constructor; simpl.
    + lia.
    + intros j Hj. rewrite contract_sstore. case_decide as Hd.
      * subst j. constructor; simpl.
        -- assumption.
        -- unfold len in *. rewrite new_milestones_length; lia.
        -- unfold len in *. rewrite new_milestones_length; lia.
        -- discriminate.
        -- intros _. unfold len in *. rewrite new_milestones_length; lia.
        -- reflexivity.
        -- intros k m Hk. apply new_milestones_lookup in Hk as (Hdone & Hhash & _).
           split; [|exact Hhash]. rewrite Hdone. symmetry.
           apply bool_decide_eq_false. lia.
      * apply Hr. lia.
    + intros j Hj. rewrite contract_sstore. case_decide; [lia|]. apply Hb. lia.
  - unfold quiet_step; simpl. split; [|split; [|split; [|split]]].
    + reflexivity.
    + lia.
    + intros j Hj. rewrite contract_sstore. case_decide; [lia|]. by left.
    + intros j. rewrite contract_sstore. case_decide; [|reflexivity].
      subst j. by rewrite Hblank.
    + eexists. split; [reflexivity|]. split; [intros j; reflexivity|].
      replace (nextContractId s + 1 - nextContractId s) with 1 by lia.
      reflexivity.
  - rewrite contract_sstore. case_decide; [reflexivity|congruence].
Qed.

Lemma acceptContract_Ok sender contractId s u s' :
  acceptContract sender contractId s = Ok (u, s') ->
  carrier (contract s contractId) = sender /\
  status (contract s contractId) = CREATED /\
  s' = mkState (<[contractId := set_status (contract s contractId) ACTIVE]> (contracts s))
               (nextContractId s) (entered s)
               (events s ++ [ContractAccepted contractId sender]) (transfers s).
Proof.
  intros H. unfold acceptContract in H. monad_inv H.
  match goal with H : (_ =? _) = true |- _ => apply Z.eqb_eq in H end.
  match goal with H : Status_eqb _ _ = true |- _ => apply Status_eqb_eq in H end.
  auto.
Qed.

Lemma acceptContract_step sender contractId s u s' :
  store_ok keccak256 s ->
  acceptContract sender contractId s = Ok (u, s') ->
  store_ok keccak256 s' /\ quiet_step s s'.
Proof.
  intros Hs H. pose proof Hs as [Hn Hr Hb].
  apply acceptContract_Ok in H as (Hc & Hst & ->).
  split.
  - constructor; simpl.
    + assumption.
    + intros j Hj. rewrite contract_sstore. case_decide; [|by apply Hr].
      subst j. destruct (Hr _ Hj) as [? ? ? ? Hrun Hcre ?].
      constructor; simpl; auto; try discriminate.
      intros _. apply Hrun. congruence.
    + intros j Hj. rewrite contract_sstore. case_decide; [|by apply Hb].
      subst j. apply blank_set_status. by apply Hb.
  - unfold quiet_step; simpl. split; [|split; [|split; [|split]]].
    + reflexivity.
    + lia.
    + intros j Hj. rewrite contract_sstore. case_decide; [|by left].
      subst j. right. auto.
    + intros j. rewrite contract_sstore. case_decide; [|reflexivity]. by subst.
    + eexists. split; [reflexivity|]. split; [intros j; reflexivity|].
      rewrite seqZ_nil by lia. reflexivity.
Qed.

(** ** Calls made by the callee during a transfer *)

Lemma inner_call_step s call :
  store_ok keccak256 s -> entered s = true ->
  store_ok keccak256 (inner_call keccak256 s call) /\
  quiet_step s (inner_call keccak256 s call).
Proof.
  intros Hs Hent. unfold inner_call, commit.
  destruct (dispatch keccak256 (fun _ _ => ret false) call s) as [[u s']|f] eqn:E;
    [|split; [assumption|apply quiet_step_refl]].
  destruct call as [sender value ca re ls vs|sender contractId|sender contractId i qr];
    simpl in E.
  - apply bind_Ok in E as (r & s1 & Hcreate & Hret).
    apply ret_Ok in Hret as [_ ->].
    apply createContract_step in Hcreate as (? & ? & _); auto.
  - by apply acceptContract_step in E.
  - unfold verifyMilestone in E. rewrite nonReentrant_entered in E by assumption.
    discriminate.
Qed.

Lemma inner_calls_step calls s :
  store_ok keccak256 s -> entered s = true ->
  store_ok keccak256 (fold_left (inner_call keccak256) calls s) /\
  quiet_step s (fold_left (inner_call keccak256) calls s).
Proof.
  revert s. induction calls as [|call calls IH]; intros s Hs Hent; simpl.
  - split; [assumption|apply quiet_step_refl].
  - destruct (inner_call_step s call Hs Hent) as [Hs1 Hq1].
    destruct (IH _ Hs1) as [Hs2 Hq2].
    + destruct Hq1 as (-> & _). assumption.
    + split; [assumption|]. eapply quiet_step_trans; eassumption.
Qed.

Lemma quiet_step_created_ids s s' :
  0 <= nextContractId s -> quiet_step s s' ->
  created_ids (events s) = seqZ 0 (nextContractId s) ->
  created_ids (events s') = seqZ 0 (nextContractId s').
Proof.
  intros Hn (_ & Hle & _ & _ & evs & -> & _ & Hids) Hlog.
  rewrite created_ids_app, Hlog, Hids.
  replace (nextContractId s') with
    (nextContractId s + (nextContractId s' - nextContractId s)) at 2 by lia.
  by rewrite seqZ_app by lia.
Qed.

Lemma quiet_step_log_ok s s' :
  0 <= nextContractId s -> quiet_step s s' -> log_ok s -> log_ok s'.
Proof.
  intros Hn Hq [Hlog Hids]. split.
  - intros j. rewrite (quiet_step_released _ _ _ Hq).
    destruct Hq as (_ & _ & _ & Hr & _). rewrite Hr. apply Hlog.
  - by apply (quiet_step_created_ids s).
Qed.

(** ** A successful top-level verifyMilestone *)

Lemma guards_in_registry s sender contractId i qr m :
  store_ok keccak256 s ->
  verify_guards keccak256 s sender contractId i qr m ->
  0 <= contractId < nextContractId s.
Proof.
  intros [_ _ Hb] (_ & Hi & _).
  destruct (decide (0 <= contractId < nextContractId s)) as [|Hout]; [assumption|].
  apply Hb in Hout. rewrite Hout in Hi. simpl in Hi. unfold len in Hi. simpl in Hi. lia.
Qed.

Lemma status_verified c i m :
  status c = ACTIVE -> status (verified c i m) <> CREATED.
Proof.
  intros Hst. unfold verified; simpl.
  destruct (i =? len (milestones c) - 1); congruence.
Qed.

Lemma verify_tx sender contractId i qr k s u s' :
  invariant keccak256 s ->
  run keccak256 (mkTx (VerifyMilestone sender contractId i qr) k) s = Ok (u, s') ->
  exists m mid,
    verify_guards keccak256 s sender contractId i qr m /\
    0 <= contractId < nextContractId s /\
    sent k = true /\
    mid = fold_left (inner_call keccak256) (reenter k)
            (at_transfer (lock s) contractId i m) /\
    quiet_step (at_transfer (lock s) contractId i m) mid /\
    contract s' contractId = verified (contract s contractId) i m /\
    s' = unlock (after_transfer (lock s) mid sender contractId i (set_completed m)) /\
    invariant keccak256 s'.
Proof.
  intros (Hs & [Hlog Hids] & Hent) H.
  unfold run in H; simpl in H. unfold verifyMilestone in H.
  rewrite nonReentrant_run in H by assumption.
  destruct (verifyMilestone_body _ _ _ _ _ _ _) as [[u0 s0]|f] eqn:Hbody;
    [|discriminate].
  injection H as _ <-.
  apply verifyMilestone_body_Ok in Hbody as (m & mid & m' & Hg & Hcall & Hm' & ->).
  change (verify_guards keccak256 s sender contractId i qr m) in Hg.
  change (contract (lock s) contractId) with (contract s contractId) in Hcall.
  pose proof (guards_in_registry _ _ _ _ _ _ Hs Hg) as Hid.
  pose proof Hg as (Hst & Hi & Hord & Hm & _).
  unfold carrier_call in Hcall. destruct (sent k) eqn:Hsent; [|discriminate].
  injection Hcall as Hmid. symmetry in Hmid.
  change (pay _ _ (before_transfer (lock s) contractId i m))
    with (at_transfer (lock s) contractId i m) in Hmid.
  assert (store_ok keccak256 (at_transfer (lock s) contractId i m)) as Hat.
  { apply (store_ok_update s); [assumption..|].
    apply record_ok_verified; auto. by apply Hs. }
  destruct (inner_calls_step (reenter k) _ Hat eq_refl) as [Hsmid Hq].
  rewrite <- Hmid in Hsmid, Hq.
  assert (contract mid contractId = verified (contract s contractId) i m) as Hrec.
  { destruct Hq as (_ & _ & Hc & _).
    destruct (Hc contractId Hid) as [E|[Hcre _]].
    - rewrite E. unfold at_transfer. rewrite contract_sstore. by case_decide.
    - exfalso. unfold at_transfer in Hcre. rewrite contract_sstore in Hcre.
      case_decide; [|congruence]. by apply status_verified in Hcre. }
  assert (m' = set_completed m) as ->.
  { rewrite Hrec in Hm'. unfold verified in Hm'; simpl in Hm'.
    rewrite list_lookup_insert_eq in Hm' by (apply lookup_lt_Some in Hm; lia).
    congruence. }
  exists m, mid. do 7 (split; [first [assumption | reflexivity]|]).
  split; [|split; [split|reflexivity]]; cycle 2.
  { unfold unlock, after_transfer; simpl. rewrite created_ids_app; simpl.
    rewrite app_nil_r. apply (quiet_step_created_ids _ _ (ok_next _ _ Hat) Hq).
    exact Hids. }
  - apply (store_ok_frame mid). assumption.
  - intros j. unfold unlock, after_transfer; simpl.
    change (contract (mkState (contracts mid) _ _ _ _) j) with (contract mid j).
    rewrite released_total_app, (quiet_step_released _ _ j Hq). simpl.
    destruct Hq as (_ & _ & _ & Hr & _). rewrite Hr.
    unfold at_transfer; simpl. rewrite contract_sstore.
    change (contract (mkState (contracts s) _ _ _ _) j) with (contract s j).
    rewrite (Hlog j).
    destruct (Z.eqb_spec contractId j) as [->|Hne]; case_decide; try congruence.
    + change (contract (lock s) j) with (contract s j).
      unfold verified; simpl. lia.
    + lia.
Qed.

(** ** Transactions *)

(** What one transaction does to a record of the registry. *)
Lemma transact_record s tx contractId :
  invariant keccak256 s ->
  0 <= contractId < nextContractId s ->
  let c := contract s contractId in
  let c' := contract (transact keccak256 s tx) contractId in
  c' = c \/
  (status c = CREATED /\ c' = set_status c ACTIVE) \/
  (exists sender i qr m,
      tx_call tx = VerifyMilestone sender contractId i qr /\
      verify_guards keccak256 s sender contractId i qr m /\
      c' = verified c i m).
Proof.
  intros Hinv Hid c c'. subst c c'. unfold transact, commit.
  destruct (run keccak256 tx s) as [[u s']|f] eqn:E; [|by left].
  destruct tx as [[sender value ca re ls vs|sender id|sender id i qr] k].
  - unfold run in E; simpl in E.
    apply bind_Ok in E as (r & s1 & Hcreate & Hret). apply ret_Ok in Hret as [_ ->].
    apply createContract_step in Hcreate as (_ & (_ & _ & Hc & _) & _);
      [|apply Hinv].
    destruct (Hc contractId Hid) as [?|?]; auto.
  - unfold run in E; simpl in E.
    apply acceptContract_step in E as (_ & (_ & _ & Hc & _)); [|apply Hinv].
    destruct (Hc contractId Hid) as [?|?]; auto.
  - apply verify_tx in E as (m & mid & Hg & _ & _ & _ & Hq & Hrec & -> & _);
      [|assumption].
    destruct (decide (id = contractId)) as [->|Hne].
    + right; right. exists sender, i, qr, m. auto.
    + destruct Hq as (_ & _ & Hc & _).
      change (contract (unlock _) contractId) with (contract mid contractId).
      destruct (Hc contractId) as [E|[Hst E]].
      * simpl. exact Hid.
      * left. rewrite E. unfold at_transfer. rewrite contract_sstore.
        by case_decide.
      * unfold at_transfer in Hst, E. rewrite contract_sstore in Hst, E.
        case_decide; [congruence|]. right; left. auto.
Qed.

Lemma transact_invariant s tx :
  invariant keccak256 s -> invariant keccak256 (transact keccak256 s tx).
Proof.
  intros Hinv. unfold transact, commit.
  destruct (run keccak256 tx s) as [[u s']|f] eqn:E; [|assumption].
  destruct tx as [[sender value ca re ls vs|sender id|sender id i qr] k].
  - unfold run in E; simpl in E.
    apply bind_Ok in E as (r & s1 & Hcreate & Hret). apply ret_Ok in Hret as [_ ->].
    destruct Hinv as (Hs & Hlog & Hent).
    apply createContract_step in Hcreate as (Hs' & Hq & _); [|assumption].
    split; [assumption|].
    split; [by eapply quiet_step_log_ok; [apply Hs|..]|].
    destruct Hq as (-> & _). assumption.
  - unfold run in E; simpl in E.
    destruct Hinv as (Hs & Hlog & Hent).
    apply acceptContract_step in E as (Hs' & Hq); [|assumption].
    split; [assumption|].
    split; [by eapply quiet_step_log_ok; [apply Hs|..]|].
    destruct Hq as (-> & _). assumption.
  - apply verify_tx in E as (m & mid & _ & _ & _ & _ & _ & _ & _ & Hinv');
      assumption.
Qed.

Lemma invariant_initial : invariant keccak256 initial.
Proof.
  split; [|split]; [|split; [intros j; reflexivity|reflexivity]|reflexivity].
  constructor; simpl.
  - lia.
  - intros j Hj. lia.
  - intros j _. reflexivity.
Qed.

Lemma run_all_snoc txs tx :
  run_all keccak256 (txs ++ [tx]) = transact keccak256 (run_all keccak256 txs) tx.
Proof. unfold run_all. by rewrite fold_left_app. Qed.

Lemma reachable_invariant s : reachable keccak256 s -> invariant keccak256 s.
Proof.
  intros [txs ->]. induction txs as [|tx txs IH] using rev_ind.
  - apply invariant_initial.
  - rewrite run_all_snoc. by apply transact_invariant.
Qed.

Lemma reachable_transact s tx :
  reachable keccak256 s -> reachable keccak256 (transact keccak256 s tx).
Proof. intros [txs ->]. exists (txs ++ [tx]). by rewrite run_all_snoc. Qed.

Lemma transact_next s tx :
  invariant keccak256 s ->
  nextContractId s <= nextContractId (transact keccak256 s tx).
Proof.
  intros Hinv. unfold transact, commit.
  destruct (run keccak256 tx s) as [[u s']|f] eqn:E; [|lia].
  destruct tx as [[sender value ca re ls vs|sender id|sender id i qr] k].
  - unfold run in E; simpl in E.
    apply bind_Ok in E as (r & s1 & Hcreate & Hret). apply ret_Ok in Hret as [_ ->].
    apply createContract_step in Hcreate as (_ & (_ & Hn & _) & _); [|apply Hinv].
    exact Hn.
  - unfold run in E; simpl in E.
    apply acceptContract_step in E as (_ & (_ & Hn & _)); [|apply Hinv]. exact Hn.
  - apply verify_tx in E as (m & mid & _ & _ & _ & _ & (_ & Hn & _) & _ & -> & _);
      [|assumption].
    exact Hn.
Qed.

Lemma record_ok_escrow_bound contractId c :
  record_ok keccak256 contractId c -> escrow_bound c.
Proof.
  intros [Hp Hn Hc Hcomp Hrun _ _]. unfold escrow_bound.
  destruct (decide (status c = COMPLETED)) as [Hst|Hst].
  - destruct (Hcomp Hst) as [_ ->]. split; [lia|]. split; auto.
  - destruct (Hrun Hst) as [Hlt Hrel].
    pose proof (Z.mul_div_le (payment c) (len (milestones c)) Hn) as Hmul.
    pose proof (Z.div_pos (payment c) (len (milestones c))) as Hq.
    assert (0 <= payment c / len (milestones c)) as Hq' by (apply Hq; lia).
    assert (releasedAmount c < payment c) as Hless.
    { rewrite Hrel.
      destruct (decide (payment c / len (milestones c) = 0)) as [->|Hnz]; [lia|].
      nia. }
    split; [lia|]. split; [lia|contradiction].
Qed.

(** ** The happy path *)

Lemma record_at_transfer s sender contractId i qr m calls :
  store_ok keccak256 s ->
  verify_guards keccak256 s sender contractId i qr m ->
  contract (fold_left (inner_call keccak256) calls
              (at_transfer (lock s) contractId i m)) contractId
  = verified (contract s contractId) i m.
Proof.
  intros Hs Hg.
  pose proof (guards_in_registry _ _ _ _ _ _ Hs Hg) as Hid.
  pose proof Hg as (Hst & Hi & Hord & Hm & _).
  assert (store_ok keccak256 (at_transfer (lock s) contractId i m)) as Hat.
  { apply (store_ok_update s); [assumption..|].
    apply record_ok_verified; auto. by apply Hs. }
  destruct (inner_calls_step calls _ Hat eq_refl) as [_ (_ & _ & Hc & _)].
  destruct (Hc contractId Hid) as [E|[Hcre _]].
  - rewrite E. unfold at_transfer. rewrite contract_sstore. by case_decide.
  - exfalso. unfold at_transfer in Hcre. rewrite contract_sstore in Hcre.
    case_decide; [|congruence]. by apply status_verified in Hcre.
Qed.

(** X1.  In a reachable state the verifier of the next milestone of an
    ACTIVE contract, presenting bytes that hash to its commitment, gets the
    milestone verified whenever the carrier accepts the transfer.  The
    payment and the number of milestones are [uint256] values. *)
Theorem verifyMilestone_succeeds s sender contractId i qr m k :
  reachable keccak256 s ->
  let c := contract s contractId in
  payment c <= uint256_max -> len (milestones c) <= uint256_max ->
  status c = ACTIVE -> i = completedMilestones c ->
  milestones c !! Z.to_nat i = Some m ->
  verifier m = sender -> keccak256 qr = qrHash m -> sent k = true ->
  exists s', run keccak256 (mkTx (VerifyMilestone sender contractId i qr) k) s
             = Ok (tt, s').
Proof.
  intros Hreach c Hpmax Hnmax Hst Hord Hm Hver Hqr Hsent.
  apply reachable_invariant in Hreach as (Hs & _ & Hent).
  pose proof Hs as [_ Hr Hb].
  assert (0 <= contractId < nextContractId s) as Hid.
  { destruct (decide (0 <= contractId < nextContractId s)) as [|Hid]; [assumption|].
    specialize (Hb _ Hid). fold c in Hb. rewrite Hb in Hm. discriminate. }
  pose proof (record_ok_escrow_bound _ _ (Hr _ Hid)) as [Hle _]. fold c in Hle.
  destruct (Hr _ Hid) as [Hp Hn Hc _ Hrun _ Hms].
  fold c in Hp, Hn, Hc, Hrun, Hms.
  destruct Hrun as [Hlt Hrel]; [congruence|].
  destruct (Hms _ _ Hm) as [Hflag _].
  assert (verify_guards keccak256 s sender contractId i qr m) as Hg.
  { unfold verify_guards. fold c.
    split; [assumption|]. split; [lia|]. split; [assumption|].
    split; [assumption|]. split.
    { rewrite Hflag. apply bool_decide_eq_false. lia. }
    split; [assumption|]. split; [unfold commitment_ok; by apply Z.eqb_eq|].
    split; [lia|]. split; [intros _; assumption|].
    unfold amount_due, release_rule.
    destruct (Z.eqb_spec i (len (milestones c) - 1)); [lia|].
    pose proof (Z.mul_div_le (payment c) (len (milestones c)) Hn).
    assert (0 <= payment c / len (milestones c)) by (apply Z.div_pos; lia).
    rewrite Hrel. nia. }
  unfold run; simpl. unfold verifyMilestone.
  rewrite nonReentrant_run by assumption.
  rewrite (verifyMilestone_body_run _ _ _ _ _ (lock s) m Hg).
  unfold carrier_call at 1. rewrite Hsent.
  change (pay _ _ (before_transfer (lock s) contractId i m))
    with (at_transfer (lock s) contractId i m).
  rewrite (record_at_transfer s sender contractId i qr m (reenter k) Hs Hg).
  rewrite (index_lookup _ _ (set_completed m)).
  - eauto.
  - lia.
  - unfold verified; simpl. apply list_lookup_insert_eq.
    unfold c in Hm. apply lookup_lt_Some in Hm. lia.
Qed.

(** * Properties of the design document *)

(** C7.  [acceptContract] succeeds exactly when the record is CREATED and the
    caller is its carrier; it then sets the status to ACTIVE, emits
    [ContractAccepted] and changes nothing else.  Any other caller is
    refused with "Not the carrier" (an authorization error); the carrier in
    any other status is refused with "Invalid status" (a state error); a
    refused call leaves the state as it was. *)
Theorem acceptContract_spec (msg_sender contractId : Z) (s : State) :
  let c := contract s contractId in
  let call := acceptContract msg_sender contractId in
  ((exists s', call s = Ok (tt, s')) <->
   status c = CREATED /\ msg_sender = carrier c) /\
  (forall s',
      call s = Ok (tt, s') ->
      contracts s' =
        <[contractId := mkContract (shipper c) (carrier c) (recipient c) (payment c)
                          (releasedAmount c) ACTIVE (milestones c)
                          (completedMilestones c)]> (contracts s) /\
      status (contract s' contractId) = ACTIVE /\
      (forall j, j <> contractId -> contract s' j = contract s j) /\
      nextContractId s' = nextContractId s /\
      entered s' = entered s /\
      events s' = events s ++ [ContractAccepted contractId msg_sender]) /\
  (msg_sender <> carrier c ->
   call s = Revert (Error "Not the carrier") /\
   fails_with in_acceptContract AuthorizationError call s /\
   commit call s = s) /\
  (msg_sender = carrier c -> status c <> CREATED ->
   call s = Revert (Error "Invalid status") /\
   fails_with in_acceptContract StateError call s /\
   commit call s = s).
Proof.
  intros c call.
  assert (forall s', call s = Ok (tt, s') ->
                     carrier c = msg_sender /\ status c = CREATED /\
                     s' = mkState (<[contractId := set_status c ACTIVE]> (contracts s))
                                  (nextContractId s) (entered s)
                                  (events s ++ [ContractAccepted contractId msg_sender])
                                  (transfers s))
    as Hinv by (intros s'; apply acceptContract_Ok).
  assert (msg_sender <> carrier c -> call s = Revert (Error "Not the carrier")) as Hauth.
  { intros Hne. unfold call, acceptContract.
    rewrite (bind_run _ _ s c s) by reflexivity.
    assert ((carrier c =? msg_sender) = false) as -> by (apply Z.eqb_neq; congruence).
    reflexivity. }
  assert (msg_sender = carrier c -> status c <> CREATED ->
          call s = Revert (Error "Invalid status")) as Hstate.
  { intros He Hst. unfold call, acceptContract.
    rewrite (bind_run _ _ s c s) by reflexivity.
    assert ((carrier c =? msg_sender) = true) as -> by (apply Z.eqb_eq; congruence).
    rewrite (bind_run _ _ s tt s) by reflexivity.
    apply Status_eqb_neq in Hst. rewrite Hst. reflexivity. }
  split; [|split; [|split]].
  - split.
    + intros [s' Hok]. apply Hinv in Hok as (? & ? & _). auto.
    + intros [Hst He]. unfold call, acceptContract.
      rewrite (bind_run _ _ s c s) by reflexivity.
      assert ((carrier c =? msg_sender) = true) as -> by (apply Z.eqb_eq; congruence).
      rewrite (bind_run _ _ s tt s) by reflexivity.
      apply Status_eqb_eq in Hst. rewrite Hst.
      rewrite (bind_run _ _ s tt s) by reflexivity.
      unfold bind, sstore, emit. eauto.
  - intros s' Hok. apply Hinv in Hok as (_ & _ & ->). simpl.
    repeat split.
    + rewrite contract_sstore. by case_decide.
    + intros j Hj. rewrite contract_sstore. case_decide; [congruence|reflexivity].
  - intros Hne. specialize (Hauth Hne). split; [assumption|]. split.
    + exists (Error "Not the carrier"). split; [assumption|reflexivity].
    + unfold commit. by rewrite Hauth.
  - intros He Hst. specialize (Hstate He Hst). split; [assumption|]. split.
    + exists (Error "Invalid status"). split; [assumption|reflexivity].
    + unfold commit. by rewrite Hstate.
Qed.

(** C8.  [createContract] is refused with a validation error, and leaves the
    state as it was, when the escrow is not positive, the carrier or the
    recipient is the zero address, there is no location, or the two arrays
    differ in length.  In every other case it succeeds, as long as the
    identifier counter has not reached the end of [uint256].  When it
    succeeds in a reachable state it returns the
    current [nextContractId] and advances it by one, so that the identifiers
    created so far are 0, 1, 2, ... in the order of creation; it stores a
    record with status CREATED, nothing released, one milestone per location
    and no milestone completed; no other record changes. *)
Theorem createContract_spec (msg_sender msg_value carrier_ recipient_ : Z)
        (locations : list string) (verifiers : list Z) (s : State) :
  let call := createContract keccak256 msg_sender msg_value carrier_ recipient_
                             locations verifiers in
  (msg_value <= 0 \/ carrier_ = 0 \/ recipient_ = 0 \/ locations = [] \/
   len locations <> len verifiers ->
   fails_with in_createContract ValidationError call s /\ commit call s = s) /\
  (reachable keccak256 s ->
   forall contractId s',
     call s = Ok (contractId, s') ->
     let c := contract s' contractId in
     contractId = nextContractId s /\
     nextContractId s' = contractId + 1 /\
     created_ids (events s) = seqZ 0 contractId /\
     created_ids (events s') = created_ids (events s) ++ [contractId] /\
     status c = CREATED /\
     releasedAmount c = 0 /\
     len (milestones c) = len locations /\
     (forall j m, milestones c !! j = Some m -> completed m = false) /\
     completedMilestones c = 0 /\
     payment c = msg_value /\ shipper c = msg_sender /\
     carrier c = carrier_ /\ recipient c = recipient_ /\
     (forall j, j <> contractId -> contract s' j = contract s j)) /\
  (0 < msg_value -> carrier_ <> 0 -> recipient_ <> 0 -> locations <> [] ->
   len locations = len verifiers -> nextContractId s + 1 <= uint256_max ->
   exists s', call s = Ok (nextContractId s, s')).
Proof.
  intros call. split; [|split].
  - intros Hbad.
    destruct (createContract_invalid msg_sender msg_value carrier_ recipient_
                locations verifiers s Hbad) as (reason & Hrev & Hkind).
    split.
    + exists (Error reason). auto.
    + unfold commit. fold call in Hrev. by rewrite Hrev.
  - intros Hreach contractId s' Hok c. subst c.
    apply reachable_invariant in Hreach as (Hs & [_ Hids] & _).
    pose proof (createContract_step _ _ _ _ _ _ _ _ _ Hs Hok) as (_ & _ & Hrec).
    apply createContract_Ok in Hok as ((_ & _ & _ & _ & Hlv & _) & Hid & Hs').
    rewrite Hrec. simpl.
    split; [assumption|]. split; [subst s'; simpl; lia|].
    split; [by rewrite Hid|].
    split; [subst s'; simpl; by rewrite created_ids_app|].
    repeat split.
    + unfold len in *. rewrite new_milestones_length; lia.
    + intros j m Hj. by apply new_milestones_lookup in Hj as (? & _).
    + intros j Hj. subst s'. rewrite contract_sstore.
      case_decide; [congruence|reflexivity].
  - intros Hv Hca Hre Hls Hlv Hnext. apply createContract_succeeds; try assumption.
    destruct locations; [congruence|]. unfold len. simpl. lia.
Qed.

(** C9 as the contract has it.  Both lookups return without changing the
    state.  [getContract] never fails: it returns the fields of the slot,
    which for an identifier that was never created holds zero addresses, no
    payment and no milestone.
    [getMilestone] is refused with "Invalid milestone" (a not-found error)
    when the index is at or beyond the number of milestones, which is every
    index (an unsigned integer) when the identifier was never created;
    otherwise it returns the stored milestone. *)
Theorem lookups_spec (contractId milestoneIndex : Z) (s : State) :
  let c := contract s contractId in
  getContract contractId s =
    Ok ((shipper c, carrier c, recipient c, payment c, status c,
         len (milestones c), completedMilestones c), s) /\
  (forall r s', getMilestone contractId milestoneIndex s = Ok (r, s') -> s' = s) /\
  (len (milestones c) <= milestoneIndex ->
   getMilestone contractId milestoneIndex s = Revert (Error "Invalid milestone") /\
   fails_with in_getMilestone NotFoundError (getMilestone contractId milestoneIndex) s) /\
  (forall m,
      0 <= milestoneIndex -> milestones c !! Z.to_nat milestoneIndex = Some m ->
      getMilestone contractId milestoneIndex s =
        Ok ((location m, verifier m, completed m), s)) /\
  (reachable keccak256 s -> ~ 0 <= contractId < nextContractId s ->
   0 <= milestoneIndex ->
   shipper c = 0 /\ carrier c = 0 /\ recipient c = 0 /\
   len (milestones c) = 0 /\ payment c = 0 /\ completedMilestones c = 0 /\
   fails_with in_getMilestone NotFoundError (getMilestone contractId milestoneIndex) s).
Proof.
  intros c.
  assert (len (milestones c) <= milestoneIndex ->
          getMilestone contractId milestoneIndex s = Revert (Error "Invalid milestone"))
    as Hout.
  { intros Hle. unfold getMilestone.
    rewrite (bind_run _ _ s c s) by reflexivity.
    apply Z.ltb_ge in Hle. rewrite Hle. reflexivity. }
  split; [reflexivity|]. split; [|split; [|split]].
  - intros r s' H. unfold getMilestone in H. monad_inv H. reflexivity.
  - intros Hle. specialize (Hout Hle). split; [assumption|].
    exists (Error "Invalid milestone"). auto.
  - intros m Hi Hm. unfold getMilestone.
    rewrite (bind_run _ _ s c s) by reflexivity.
    assert ((milestoneIndex <? len (milestones c)) = true) as ->.
    { apply Z.ltb_lt. apply lookup_lt_Some in Hm. unfold len. lia. }
    rewrite (bind_run _ _ s tt s) by reflexivity.
    rewrite (bind_run _ _ s m s) by (by apply index_lookup).
    reflexivity.
  - intros Hreach Hid Hi.
    apply reachable_invariant in Hreach as ([_ _ Hb] & _ & _).
    specialize (Hb _ Hid). fold c in Hb.
    assert (len (milestones c) = 0) as Hlen by (by rewrite Hb).
    repeat split; try (by rewrite Hb).
    exists (Error "Invalid milestone"). split; [apply Hout; lia|reflexivity].
Qed.

(** C3.  In every reachable state every record of the registry has released
    at most what was paid in, and has released all of it exactly when its
    status is COMPLETED; this still holds after any further transaction. *)
Theorem escrow_never_exceeded (s : State) :
  reachable keccak256 s ->
  escrow_invariant s /\
  forall tx, escrow_invariant (transact keccak256 s tx).
Proof.
  assert (forall s0, reachable keccak256 s0 -> escrow_invariant s0) as Hall.
  { intros s0 Hreach contractId Hid.
    apply reachable_invariant in Hreach as ([_ Hr _] & _ & _).
    eapply record_ok_escrow_bound. by apply Hr. }
  intros Hreach. split; [by apply Hall|].
  intros tx. apply Hall. by apply reachable_transact.
Qed.

(** C10.  The commitment of a milestone is the hash of the contract
    identifier, the location and the verifier; the milestone's index is not
    hashed.  So two milestones of one contract with the same location and
    the same verifier store the same hash, and the QR check accepts the same
    bytes for both. *)
Theorem equal_commitments (s : State) (contractId : Z) (i j : nat) (mi mj : Milestone) :
  reachable keccak256 s ->
  milestones (contract s contractId) !! i = Some mi ->
  milestones (contract s contractId) !! j = Some mj ->
  location mi = location mj ->
  verifier mi = verifier mj ->
  qrHash mi = keccak256 (encodePacked contractId (location mi) (verifier mi)) /\
  qrHash mi = qrHash mj /\
  forall qrData,
    commitment_ok keccak256 qrData mi = commitment_ok keccak256 qrData mj.
Proof.
  intros Hreach Hi Hj Hloc Hver.
  apply reachable_invariant in Hreach as ([_ Hr Hb] & _ & _).
  destruct (decide (0 <= contractId < nextContractId s)) as [Hid|Hid].
  - destruct (Hr _ Hid) as [_ _ _ _ _ _ Hms].
    destruct (Hms _ _ Hi) as [_ Hhi]. destruct (Hms _ _ Hj) as [_ Hhj].
    assert (qrHash mi = qrHash mj) as Heq by (rewrite Hhi, Hhj; congruence).
    split; [assumption|]. split; [assumption|].
    intros qrData. unfold commitment_ok. by rewrite Heq.
  - specialize (Hb _ Hid). rewrite Hb in Hi. discriminate.
Qed.

Lemma status_rank_mono_step s tx contractId :
  invariant keccak256 s -> 0 <= contractId < nextContractId s ->
  status_rank (status (contract s contractId)) <=
  status_rank (status (contract (transact keccak256 s tx) contractId)).
Proof.
  intros Hinv Hid.
  destruct (transact_record s tx contractId Hinv Hid)
    as [->|[[Hst ->]|(sender & i & qr & m & _ & Hg & ->)]].
  - lia.
  - rewrite Hst. simpl. lia.
  - destruct Hg as (Hst & _). rewrite Hst. unfold verified; simpl.
    rewrite Hst. destruct (i =? _); simpl; lia.
Qed.

Lemma status_rank_mono txs s contractId :
  invariant keccak256 s -> 0 <= contractId < nextContractId s ->
  status_rank (status (contract s contractId)) <=
  status_rank (status (contract (fold_left (transact keccak256) txs s) contractId)).
Proof.
  revert s. induction txs as [|tx txs IH]; intros s Hinv Hid; simpl; [lia|].
  etransitivity; [by apply (status_rank_mono_step s tx)|].
  apply IH.
  - by apply transact_invariant.
  - pose proof (transact_next s tx Hinv). lia.
Qed.

(** C6.  A record of the registry changes status only from CREATED to ACTIVE
    or from ACTIVE to COMPLETED, one step per transaction; the step to
    COMPLETED happens only in a [verifyMilestone] of its last milestone.
    Over any sequence of transactions the status never moves backward, and a
    COMPLETED record stays COMPLETED. *)
Theorem status_lifecycle (s : State) (contractId : Z) :
  reachable keccak256 s ->
  0 <= contractId < nextContractId s ->
  let c := contract s contractId in
  (forall tx,
      let st' := status (contract (transact keccak256 s tx) contractId) in
      st' = status c \/
      (status c = CREATED /\ st' = ACTIVE) \/
      (status c = ACTIVE /\ st' = COMPLETED /\
       exists sender qrData,
         tx_call tx =
         VerifyMilestone sender contractId (len (milestones c) - 1) qrData)) /\
  (forall txs,
      status_rank (status c) <=
      status_rank (status (contract (fold_left (transact keccak256) txs s) contractId))) /\
  (status c = COMPLETED ->
   forall txs,
     status (contract (fold_left (transact keccak256) txs s) contractId) = COMPLETED).
Proof.
  intros Hreach Hid c. apply reachable_invariant in Hreach as Hinv.
  split; [|split].
  - intros tx st'. subst st'.
    destruct (transact_record s tx contractId Hinv Hid)
      as [->|[[Hst ->]|(sender & i & qr & m & Htx & Hg & ->)]].
    + by left.
    + right; left. auto.
    + destruct Hg as (Hst & _). fold c in Hst. unfold verified; simpl. fold c.
      destruct (Z.eqb_spec i (len (milestones c) - 1)) as [->|Hne].
      * right; right. eauto.
      * by left.
  - intros txs. by apply status_rank_mono.
  - intros Hst txs.
    pose proof (status_rank_mono txs s contractId Hinv Hid) as Hle.
    fold c in Hle. rewrite Hst in Hle.
    destruct (status (contract (fold_left _ txs s) contractId)); simpl in Hle;
      [lia|lia|reflexivity].
Qed.

(** C2 as the contract has it.  A [verifyMilestone] whose index is not the
    count of completed milestones, or names a milestone that is already
    completed, always fails and leaves the state as it was, so it releases
    nothing.  The checks run in the order of the source: the failure is
    "Invalid status" (a state error) when the contract is not ACTIVE,
    "Invalid milestone" (a validation error) when it is ACTIVE and the index
    is out of range, and "Out of order" (an order error) when it is ACTIVE
    and the index is in range. *)
Theorem verify_out_of_order (s : State) (sender contractId i : Z)
        (qrData : list byte) (k : Callee) :
  reachable keccak256 s ->
  let c := contract s contractId in
  let tx := mkTx (VerifyMilestone sender contractId i qrData) k in
  i <> completedMilestones c \/
  (0 <= i /\ exists m, milestones c !! Z.to_nat i = Some m /\ completed m = true) ->
  (exists f, run keccak256 tx s = Revert f) /\
  transact keccak256 s tx = s /\
  (status c <> ACTIVE ->
   run keccak256 tx s = Revert (Error "Invalid status") /\
   fails_with in_verifyMilestone StateError (run keccak256 tx) s) /\
  (status c = ACTIVE -> len (milestones c) <= i ->
   run keccak256 tx s = Revert (Error "Invalid milestone") /\
   fails_with in_verifyMilestone ValidationError (run keccak256 tx) s) /\
  (status c = ACTIVE -> i < len (milestones c) ->
   run keccak256 tx s = Revert (Error "Out of order") /\
   fails_with in_verifyMilestone OrderError (run keccak256 tx) s).
Proof.
  intros Hreach c tx Hcase.
  apply reachable_invariant in Hreach as ([_ Hr Hb] & _ & Hent).
  assert (i <> completedMilestones c) as Hord.
  { destruct Hcase as [?|(Hi & m & Hm & Hdone)]; [assumption|].
    destruct (decide (0 <= contractId < nextContractId s)) as [Hid|Hid].
    - destruct (Hr _ Hid) as [_ _ _ _ _ _ Hms].
      destruct (Hms _ _ Hm) as [Hflag _]. fold c in Hflag.
      rewrite Hdone in Hflag. symmetry in Hflag.
      apply bool_decide_eq_true in Hflag. lia.
    - specialize (Hb _ Hid). fold c in Hb. rewrite Hb in Hm. discriminate. }
  assert (run keccak256 tx s =
          match verifyMilestone_body keccak256 (carrier_call keccak256 k)
                  sender contractId i qrData (lock s) with
          | Ok (a, s') => Ok (a, unlock s')
          | Revert f => Revert f
          end) as Hrun.
  { unfold run; simpl. unfold verifyMilestone. by rewrite nonReentrant_run. }
  assert (status c <> ACTIVE -> run keccak256 tx s = Revert (Error "Invalid status"))
    as Hstate.
  { intros Hst. rewrite Hrun. by rewrite body_invalid_status. }
  assert (status c = ACTIVE -> len (milestones c) <= i ->
          run keccak256 tx s = Revert (Error "Invalid milestone")) as Hrange.
  { intros Hst Hi. rewrite Hrun. by rewrite body_invalid_milestone. }
  assert (status c = ACTIVE -> i < len (milestones c) ->
          run keccak256 tx s = Revert (Error "Out of order")) as Horder.
  { intros Hst Hi. rewrite Hrun. by rewrite body_out_of_order. }
  assert (exists f, run keccak256 tx s = Revert f) as [f Hf].
  { destruct (decide (status c = ACTIVE)) as [Hst|Hst]; [|eauto].
    destruct (Z.le_gt_cases (len (milestones c)) i); eauto. }
  split; [eauto|]. split; [unfold transact, commit; by rewrite Hf|].
  split; [|split].
  - intros Hst. split; [auto|]. exists (Error "Invalid status"). auto.
  - intros Hst Hi. split; [auto|]. exists (Error "Invalid milestone"). auto.
  - intros Hst Hi. split; [auto|]. exists (Error "Out of order"). auto.
Qed.

(** C4.  Take a [verifyMilestone] that goes through when the carrier accepts
    the transfer.  If the carrier refuses it instead, the call reverts with
    "Failed to send payment" (a payment error) and the state is the one
    before the call: the milestone's completed flag, the count of completed
    milestones, the released amount and the status are what they were. *)
Theorem failed_transfer_rolls_back (s : State) (sender contractId i : Z)
        (qrData : list byte) (calls : list Call) (u : unit) (s' : State) :
  run keccak256 (mkTx (VerifyMilestone sender contractId i qrData)
                      (mkCallee calls true)) s = Ok (u, s') ->
  let tx := mkTx (VerifyMilestone sender contractId i qrData) (mkCallee calls false) in
  let c := contract s contractId in
  let c' := contract (transact keccak256 s tx) contractId in
  run keccak256 tx s = Revert (Error "Failed to send payment") /\
  fails_with in_verifyMilestone PaymentError (run keccak256 tx) s /\
  transact keccak256 s tx = s /\
  milestones c' = milestones c /\
  completedMilestones c' = completedMilestones c /\
  releasedAmount c' = releasedAmount c /\
  status c' = status c.
Proof.
  intros Hok tx c c'.
  assert (run keccak256 tx s = Revert (Error "Failed to send payment")) as Hrev.
  { unfold run in Hok; simpl in Hok. unfold verifyMilestone in Hok.
    destruct (entered s) eqn:Hent.
    { rewrite nonReentrant_entered in Hok by assumption. discriminate. }
    rewrite nonReentrant_run in Hok by assumption.
    destruct (verifyMilestone_body _ _ _ _ _ _ _) as [[u0 s0]|f] eqn:Hbody;
      [|discriminate].
    apply verifyMilestone_body_Ok in Hbody as (m & _ & _ & Hg & _).
    unfold run; simpl. unfold verifyMilestone.
    rewrite nonReentrant_run by assumption.
    by rewrite (verifyMilestone_body_run _ _ _ _ _ _ m Hg). }
  assert (transact keccak256 s tx = s) as Hsame.
  { unfold transact, commit. by rewrite Hrev. }
  split; [assumption|]. split; [exists (Error "Failed to send payment"); auto|].
  split; [assumption|]. subst c'. rewrite Hsame. auto.
Qed.

Lemma transact_milestone s tx contractId j m :
  invariant keccak256 s ->
  milestones (contract s contractId) !! j = Some m ->
  exists m',
    milestones (contract (transact keccak256 s tx) contractId) !! j = Some m' /\
    qrHash m' = qrHash m /\ location m' = location m /\ verifier m' = verifier m.
Proof.
  intros Hinv Hm.
  destruct (decide (0 <= contractId < nextContractId s)) as [Hid|Hid].
  - destruct (transact_record s tx contractId Hinv Hid)
      as [->|[[_ ->]|(sender & i & qr & m0 & _ & Hg & ->)]].
    + eauto.
    + simpl. eauto.
    + destruct Hg as (_ & Hi & _ & Hm0 & _). unfold verified; simpl.
      destruct (decide (Z.to_nat i = j)) as [<-|Hne].
      * rewrite list_lookup_insert_eq by (apply lookup_lt_Some in Hm0; lia).
        assert (m0 = m) as -> by congruence. eauto.
      * rewrite list_lookup_insert_ne by assumption. eauto.
  - destruct Hinv as ([_ _ Hb] & _ & _). specialize (Hb _ Hid).
    rewrite Hb in Hm. discriminate.
Qed.

(** C5 as the contract has it.  The QR check accepts exactly the byte strings
    whose hash is the stored commitment; the commitment is the hash of the
    contract identifier, the location and the verifier, and no transaction
    changes it, the location or the verifier.  A [verifyMilestone] presenting
    bytes that do not hash to the commitment always fails and leaves the
    state as it was; the failure is "Invalid QR code" (a verification error)
    when the checks made before it pass: the contract is ACTIVE, the index is
    the count of completed milestones and the caller is the milestone's
    verifier.  Otherwise it is the failure of the first of these checks that
    does not pass: "Invalid status" (a state error), "Out of order" (an
    order error) or "Not authorized" (an authorization error). *)
Theorem commitment_check (s : State) (contractId : Z) (j : nat) (m : Milestone) :
  reachable keccak256 s ->
  milestones (contract s contractId) !! j = Some m ->
  let c := contract s contractId in
  (forall qrData,
      commitment_ok keccak256 qrData m = true <-> keccak256 qrData = qrHash m) /\
  qrHash m = keccak256 (encodePacked contractId (location m) (verifier m)) /\
  (forall tx,
      exists m',
        milestones (contract (transact keccak256 s tx) contractId) !! j = Some m' /\
        qrHash m' = qrHash m /\ location m' = location m /\ verifier m' = verifier m) /\
  (forall sender qrData k,
      let tx := mkTx (VerifyMilestone sender contractId (Z.of_nat j) qrData) k in
      keccak256 qrData <> qrHash m ->
      (exists f, run keccak256 tx s = Revert f) /\
      transact keccak256 s tx = s /\
      (status c <> ACTIVE ->
       run keccak256 tx s = Revert (Error "Invalid status") /\
       fails_with in_verifyMilestone StateError (run keccak256 tx) s) /\
      (status c = ACTIVE -> Z.of_nat j <> completedMilestones c ->
       run keccak256 tx s = Revert (Error "Out of order") /\
       fails_with in_verifyMilestone OrderError (run keccak256 tx) s) /\
      (status c = ACTIVE -> Z.of_nat j = completedMilestones c -> verifier m <> sender ->
       run keccak256 tx s = Revert (Error "Not authorized") /\
       fails_with in_verifyMilestone AuthorizationError (run keccak256 tx) s) /\
      (status c = ACTIVE -> Z.of_nat j = completedMilestones c -> verifier m = sender ->
       run keccak256 tx s = Revert (Error "Invalid QR code") /\
       fails_with in_verifyMilestone VerificationError (run keccak256 tx) s)).
Proof.
  intros Hreach Hm c. apply reachable_invariant in Hreach as Hinv.
  pose proof Hinv as ([_ Hr Hb] & _ & Hent).
  assert (0 <= contractId < nextContractId s) as Hid.
  { destruct (decide (0 <= contractId < nextContractId s)) as [|Hid]; [assumption|].
    specialize (Hb _ Hid). rewrite Hb in Hm. discriminate. }
  destruct (Hr _ Hid) as [_ _ _ _ _ _ Hms].
  destruct (Hms _ _ Hm) as [Hflag Hhash].
  split; [|split; [|split]].
  - intros qrData. unfold commitment_ok. apply Z.eqb_eq.
  - exact Hhash.
  - intros tx. by apply transact_milestone.
  - intros sender qrData k tx Hne.
    assert (commitment_ok keccak256 qrData m = false) as Hqr.
    { unfold commitment_ok. by apply Z.eqb_neq. }
    assert (forall u s', run keccak256 tx s <> Ok (u, s')) as Hfail.
    { intros u s' Hok.
      apply verify_tx in Hok as (m0 & _ & Hg & _); [|assumption].
      destruct Hg as (_ & _ & _ & Hm0 & _ & _ & Hok & _).
      rewrite Nat2Z.id, Hm in Hm0. injection Hm0 as <-. congruence. }
    destruct (run keccak256 tx s) as [[u s']|f] eqn:Hrun;
      [exfalso; by eapply Hfail|].
    split; [eauto|]. split; [unfold transact, commit; by rewrite Hrun|].
    assert (run keccak256 tx s =
            match verifyMilestone_body keccak256 (carrier_call keccak256 k)
                    sender contractId (Z.of_nat j) qrData (lock s) with
            | Ok (a, s') => Ok (a, unlock s')
            | Revert f => Revert f
            end) as Hbody.
    { unfold run, tx; simpl. unfold verifyMilestone. by rewrite nonReentrant_run. }
    assert (0 <= Z.of_nat j < len (milestones c)) as Hj.
    { pose proof (lookup_lt_Some _ _ _ Hm). unfold len, c. lia. }
    assert (milestones c !! Z.to_nat (Z.of_nat j) = Some m) as Hm'
        by (by rewrite Nat2Z.id).
    assert (forall reason kind,
               run keccak256 tx s = Revert (Error reason) ->
               reason_kind in_verifyMilestone reason = Some kind ->
               Revert f = Revert (A := unit * State) (Error reason) /\
               fails_with in_verifyMilestone kind (run keccak256 tx) s) as Hkind.
    { intros reason kind Hreason Hk. split; [congruence|].
      exists (Error reason). auto. }
    split; [|split; [|split]].
    + intros Hst. apply Hkind; [|reflexivity]. rewrite Hbody.
      by rewrite body_invalid_status.
    + intros Hst Hord. apply Hkind; [|reflexivity]. rewrite Hbody.
      rewrite body_out_of_order; [reflexivity|exact Hst|apply Hj|exact Hord].
    + intros Hst Hord Hver.
      assert (completed m = false) as Hdone.
      { rewrite Hflag. apply bool_decide_eq_false. unfold c in Hord. lia. }
      apply Hkind; [|reflexivity]. rewrite Hbody.
      by rewrite (body_not_authorized (carrier_call keccak256 k) sender contractId
                    (Z.of_nat j) qrData (lock s) m Hst Hj Hord Hm' Hdone Hver).
    + intros Hst Hord Hver.
      assert (completed m = false) as Hdone.
      { rewrite Hflag. apply bool_decide_eq_false. unfold c in Hord. lia. }
      apply Hkind; [|reflexivity]. rewrite Hbody.
      by rewrite (body_invalid_qr (carrier_call keccak256 k) sender contractId
                    (Z.of_nat j) qrData (lock s) m Hst Hj Hord Hm' Hdone Hver Hqr).
Qed.

(** * Further properties of the store *)

(** X2.  In every reachable state the completed milestones of a record are
    exactly its first [completedMilestones] milestones: the count is between
    0 and the number of milestones, and milestone [j] is completed if and
    only if [j < completedMilestones]. *)
Theorem completed_prefix (s : State) (contractId : Z) (j : nat) (m : Milestone) :
  reachable keccak256 s ->
  milestones (contract s contractId) !! j = Some m ->
  let c := contract s contractId in
  0 <= completedMilestones c <= len (milestones c) /\
  (completed m = true <-> Z.of_nat j < completedMilestones c).
Proof.
  intros Hreach Hm c.
  apply reachable_invariant in Hreach as ([_ Hr Hb] & _ & _).
  destruct (decide (0 <= contractId < nextContractId s)) as [Hid|Hid].
  - destruct (Hr _ Hid) as [_ _ Hc _ _ _ Hms]. split; [exact Hc|].
    destruct (Hms _ _ Hm) as [-> _]. apply bool_decide_eq_true.
  - specialize (Hb _ Hid). rewrite Hb in Hm. discriminate.
Qed.

(** X4.  In every reachable state, for every contract identifier, the
    amounts of the [PaymentReleased] events logged for it add up to the
    record's [releasedAmount]. *)
Theorem releases_logged (s : State) (contractId : Z) :
  reachable keccak256 s ->
  released_total contractId (events s) = releasedAmount (contract s contractId).
Proof.
  intros Hreach. apply reachable_invariant in Hreach as (_ & [Hlog _] & _).
  apply Hlog.
Qed.

(** X5.  No transaction changes the parties, the payment or the number of
    milestones of a record of the registry, and the released amount and the
    count of completed milestones never decrease. *)
Theorem record_fixed_at_creation (s : State) (tx : Tx) (contractId : Z) :
  reachable keccak256 s ->
  0 <= contractId < nextContractId s ->
  let c := contract s contractId in
  let c' := contract (transact keccak256 s tx) contractId in
  shipper c' = shipper c /\ carrier c' = carrier c /\ recipient c' = recipient c /\
  payment c' = payment c /\
  len (milestones c') = len (milestones c) /\
  releasedAmount c <= releasedAmount c' /\
  completedMilestones c <= completedMilestones c'.
Proof.
  intros Hreach Hid c c'. apply reachable_invariant in Hreach as Hinv.
  subst c c'.
  destruct (transact_record s tx contractId Hinv Hid)
    as [->|[[_ ->]|(sender & i & qr & m & _ & Hg & ->)]].
  - repeat split; lia.
  - simpl. repeat split; lia.
  - unfold verified; simpl. rewrite len_insert.
    destruct Hinv as ([_ Hr _] & _ & _).
    pose proof (record_ok_escrow_bound _ _ (Hr _ Hid)) as [Hle _].
    destruct (Hr _ Hid) as [Hp Hn _ _ _ _ _].
    assert (0 <= amount_due (contract s contractId) i).
    { unfold amount_due, release_rule.
      destruct (_ =? _); [lia|]. apply Z.div_pos; lia. }
    repeat split; lia.
Qed.

(** * An induction rule for the reachable states

    To show that [I] holds in every reachable state it is enough to show
    that it holds initially, that a successful [createContract] and a
    successful [acceptContract] keep it, and that a successful
    [verifyMilestone] keeps it.  The last is split at the transfer: [J] is
    what holds while the carrier runs, between the write of the record and
    the two events; the calls the carrier makes must keep [J]. *)

Lemma createContract_post sender value carrier_ recipient_ locations verifiers s r s' :
  store_ok keccak256 s ->
  createContract keccak256 sender value carrier_ recipient_ locations verifiers s
    = Ok (r, s') ->
  (0 < value /\ carrier_ <> 0 /\ recipient_ <> 0 /\ 0 < len locations /\
   len locations = len verifiers) /\
  r = nextContractId s /\
  s' = mkState
         (<[r := mkContract sender carrier_ recipient_ value 0 CREATED
                   (new_milestones keccak256 r locations verifiers) 0]> (contracts s))
         (nextContractId s + 1) (entered s)
         (events s ++ [ContractCreated r sender carrier_ recipient_ value])
         (transfers s).
Proof.
  intros [Hn _ Hb] H.
  apply createContract_Ok in H as ((Hv & Hc & Hre & Hl & Hlv & _) & -> & ->).
  assert (blank (contract s (nextContractId s))) as Hblank by (apply Hb; lia).
  rewrite Hblank. simpl. auto 10.
Qed.

Section InvariantRule.

Variable I : State -> Prop.
Variable J : State -> Z -> Z -> Milestone -> State -> Prop.

Hypothesis I_initial : I initial.

Hypothesis I_create :
  forall s sender value carrier_ recipient_ locations verifiers r s',
    store_ok keccak256 s -> I s ->
    createContract keccak256 sender value carrier_ recipient_ locations verifiers s
      = Ok (r, s') ->
    I s'.

Hypothesis I_accept :
  forall s sender contractId u s',
    store_ok keccak256 s -> I s ->
    acceptContract sender contractId s = Ok (u, s') ->
    I s'.

Hypothesis J_create :
  forall s0 id i m s sender value carrier_ recipient_ locations verifiers r s',
    store_ok keccak256 s -> 0 <= id < nextContractId s -> J s0 id i m s ->
    createContract keccak256 sender value carrier_ recipient_ locations verifiers s
      = Ok (r, s') ->
    J s0 id i m s'.

Hypothesis J_accept :
  forall s0 id i m s sender contractId u s',
    store_ok keccak256 s -> 0 <= id < nextContractId s ->
    status (contract s id) <> CREATED -> J s0 id i m s ->
    acceptContract sender contractId s = Ok (u, s') ->
    J s0 id i m s'.

Hypothesis I_J :
  forall s sender id i qr m,
    invariant keccak256 s -> I s ->
    verify_guards keccak256 s sender id i qr m ->
    J s id i m (at_transfer (lock s) id i m).

Hypothesis J_I :
  forall s sender id i qr m mid,
    invariant keccak256 s ->
    verify_guards keccak256 s sender id i qr m ->
    store_ok keccak256 mid ->
    contract mid id = verified (contract s id) i m ->
    J s id i m mid ->
    I (unlock (after_transfer (lock s) mid sender id i (set_completed m))).

Lemma inner_calls_keep_J s0 id i m calls s :
  store_ok keccak256 s -> entered s = true ->
  0 <= id < nextContractId s -> status (contract s id) <> CREATED ->
  J s0 id i m s ->
  J s0 id i m (fold_left (inner_call keccak256) calls s).
Proof.
  revert s. induction calls as [|call calls IH]; intros s Hs Hent Hid Hst HJ;
    simpl; [assumption|].
  destruct (inner_call_step s call Hs Hent) as [Hs1 Hq1].
  pose proof Hq1 as (Hent1 & Hn1 & Hc1 & _).
  apply IH.
  - assumption.
  - congruence.
  - lia.
  - destruct (Hc1 id Hid) as [->|[? _]]; [assumption|contradiction].
  - unfold inner_call, commit.
    destruct (dispatch keccak256 (fun _ _ => ret false) call s) as [[u s1]|f] eqn:E;
      [|assumption].
    destruct call as [sender value ca re ls vs|sender contractId|sender contractId j qr];
      simpl in E.
    + apply bind_Ok in E as (r & s2 & Hcreate & Hret).
      apply ret_Ok in Hret as [_ ->].
      eapply J_create; [exact Hs|exact Hid|exact HJ|exact Hcreate].
    + eapply J_accept; [exact Hs|exact Hid|exact Hst|exact HJ|exact E].
    + unfold verifyMilestone in E. rewrite nonReentrant_entered in E by assumption.
      discriminate.
Qed.

Lemma transact_keeps_I s tx :
  invariant keccak256 s -> I s -> I (transact keccak256 s tx).
Proof.
  intros Hinv HI. unfold transact, commit.
  destruct (run keccak256 tx s) as [[u s']|f] eqn:E; [|assumption].
  destruct tx as [[sender value ca re ls vs|sender id|sender id i qr] k].
  - unfold run in E; simpl in E.
    apply bind_Ok in E as (r & s1 & Hcreate & Hret). apply ret_Ok in Hret as [_ ->].
    eapply I_create; [apply Hinv|eassumption..].
  - unfold run in E; simpl in E.
    eapply I_accept; [apply Hinv|eassumption..].
  - pose proof (verify_tx _ _ _ _ _ _ _ _ Hinv E)
      as (m & mid & Hg & Hid & Hsent & Hmid & Hq & Hrec & -> & Hinv').
    pose proof Hinv as (Hs & _ & _).
    pose proof Hg as (Hst & Hi & Hord & Hm & _).
    assert (store_ok keccak256 (at_transfer (lock s) id i m)) as Hat.
    { apply (store_ok_update s); [assumption..|].
      apply record_ok_verified; auto. by apply Hs. }
    assert (contract (at_transfer (lock s) id i m) id = verified (contract s id) i m)
      as Hrec0.
    { unfold at_transfer. rewrite contract_sstore. by case_decide. }
    eapply (J_I s sender id i qr m mid); try eassumption.
    + subst mid. by apply inner_calls_step.
    + subst mid. apply inner_calls_keep_J; try assumption; try reflexivity.
      * rewrite Hrec0. by apply status_verified.
      * by eapply I_J.
Qed.

Theorem reachable_rule s : reachable keccak256 s -> I s.
Proof.
  intros [txs ->].
  assert (invariant keccak256 (run_all keccak256 txs) /\ I (run_all keccak256 txs))
    as [_ H]; [|exact H].
  induction txs as [|tx txs [Hinv HI]] using rev_ind.
  - split; [apply invariant_initial|exact I_initial].
  - rewrite run_all_snoc. split.
    + by apply transact_invariant.
    + by apply transact_keeps_I.
Qed.

End InvariantRule.

(** * The ether that leaves the contract *)



(** What a call made by the callee can do while the guard is set: it keeps
    the flag, moves no ether, and does nothing at all when it is a
    [verifyMilestone]. *)
Lemma inner_call_guarded s call :
  entered s = true ->
  entered (inner_call keccak256 s call) = true /\
  transfers (inner_call keccak256 s call) = transfers s /\
  (is_verify call = true -> inner_call keccak256 s call = s).
Proof.
  intros Hent. unfold inner_call, commit.
  destruct (dispatch keccak256 (fun _ _ => ret false) call s) as [[u s']|f] eqn:E;
    [|auto].
  destruct call as [sender value ca re ls vs|sender contractId|sender contractId i qr];
    simpl in E.
  - apply bind_Ok in E as (r & s1 & Hcreate & Hret).
    apply ret_Ok in Hret as [_ ->].
    apply createContract_Ok in Hcreate as (_ & _ & ->). simpl.
    split; [assumption|]. split; [reflexivity|discriminate].
  - apply acceptContract_Ok in E as (_ & _ & ->). simpl.
    split; [assumption|]. split; [reflexivity|discriminate].
  - unfold verifyMilestone in E. rewrite nonReentrant_entered in E by assumption.
    discriminate.
Qed.

Lemma inner_calls_guarded calls :
  forall s,
    entered s = true ->
    transfers (fold_left (inner_call keccak256) calls s) = transfers s /\
    fold_left (inner_call keccak256) calls s
    = fold_left (inner_call keccak256)
        (List.filter (fun call => negb (is_verify call)) calls) s.
Proof.
  induction calls as [|call calls IH]; intros s Hent; simpl; [auto|].
  destruct (inner_call_guarded s call Hent) as (Hent1 & Htr1 & Hskip).
  destruct (is_verify call) eqn:Hv; simpl.
  - rewrite (Hskip eq_refl). by apply IH.
  - destruct (IH _ Hent1) as [Htr Heq]. split; [by rewrite Htr|exact Heq].
Qed.


(** The one transfer of a successful [verifyMilestone]. *)
Lemma verifyMilestone_transfers sender contractId i qr k s u s' :
  run keccak256 (mkTx (VerifyMilestone sender contractId i qr) k) s = Ok (u, s') ->
  transfers s'
  = transfers s ++
    [(carrier (contract s contractId), amount_due (contract s contractId) i)].
Proof.
  unfold run; simpl. unfold verifyMilestone, nonReentrant.
  destruct (entered s) eqn:Hent; [discriminate|].
  fold (lock s).
  destruct (verifyMilestone_body _ _ _ _ _ _ _) as [[u0 s0]|f] eqn:Hbody;
    [|discriminate].
  intros [= _ <-].
  apply verifyMilestone_body_Ok in Hbody as (m & mid & m' & _ & Hcall & _ & ->).
  unfold carrier_call in Hcall. destruct (sent k); [|discriminate].
  injection Hcall as <-. cbn [transfers after_transfer].
  match goal with
  | |- context [fold_left _ _ ?paid] =>
      destruct (inner_calls_guarded (reenter k) paid eq_refl) as [-> _]
  end.
  reflexivity.
Qed.

Lemma released_log_app evs evs' :
  released_log (evs ++ evs') = released_log evs ++ released_log evs'.
Proof.
  induction evs as [|e evs IH]; simpl; [reflexivity|].
  destruct e; rewrite ?IH; reflexivity.
Qed.

(** In every reachable state the log of releases is the list of the
    transfers made: every [PaymentReleased] event stands for one transfer,
    of the amount and to the address it names, and no other transfer was
    made. *)
Lemma transfers_logged s :
  reachable keccak256 s -> transfers s = released_log (events s).
Proof.
  revert s.
  apply (reachable_rule
           (fun s => transfers s = released_log (events s))
           (fun s0 id i m s =>
              transfers s
              = released_log (events s) ++
                [(carrier (contract s0 id), amount_due (contract s0 id) i)])).
  - reflexivity.
  - intros s sender value ca re ls vs r s' Hs HI Hc.
    apply createContract_Ok in Hc as (_ & _ & ->). cbn [transfers events].
    rewrite released_log_app, HI. simpl. by rewrite app_nil_r.
  - intros s sender id u s' Hs HI Ha.
    apply acceptContract_Ok in Ha as (_ & _ & ->). cbn [transfers events].
    rewrite released_log_app, HI. simpl. by rewrite app_nil_r.
  - intros s0 id i m s sender value ca re ls vs r s' Hs Hid HJ Hc.
    apply createContract_Ok in Hc as (_ & _ & ->). cbn [transfers events].
    rewrite released_log_app, HJ. simpl. by rewrite app_nil_r.
  - intros s0 id i m s sender id' u s' Hs Hid Hst HJ Ha.
    apply acceptContract_Ok in Ha as (_ & _ & ->). cbn [transfers events].
    rewrite released_log_app, HJ. simpl. by rewrite app_nil_r.
  - intros s sender id i qr m Hinv HI Hg.
    unfold at_transfer. cbn [transfers events lock]. by rewrite HI.
  - intros s sender id i qr m mid Hinv Hg Hmid Hrec HJ.
    unfold unlock, after_transfer. cbn [transfers events].
    rewrite released_log_app, HJ, Hrec. reflexivity.
Qed.


(** C1.  A successful [verifyMilestone] on milestone [i] of a contract with
    [n] milestones releases [floor(payment / n)] when [i] is not the last
    milestone and [payment - releasedAmount] when it is: the call makes one
    transfer, of this amount and to the carrier of the contract; the amount
    is logged in [PaymentReleased] and added to [releasedAmount], every
    earlier release having been [floor(payment / n)].  The log of releases
    is the list of the transfers made.  After the last milestone the
    releases of the contract add up to [payment], [releasedAmount] is
    [payment] and the status is COMPLETED.  A contract with a single
    milestone releases the whole payment at once. *)
Theorem verifyMilestone_releases (s : State) (sender contractId i : Z)
        (qrData : list byte) (k : Callee) (u : unit) (s' : State) :
  reachable keccak256 s ->
  run keccak256 (mkTx (VerifyMilestone sender contractId i qrData) k) s = Ok (u, s') ->
  let c := contract s contractId in
  let c' := contract s' contractId in
  let n := len (milestones c) in
  let amount := release_rule (payment c) n (releasedAmount c) i in
  transfers s' = transfers s ++ [(carrier c, amount)] /\
  released_log (events s) = transfers s /\
  released_log (events s') = transfers s' /\
  (exists evs loc,
      events s' =
        events s ++ evs ++
        [PaymentReleased contractId (carrier c) amount i;
         MilestoneVerified contractId i loc sender] /\
      forall j, released_total j evs = 0) /\
  releasedAmount c = i * (payment c / n) /\
  releasedAmount c' = releasedAmount c + amount /\
  payment c' = payment c /\
  released_total contractId (events s') = releasedAmount c' /\
  (i <> n - 1 -> amount = payment c / n /\ status c' = ACTIVE) /\
  (i = n - 1 ->
   amount = payment c - releasedAmount c /\
   releasedAmount c' = payment c /\
   released_total contractId (events s') = payment c /\
   status c' = COMPLETED) /\
  (n = 1 -> amount = payment c).
Proof.
  intros Hreach Hrun c c' n amount.
  assert (transfers s' = transfers s ++ [(carrier c, amount)]) as Hpaid
      by (by apply verifyMilestone_transfers in Hrun).
  assert (reachable keccak256 s') as Hreach'.
  { pose proof (reachable_transact s
                  (mkTx (VerifyMilestone sender contractId i qrData) k) Hreach) as H.
    unfold transact, commit in H. by rewrite Hrun in H. }
  pose proof (transfers_logged s Hreach) as Hlogged.
  pose proof (transfers_logged s' Hreach') as Hlogged'.
  apply reachable_invariant in Hreach as Hinv.
  destruct (verify_tx _ _ _ _ _ _ _ _ Hinv Hrun)
    as (m & mid & Hg & Hid & Hsent & Hmid & Hq & Hrec & Hs' & Hinv').
  destruct Hg as (Hst & Hi & Hord & Hm & _). fold c in Hst, Hi, Hord, Hm, Hrec.
  destruct Hinv as ([_ Hr _] & _ & _).
  destruct (Hr _ Hid) as [Hp Hn Hc _ Hrun' _ _]. fold c in Hp, Hn, Hc, Hrun'.
  destruct Hrun' as [_ Hrel]; [congruence|]. rewrite <- Hord in Hrel.
  assert (amount_due c i = amount) as Hamount by reflexivity.
  assert (releasedAmount c' = releasedAmount c + amount) as Hsum.
  { subst c'. rewrite Hrec. reflexivity. }
  assert (released_total contractId (events s') = releasedAmount c') as Hlog.
  { destruct Hinv' as (_ & [Hlog _] & _). apply Hlog. }
  assert (status c' = if i =? n - 1 then COMPLETED else ACTIVE) as Hst'.
  { subst c'. rewrite Hrec. unfold verified; simpl. fold n. by rewrite Hst. }
  split; [exact Hpaid|]. split; [by rewrite Hlogged|]. split; [by rewrite Hlogged'|].
  split; [|split; [|split; [|split; [|split; [|split; [|split]]]]]].
  - destruct Hq as (_ & _ & _ & _ & evs & Hev & Hz & _).
    exists evs, (location (set_completed m)). split; [|assumption].
    rewrite Hs'. unfold unlock, after_transfer; simpl. rewrite Hev. simpl.
    change (contract (lock s) contractId) with c.
    assert (contract mid contractId = verified c i m) as ->.
    { rewrite <- Hrec. subst s'. reflexivity. }
    rewrite Hamount. simpl. by rewrite <- app_assoc.
  - exact Hrel.
  - exact Hsum.
  - subst c'. rewrite Hrec. reflexivity.
  - exact Hlog.
  - intros Hne. split.
    + unfold amount, release_rule. by destruct (Z.eqb_spec i (n - 1)).
    + rewrite Hst'. by destruct (Z.eqb_spec i (n - 1)).
  - intros He.
    assert (amount = payment c - releasedAmount c) as Ha.
    { unfold amount, release_rule. by destruct (Z.eqb_spec i (n - 1)). }
    split; [exact Ha|]. split; [lia|]. split; [lia|].
    rewrite Hst'. by destruct (Z.eqb_spec i (n - 1)).
  - intros Hone. unfold amount, release_rule. fold n in Hi.
    destruct (Z.eqb_spec i (n - 1)); [|lia].
    rewrite Hrel. assert (i = 0) as -> by lia. lia.
Qed.




(** * Conservation of the escrow *)

Lemma escrowed_in_app evs evs' :
  escrowed_in (evs ++ evs') = escrowed_in evs + escrowed_in evs'.
Proof.
  induction evs as [|e evs IH]; simpl; [lia|]. destruct e; rewrite ?IH; lia.
Qed.

Lemma paid_out_app evs evs' :
  paid_out (evs ++ evs') = paid_out evs + paid_out evs'.
Proof.
  induction evs as [|e evs IH]; simpl; [lia|]. destruct e; rewrite ?IH; lia.
Qed.

Lemma sumZ_app f l l' : sumZ f (l ++ l') = sumZ f l + sumZ f l'.
Proof. induction l as [|x l IH]; simpl; [lia|]. rewrite IH. lia. Qed.

Lemma sumZ_ext f g l :
  (forall x, x ∈ l -> f x = g x) -> sumZ f l = sumZ g l.
Proof.
  induction l as [|x l IH]; intros H; simpl; [reflexivity|].
  rewrite (H x) by apply list_elem_of_here. rewrite IH; [reflexivity|].
  intros y Hy. apply H. by apply list_elem_of_further.
Qed.

Lemma sumZ_nonneg f l : (forall x, x ∈ l -> 0 <= f x) -> 0 <= sumZ f l.
Proof.
  induction l as [|x l IH]; intros H; simpl; [lia|].
  assert (0 <= f x) by (apply H, list_elem_of_here).
  assert (0 <= sumZ f l) by (apply IH; intros y Hy; apply H; by apply list_elem_of_further).
  lia.
Qed.

Lemma sumZ_zero f l : (forall x, x ∈ l -> f x = 0) -> sumZ f l = 0.
Proof.
  induction l as [|x l IH]; intros H; simpl; [lia|].
  rewrite (H x) by apply list_elem_of_here. rewrite IH; [lia|].
  intros y Hy. apply H. by apply list_elem_of_further.
Qed.

(** Changing a function at one identifier changes its sum over the
    registry by the difference there. *)
Lemma sumZ_update f g n k :
  0 <= k < n -> (forall x, x <> k -> g x = f x) ->
  sumZ g (seqZ 0 n) = sumZ f (seqZ 0 n) + (g k - f k).
Proof.
  intros Hk Hext.
  assert (seqZ 0 n = seqZ 0 k ++ [k] ++ seqZ (k + 1) (n - k - 1)) as ->.
  { replace n with (k + (1 + (n - k - 1))) at 1 by lia.
    rewrite !seqZ_app by lia. reflexivity. }
  rewrite !sumZ_app.
  rewrite (sumZ_ext g f (seqZ 0 k)); cycle 1.
  { intros x Hx. apply elem_of_seqZ in Hx. apply Hext. lia. }
  rewrite (sumZ_ext g f (seqZ (k + 1) (n - k - 1))); cycle 1.
  { intros x Hx. apply elem_of_seqZ in Hx. apply Hext. lia. }
  cbn [sumZ foldr]. lia.
Qed.

Lemma outstanding_frame m n e l t e' l' t' :
  outstanding (mkState m n e l t) = outstanding (mkState m n e' l' t').
Proof. reflexivity. Qed.

Lemma outstanding_created s r c e l t :
  0 <= nextContractId s -> r = nextContractId s ->
  outstanding (mkState (<[r := c]> (contracts s)) (nextContractId s + 1) e l t)
  = outstanding s + owed c.
Proof.
  intros Hn ->. unfold outstanding; simpl.
  rewrite seqZ_app by lia. rewrite sumZ_app.
  change (seqZ (0 + nextContractId s) 1) with [0 + nextContractId s]. simpl.
  rewrite contract_sstore. case_decide; [|lia].
  rewrite (sumZ_ext _ (fun id => owed (contract s id))); [lia|].
  intros x Hx. apply elem_of_seqZ in Hx.
  rewrite contract_sstore. case_decide; [lia|reflexivity].
Qed.

Lemma outstanding_updated s k c e l t :
  0 <= k < nextContractId s ->
  outstanding (mkState (<[k := c]> (contracts s)) (nextContractId s) e l t)
  = outstanding s + (owed c - owed (contract s k)).
Proof.
  intros Hk. unfold outstanding; simpl.
  rewrite (sumZ_update (fun id => owed (contract s id)) _ _ k Hk).
  - rewrite contract_sstore. case_decide; [reflexivity|congruence].
  - intros x Hx. rewrite contract_sstore. case_decide; [congruence|reflexivity].
Qed.

Lemma outstanding_nonneg s : store_ok keccak256 s -> 0 <= outstanding s.
Proof.
  intros [_ Hr _]. apply sumZ_nonneg. intros x Hx. apply elem_of_seqZ in Hx.
  destruct (record_ok_escrow_bound x _ (Hr x ltac:(lia))) as [Hle _].
  unfold owed. lia.
Qed.

Lemma owed_set_status c st : owed (set_status c st) = owed c.
Proof. reflexivity. Qed.

Lemma accepted_contract_or_blank s contractId :
  store_ok keccak256 s ->
  0 <= contractId < nextContractId s \/ owed (contract s contractId) = 0.
Proof.
  intros [_ _ Hb].
  destruct (decide (0 <= contractId < nextContractId s)) as [|Hout]; [by left|].
  right. rewrite (Hb _ Hout). reflexivity.
Qed.

(** X6.  In every reachable state the payments taken in by the creations
    logged so far equal the amounts paid out by the releases logged so far
    plus what the records of the registry still owe
    ([payment - releasedAmount], summed over the identifiers created).  So
    the contract never pays out more than it took in, and once every record
    is COMPLETED it has paid out exactly what it took in. *)
Theorem escrow_conserved (s : State) :
  reachable keccak256 s ->
  escrowed_in (events s) = paid_out (events s) + outstanding s /\
  paid_out (events s) <= escrowed_in (events s) /\
  ((forall contractId, 0 <= contractId < nextContractId s ->
                       status (contract s contractId) = COMPLETED) ->
   paid_out (events s) = escrowed_in (events s)).
Proof.
  intros Hreach.
  assert (escrowed_in (events s) = paid_out (events s) + outstanding s) as Heq.
  { revert s Hreach.
    apply (reachable_rule
             (fun s => escrowed_in (events s) = paid_out (events s) + outstanding s)
             (fun s0 id i m s =>
                escrowed_in (events s)
                = paid_out (events s) + outstanding s + amount_due (contract s0 id) i)).
    - reflexivity.
    - intros s sender value ca re ls vs r s' Hs HI Hc.
      apply createContract_post in Hc as (_ & Hr & ->); [|assumption].
      cbn [events]. rewrite escrowed_in_app, paid_out_app.
      rewrite outstanding_created by (assumption || apply Hs).
      unfold owed; simpl. lia.
    - intros s sender id u s' Hs HI Ha.
      apply acceptContract_Ok in Ha as (_ & _ & ->).
      cbn [events]. rewrite escrowed_in_app, paid_out_app.
      cbn [escrowed_in paid_out].
      destruct (accepted_contract_or_blank s id Hs) as [Hid|Hz].
      + rewrite (outstanding_updated s id _ _ _ _ Hid). rewrite owed_set_status. lia.
      + unfold outstanding; simpl.
        rewrite (sumZ_ext _ (fun j => owed (contract s j))); [fold (outstanding s); lia|].
        intros x _. rewrite contract_sstore. case_decide; [|reflexivity].
        subst x. by rewrite owed_set_status.
    - intros s0 id i m s sender value ca re ls vs r s' Hs Hid HJ Hc.
      apply createContract_post in Hc as (_ & Hr & ->); [|assumption].
      cbn [events]. rewrite escrowed_in_app, paid_out_app.
      rewrite outstanding_created by (assumption || apply Hs).
      unfold owed; simpl. lia.
    - intros s0 id i m s sender id' u s' Hs Hid Hst HJ Ha.
      apply acceptContract_Ok in Ha as (_ & _ & ->).
      cbn [events]. rewrite escrowed_in_app, paid_out_app.
      cbn [escrowed_in paid_out].
      destruct (accepted_contract_or_blank s id' Hs) as [Hid'|Hz].
      + rewrite (outstanding_updated s id' _ _ _ _ Hid'). rewrite owed_set_status. lia.
      + unfold outstanding; simpl.
        rewrite (sumZ_ext _ (fun j => owed (contract s j))); [fold (outstanding s); lia|].
        intros x _. rewrite contract_sstore. case_decide; [|reflexivity].
        subst x. by rewrite owed_set_status.
    - intros s sender id i qr m Hinv HI Hg.
      pose proof (guards_in_registry _ _ _ _ _ _ (proj1 Hinv) Hg) as Hid.
      unfold at_transfer. cbn [events lock].
      rewrite (outstanding_updated (lock s) id _ _ _ _ Hid).
      change (contract (lock s) id) with (contract s id).
      change (outstanding (lock s)) with (outstanding s).
      unfold owed at 1, verified; simpl. unfold owed. lia.
    - intros s sender id i qr m mid Hinv Hg Hmid Hrec HJ.
      unfold unlock, after_transfer; cbn [events contracts nextContractId].
      rewrite escrowed_in_app, paid_out_app. cbn [escrowed_in paid_out].
      change (contract (lock s) id) with (contract s id).
      rewrite (outstanding_frame _ _ _ _ _ (entered mid) (events mid) (transfers mid)).
      destruct mid; cbn [events contracts nextContractId entered transfers] in *.
      lia. }
  apply reachable_invariant in Hreach as (Hs & _ & _).
  pose proof (outstanding_nonneg s Hs).
  split; [assumption|]. split; [lia|].
  intros Hall.
  assert (outstanding s = 0) as Hz; [|lia].
  apply sumZ_zero. intros x Hx. apply elem_of_seqZ in Hx.
  assert (0 <= x < nextContractId s) as Hid by lia.
  destruct Hs as [_ Hr _]. destruct (Hr x Hid) as [_ _ _ Hcomp _ _ _].
  destruct (Hcomp (Hall x Hid)) as [_ Heq']. unfold owed. lia.
Qed.


(** * The outcome of a verification *)

Lemma guards_hold s sender contractId i qr m :
  store_ok keccak256 s ->
  let c := contract s contractId in
  payment c <= uint256_max -> len (milestones c) <= uint256_max ->
  status c = ACTIVE -> 0 <= i -> i = completedMilestones c ->
  milestones c !! Z.to_nat i = Some m ->
  verifier m = sender -> commitment_ok keccak256 qr m = true ->
  verify_guards keccak256 s sender contractId i qr m.
Proof.
  intros Hs c Hpmax Hnmax Hst Hi Hord Hm Hver Hqr.
  pose proof Hs as [_ Hr Hb].
  assert (0 <= contractId < nextContractId s) as Hid.
  { destruct (decide (0 <= contractId < nextContractId s)) as [|Hid]; [assumption|].
    specialize (Hb _ Hid). fold c in Hb. rewrite Hb in Hm. discriminate. }
  pose proof (record_ok_escrow_bound _ _ (Hr _ Hid)) as [Hle _]. fold c in Hle.
  destruct (Hr _ Hid) as [Hp Hn Hc _ Hrun _ Hms].
  fold c in Hp, Hn, Hc, Hrun, Hms.
  destruct Hrun as [Hlt Hrel]; [congruence|].
  destruct (Hms _ _ Hm) as [Hflag _].
  unfold verify_guards. fold c.
  split; [assumption|]. split; [lia|]. split; [assumption|].
  split; [assumption|]. split.
  { rewrite Hflag. apply bool_decide_eq_false. lia. }
  split; [assumption|]. split; [assumption|].
  split; [lia|]. split; [intros _; assumption|].
  unfold amount_due, release_rule.
  destruct (Z.eqb_spec i (len (milestones c) - 1)); [lia|].
  pose proof (Z.mul_div_le (payment c) (len (milestones c)) Hn).
  assert (0 <= payment c / len (milestones c)) by (apply Z.div_pos; lia).
  rewrite Hrel. nia.
Qed.

Lemma guarded_run_succeeds s sender contractId i qr m k :
  store_ok keccak256 s -> entered s = false ->
  verify_guards keccak256 s sender contractId i qr m -> sent k = true ->
  exists s', run keccak256 (mkTx (VerifyMilestone sender contractId i qr) k) s
             = Ok (tt, s').
Proof.
  intros Hs Hent Hg Hsent.
  pose proof Hg as (_ & Hi & _ & Hm & _).
  unfold run; simpl. unfold verifyMilestone.
  rewrite nonReentrant_run by assumption.
  rewrite (verifyMilestone_body_run _ _ _ _ _ (lock s) m Hg).
  unfold carrier_call at 1. rewrite Hsent.
  change (pay _ _ (before_transfer (lock s) contractId i m))
    with (at_transfer (lock s) contractId i m).
  rewrite (record_at_transfer s sender contractId i qr m (reenter k) Hs Hg).
  rewrite (index_lookup _ _ (set_completed m)).
  - eauto.
  - lia.
  - unfold verified; simpl. apply list_lookup_insert_eq.
    apply lookup_lt_Some in Hm. lia.
Qed.

(** X7.  In a reachable state a [verifyMilestone] on unsigned arguments
    fails only with the reason of the first failing check among: status,
    range, order, caller, QR hash, transfer; and it succeeds when none of
    them fails.  It never reverts with "Already verified", with an
    arithmetic or index panic, or with the reentrancy error.  Every failure
    leaves the state as it was. *)
Theorem verifyMilestone_outcome (s : State) (sender contractId i : Z)
        (qrData : list byte) (k : Callee) :
  reachable keccak256 s ->
  let c := contract s contractId in
  let tx := mkTx (VerifyMilestone sender contractId i qrData) k in
  0 <= i -> payment c <= uint256_max -> len (milestones c) <= uint256_max ->
  match verify_outcome keccak256 s sender contractId i qrData k with
  | Some reason =>
      run keccak256 tx s = Revert (Error reason) /\ transact keccak256 s tx = s
  | None => exists s', run keccak256 tx s = Ok (tt, s')
  end.
Proof.
  intros Hreach c tx Hi Hpmax Hnmax.
  pose proof (reachable_invariant _ Hreach) as (Hs & _ & Hent).
  assert (run keccak256 tx s =
          match verifyMilestone_body keccak256 (carrier_call keccak256 k)
                  sender contractId i qrData (lock s) with
          | Ok (a, s') => Ok (a, unlock s')
          | Revert f => Revert f
          end) as Hrun.
  { unfold run; simpl. unfold verifyMilestone. by rewrite nonReentrant_run. }
  assert (forall reason,
             run keccak256 tx s = Revert (Error reason) ->
             run keccak256 tx s = Revert (Error reason) /\ transact keccak256 s tx = s)
    as Hfail.
  { intros reason H. split; [assumption|]. unfold transact, commit. by rewrite H. }
  unfold verify_outcome. fold c.
  destruct (Status_eqb (status c) ACTIVE) eqn:Hst; simpl.
  2:{ apply Status_eqb_neq in Hst. apply Hfail. rewrite Hrun.
      by rewrite body_invalid_status. }
  apply Status_eqb_eq in Hst.
  destruct (Z.leb_spec (len (milestones c)) i) as [Hge|Hlt].
  { apply Hfail. rewrite Hrun. by rewrite body_invalid_milestone. }
  destruct (Z.eqb_spec i (completedMilestones c)) as [Hord|Hord]; simpl.
  2:{ apply Hfail. rewrite Hrun. by rewrite body_out_of_order. }
  destruct (milestones c !! Z.to_nat i) as [m|] eqn:Hm.
  2:{ apply lookup_ge_None in Hm. unfold len in Hlt. lia. }
  assert (completed m = false) as Hdone.
  { pose proof Hs as [_ Hr Hb].
    destruct (decide (0 <= contractId < nextContractId s)) as [Hid|Hid].
    - destruct (Hr _ Hid) as [_ _ _ _ _ _ Hms]. destruct (Hms _ _ Hm) as [-> _].
      apply bool_decide_eq_false. fold c. lia.
    - specialize (Hb _ Hid). fold c in Hb. rewrite Hb in Hm. discriminate. }
  destruct (Z.eqb_spec (verifier m) sender) as [Hver|Hver]; simpl.
  2:{ apply Hfail. rewrite Hrun.
      by rewrite (body_not_authorized _ _ _ _ _ (lock s) m Hst (conj Hi Hlt) Hord Hm). }
  destruct (commitment_ok keccak256 qrData m) eqn:Hqr; simpl.
  2:{ apply Hfail. rewrite Hrun.
      by rewrite (body_invalid_qr _ _ _ _ _ (lock s) m Hst (conj Hi Hlt) Hord Hm). }
  pose proof (guards_hold s sender contractId i qrData m Hs Hpmax Hnmax Hst Hi Hord
                Hm Hver Hqr) as Hg.
  destruct (sent k) eqn:Hsent.
  - by apply (guarded_run_succeeds s sender contractId i qrData m k).
  - apply Hfail. rewrite Hrun.
    rewrite (verifyMilestone_body_run _ _ _ _ _ (lock s) m Hg).
    unfold carrier_call. by rewrite Hsent.
Qed.


(** * The log of one contract *)

Lemma verified_indices_app contractId evs evs' :
  verified_indices contractId (evs ++ evs') =
  verified_indices contractId evs ++ verified_indices contractId evs'.
Proof.
  induction evs as [|e evs IH]; simpl; [reflexivity|].
  destruct e; rewrite ?IH; try reflexivity.
  by destruct (_ =? _).
Qed.

Lemma contract_unlock_after s mid sender id i m' j :
  contract (unlock (after_transfer s mid sender id i m')) j = contract mid j.
Proof. reflexivity. Qed.

Lemma blank_count s contractId :
  store_ok keccak256 s -> ~ 0 <= contractId < nextContractId s ->
  completedMilestones (contract s contractId) = 0.
Proof. intros [_ _ Hb] Hout. by rewrite (Hb _ Hout). Qed.

(** X8.  In every reachable state the [MilestoneVerified] events of a
    contract name the indices 0, 1, 2, ... up to [completedMilestones - 1],
    in this order: the log shows every milestone verified once, after all
    the milestones before it. *)
Theorem milestones_logged_in_order (s : State) (contractId : Z) :
  reachable keccak256 s ->
  verified_indices contractId (events s)
  = seqZ 0 (completedMilestones (contract s contractId)).
Proof.
  intros Hreach. revert contractId. revert s Hreach.
  apply (reachable_rule
           (fun s => forall j, verified_indices j (events s)
                               = seqZ 0 (completedMilestones (contract s j)))
           (fun s0 id i m s =>
              forall j, verified_indices j (events s)
                        = seqZ 0 (if decide (j = id) then i
                                  else completedMilestones (contract s j)))).
  - intros j. reflexivity.
  - intros s sender value ca re ls vs r s' Hs HI Hc j.
    apply createContract_post in Hc as (_ & Hr & ->); [|assumption].
    cbn [events]. rewrite verified_indices_app, HI; simpl. rewrite app_nil_r.
    rewrite contract_sstore. case_decide; [|reflexivity].
    subst j r. simpl. rewrite blank_count; [reflexivity|assumption|lia].
  - intros s sender id u s' Hs HI Ha j.
    apply acceptContract_Ok in Ha as (_ & _ & ->).
    cbn [events]. rewrite verified_indices_app, HI; simpl. rewrite app_nil_r.
    rewrite contract_sstore. case_decide; [by subst|reflexivity].
  - intros s0 id i m s sender value ca re ls vs r s' Hs Hid HJ Hc j.
    apply createContract_post in Hc as (_ & Hr & ->); [|assumption].
    cbn [events]. rewrite verified_indices_app, HJ; simpl. rewrite app_nil_r.
    case_decide; [reflexivity|].
    rewrite contract_sstore. case_decide; [|reflexivity].
    subst j r. simpl. rewrite blank_count; [reflexivity|assumption|lia].
  - intros s0 id i m s sender id' u s' Hs Hid Hst HJ Ha j.
    apply acceptContract_Ok in Ha as (_ & _ & ->).
    cbn [events]. rewrite verified_indices_app, HJ; simpl. rewrite app_nil_r.
    case_decide; [reflexivity|].
    rewrite contract_sstore. case_decide; [by subst|reflexivity].
  - intros s sender id i qr m Hinv HI Hg j.
    destruct Hg as (_ & _ & Hord & _).
    unfold at_transfer. cbn [events lock]. rewrite HI.
    case_decide; [by subst|].
    rewrite contract_sstore. case_decide; [congruence|reflexivity].
  - intros s sender id i qr m mid Hinv Hg Hmid Hrec HJ j.
    pose proof Hg as (_ & Hi & _).
    rewrite contract_unlock_after.
    unfold unlock, after_transfer. cbn [events].
    rewrite verified_indices_app, HJ. simpl.
    destruct (Z.eqb_spec id j) as [->|Hne].
    + rewrite decide_True by reflexivity. rewrite Hrec. simpl.
      destruct Hg as (_ & _ & <- & _).
      replace (i + 1) with (Z.of_nat (S (Z.to_nat i))) by lia.
      rewrite seqZ_S. rewrite !Z2Nat.id by lia. reflexivity.
    + rewrite decide_False by congruence. by rewrite app_nil_r.
Qed.

Lemma share_set_status c st index : share (set_status c st) index = share c index.
Proof. reflexivity. Qed.

(** X9.  In every reachable state every [PaymentReleased] event names the
    carrier of its contract and a milestone of that contract that is
    completed, and its amount is the milestone's share in closed form:
    [floor(payment / n)] for a milestone before the last,
    [payment - (n - 1) * floor(payment / n)] for the last.  No release is
    logged for any other address or for an identifier that was never
    created. *)
Theorem releases_go_to_carrier (s : State) (contractId to amount index : Z) :
  reachable keccak256 s ->
  PaymentReleased contractId to amount index ∈ events s ->
  let c := contract s contractId in
  0 <= contractId < nextContractId s /\
  to = carrier c /\
  0 <= index < completedMilestones c /\
  amount = share c index /\
  0 <= amount.
Proof.
  intros Hreach Hin c.
  set (P := fun (s : State) =>
              forall id to amount index,
                PaymentReleased id to amount index ∈ events s ->
                to = carrier (contract s id) /\
                0 <= index < completedMilestones (contract s id) /\
                amount = share (contract s id) index).
  assert (P s) as HP.
  { clear Hin c. revert s Hreach.
    apply (reachable_rule P (fun _ _ _ _ s => P s)).
    - intros id to0 a idx H. by apply elem_of_nil in H.
    - intros s sender value ca re ls vs r s' Hs HI Hc id to0 a idx H.
      apply createContract_post in Hc as (_ & Hr & ->); [|assumption].
      cbn [events] in H. apply elem_of_app in H as [H|H];
        [|apply list_elem_of_singleton in H; discriminate].
      destruct (HI _ _ _ _ H) as (Hto & Hidx & Ha).
      rewrite contract_sstore. case_decide; [|auto].
      subst id r. rewrite blank_count in Hidx; [lia|assumption|lia].
    - intros s sender id' u s' Hs HI Ha id to0 a idx H.
      apply acceptContract_Ok in Ha as (_ & _ & ->).
      cbn [events] in H. apply elem_of_app in H as [H|H];
        [|apply list_elem_of_singleton in H; discriminate].
      destruct (HI _ _ _ _ H) as (Hto & Hidx & Ha).
      rewrite contract_sstore. case_decide; [|auto]. subst id'. auto.
    - intros s0 id0 i m s sender value ca re ls vs r s' Hs Hid HJ Hc id to0 a idx H.
      apply createContract_post in Hc as (_ & Hr & ->); [|assumption].
      cbn [events] in H. apply elem_of_app in H as [H|H];
        [|apply list_elem_of_singleton in H; discriminate].
      destruct (HJ _ _ _ _ H) as (Hto & Hidx & Ha).
      rewrite contract_sstore. case_decide; [|auto].
      subst id r. rewrite blank_count in Hidx; [lia|assumption|lia].
    - intros s0 id0 i m s sender id' u s' Hs Hid Hst HJ Ha id to0 a idx H.
      apply acceptContract_Ok in Ha as (_ & _ & ->).
      cbn [events] in H. apply elem_of_app in H as [H|H];
        [|apply list_elem_of_singleton in H; discriminate].
      destruct (HJ _ _ _ _ H) as (Hto & Hidx & Ha).
      rewrite contract_sstore. case_decide; [|auto]. subst id'. auto.
    - intros s sender id0 i qr m Hinv HI Hg id to0 a idx H.
      unfold at_transfer in *. cbn [events lock] in H.
      destruct (HI _ _ _ _ H) as (Hto & Hidx & Ha).
      rewrite contract_sstore. case_decide; [|auto]. subst id0.
      change (contract (lock s) id) with (contract s id).
      unfold verified, share.
      cbn [carrier payment milestones completedMilestones]. rewrite len_insert.
      split; [assumption|]. split; [lia|exact Ha].
    - intros s sender id0 i qr m mid Hinv Hg Hmid Hrec HJ id to0 a idx H.
      rewrite !contract_unlock_after.
      unfold unlock, after_transfer in H. cbn [events] in H.
      apply elem_of_app in H as [H|H]; [by apply HJ|].
      apply elem_of_cons in H as [H|H];
        [|apply list_elem_of_singleton in H; discriminate].
      injection H as -> -> -> ->.
      change (contract (lock s) id0) with (contract s id0).
      split; [reflexivity|]. rewrite Hrec.
      pose proof Hg as (Hst & Hi & Hord & Hm & _).
      pose proof (guards_in_registry _ _ _ _ _ _ (proj1 Hinv) Hg) as Hid.
      destruct Hinv as ([_ Hr _] & _ & _).
      destruct (Hr _ Hid) as [_ _ _ _ Hrun _ _].
      destruct Hrun as [_ Hrel]; [congruence|].
      split; [unfold verified; cbn [completedMilestones]; lia|].
      unfold amount_due, release_rule, share, verified.
      cbn [payment milestones releasedAmount]. rewrite len_insert.
      destruct (Z.eqb_spec i (len (milestones (contract s id0)) - 1)) as [E|E];
        [|reflexivity].
      rewrite Hrel, <- Hord, <- E. reflexivity. }
  destruct (HP _ _ _ _ Hin) as (Hto & Hidx & Ha). fold c in Hto, Hidx, Ha.
  pose proof (reachable_invariant _ Hreach) as (Hs & _ & _).
  assert (0 <= contractId < nextContractId s) as Hid.
  { destruct (decide (0 <= contractId < nextContractId s)) as [|Hout]; [assumption|].
    pose proof (blank_count s contractId Hs Hout). fold c in H. lia. }
  split; [assumption|]. split; [assumption|]. split; [assumption|].
  split; [assumption|].
  destruct Hs as [_ Hr _]. destruct (Hr _ Hid) as [Hp Hn _ _ _ _ _].
  fold c in Hp, Hn. rewrite Ha. unfold share.
  pose proof (Z.mul_div_le (payment c) (len (milestones c)) Hn).
  assert (0 <= payment c / len (milestones c)) by (apply Z.div_pos; lia).
  destruct (_ =? _); nia.
Qed.


(** * A whole delivery *)

Lemma new_milestones_at contractId locations verifiers j l v :
  locations !! j = Some l -> verifiers !! j = Some v ->
  new_milestones keccak256 contractId locations verifiers !! j
  = Some (mkMilestone (keccak256 (encodePacked contractId l v)) l v false).
Proof.
  revert verifiers j. induction locations as [|l0 ls IH]; intros [|v0 vs] [|j]; simpl;
    try discriminate.
  - by intros [= ->] [= ->].
  - apply IH.
Qed.

Lemma acceptContract_run sender contractId s :
  carrier (contract s contractId) = sender ->
  status (contract s contractId) = CREATED ->
  acceptContract sender contractId s
  = Ok (tt, mkState (<[contractId := set_status (contract s contractId) ACTIVE]>
                       (contracts s))
                    (nextContractId s) (entered s)
                    (events s ++ [ContractAccepted contractId sender])
                    (transfers s)).
Proof.
  intros Hc Hst. unfold acceptContract.
  rewrite (bind_run _ _ s (contract s contractId) s) by reflexivity.
  apply Z.eqb_eq in Hc. rewrite Hc.
  rewrite (bind_run _ _ s tt s) by reflexivity.
  apply Status_eqb_eq in Hst. rewrite Hst.
  reflexivity.
Qed.

Lemma transferred_app to ts ts' :
  transferred to (ts ++ ts') = transferred to ts + transferred to ts'.
Proof.
  induction ts as [|[a v] ts IH]; simpl; [reflexivity|]. rewrite IH. lia.
Qed.

Lemma verify_steps_run (k : Callee) (contractId : Z) (locations : list string) :
  forall (verifiers : list Z) (s : State) (j : Z),
    reachable keccak256 s -> sent k = true ->
    length locations = length verifiers -> locations <> [] ->
    let c := contract s contractId in
    status c = ACTIVE -> completedMilestones c = j -> 0 <= j ->
    payment c <= uint256_max -> len (milestones c) <= uint256_max ->
    len (milestones c) = j + len locations ->
    (forall t l v,
        locations !! t = Some l -> verifiers !! t = Some v ->
        exists m, milestones c !! (Z.to_nat j + t)%nat = Some m /\
                  location m = l /\ verifier m = v) ->
    let s' := fold_left (transact keccak256)
                (verify_steps contractId j locations verifiers k) s in
    let c' := contract s' contractId in
    reachable keccak256 s' /\
    status c' = COMPLETED /\
    shipper c' = shipper c /\ carrier c' = carrier c /\ recipient c' = recipient c /\
    payment c' = payment c /\ len (milestones c') = len (milestones c) /\
    forall who,
      transferred who (transfers s')
      = transferred who (transfers s)
        + (if carrier c =? who then payment c - releasedAmount c else 0).
Proof.
  induction locations as [|l ls IH]; intros verifiers s j Hreach Hsent Hlen Hne;
    [congruence|].
  destruct verifiers as [|v vs]; [discriminate|].
  intros c Hst Hcount Hj Hpmax Hnmax Hn Hms. cbn [verify_steps fold_left].
  set (tx := mkTx (VerifyMilestone v contractId j (encodePacked contractId l v)) k).
  pose proof (reachable_invariant _ Hreach) as Hinv.
  pose proof Hinv as (Hs & _ & Hent).
  destruct (Hms 0%nat l v eq_refl eq_refl) as (m & Hm & Hl & Hv).
  rewrite Nat.add_0_r in Hm.
  assert (0 <= contractId < nextContractId s) as Hid.
  { destruct (decide (0 <= contractId < nextContractId s)) as [|Hid]; [assumption|].
    destruct Hs as [_ _ Hb]. specialize (Hb _ Hid). fold c in Hb.
    rewrite Hb in Hm. discriminate. }
  assert (commitment_ok keccak256 (encodePacked contractId l v) m = true) as Hqr.
  { destruct Hs as [_ Hr _]. destruct (Hr _ Hid) as [_ _ _ _ _ _ Hok].
    destruct (Hok _ _ Hm) as [_ Hhash].
    unfold commitment_ok. apply Z.eqb_eq. by rewrite Hhash, Hl, Hv. }
  pose proof (guards_hold s v contractId j (encodePacked contractId l v) m Hs
                Hpmax Hnmax Hst Hj (eq_sym Hcount) Hm Hv Hqr) as Hg.
  destruct (guarded_run_succeeds s v contractId j (encodePacked contractId l v) m k
              Hs Hent Hg Hsent) as (s1 & Hrun).
  assert (transact keccak256 s tx = s1) as Htx.
  { unfold transact, commit, tx. by rewrite Hrun. }
  pose proof (reachable_transact s tx Hreach) as Hreach1. rewrite Htx in Hreach1.
  pose proof (verifyMilestone_transfers _ _ _ _ _ _ _ _ Hrun) as Hpaid.
  fold c in Hpaid.
  destruct (verify_tx _ _ _ _ _ _ _ _ Hinv Hrun)
    as (m0 & mid & Hg0 & _ & _ & _ & _ & Hrec & _ & _).
  assert (m0 = m) as ->.
  { destruct Hg0 as (_ & _ & _ & Hm0 & _). fold c in Hm0. congruence. }
  fold c in Hrec. rewrite Htx.
  assert (forall who,
             transferred who (transfers s1)
             = transferred who (transfers s)
               + (if carrier c =? who then amount_due c j else 0)) as Hstep.
  { intros who. rewrite Hpaid, transferred_app. simpl. lia. }
  destruct ls as [|l2 ls'].
  - destruct vs; [|discriminate]. cbn [verify_steps fold_left].
    split; [assumption|]. rewrite Hrec. unfold verified.
    cbn [status shipper carrier recipient payment milestones]. rewrite len_insert.
    assert ((j =? len (milestones c) - 1) = true) as Hlast.
    { apply Z.eqb_eq. rewrite Hn. unfold len; simpl. lia. }
    rewrite Hlast.
    do 6 (split; [reflexivity|]).
    intros who. rewrite Hstep. unfold amount_due, release_rule. by rewrite Hlast.
  - assert (j <> len (milestones c) - 1) as Hnotlast.
    { rewrite Hn. unfold len; simpl. lia. }
    destruct (IH vs s1 (j + 1)) as (Hr' & Hst' & Hsh & Hca & Hre & Hpa & Hle & Htr).
    + assumption.
    + assumption.
    + by injection Hlen.
    + discriminate.
    + rewrite Hrec. unfold verified. cbn [status].
      apply Z.eqb_neq in Hnotlast. by rewrite Hnotlast.
    + rewrite Hrec. unfold verified. cbn [completedMilestones]. lia.
    + lia.
    + rewrite Hrec. exact Hpmax.
    + rewrite Hrec. unfold verified. cbn [milestones]. by rewrite len_insert.
    + rewrite Hrec. unfold verified. cbn [milestones]. rewrite len_insert, Hn.
      unfold len. simpl length. lia.
    + intros t l' v' Hl' Hv'.
      destruct (Hms (S t) l' v' Hl' Hv') as (m' & Hm' & Hloc & Hver).
      exists m'. split; [|auto].
      rewrite Hrec. unfold verified. cbn [milestones].
      rewrite list_lookup_insert_ne by lia.
      replace (Z.to_nat (j + 1) + t)%nat with (Z.to_nat j + S t)%nat by lia.
      exact Hm'.
    + split; [assumption|]. split; [assumption|].
      rewrite Hsh, Hca, Hre, Hpa, Hle, Hrec. unfold verified.
      cbn [shipper carrier recipient payment milestones]. rewrite len_insert.
      do 5 (split; [reflexivity|]).
      intros who. rewrite Htr, Hstep, Hrec. unfold verified.
      cbn [carrier payment releasedAmount].
      destruct (carrier c =? who); lia.
Qed.

(** X10.  Every contract can be delivered.  From any reachable state, with
    a positive escrow, nonzero carrier and recipient, at least one location
    and as many verifiers, and a carrier account that accepts its transfers,
    the transactions of a delivery (the creation, the acceptance by the
    carrier, and the verification of every milestone in order by its
    verifier with the packed encoding of identifier, location and verifier)
    leave the contract COMPLETED with all its milestones verified; exactly
    the escrow has been logged as released and sent to the carrier, and no
    ether has been sent to any other address. *)
Theorem delivery_completes (s : State) (shipper_ carrier_ recipient_ : Z)
        (locations : list string) (verifiers : list Z) (payment_ : Z) (k : Callee) :
  reachable keccak256 s ->
  0 < payment_ <= uint256_max -> carrier_ <> 0 -> recipient_ <> 0 ->
  0 < len locations <= uint256_max -> len locations = len verifiers ->
  nextContractId s + 1 <= uint256_max -> sent k = true ->
  let contractId := nextContractId s in
  let s' := fold_left (transact keccak256)
              (delivery contractId shipper_ carrier_ recipient_ locations verifiers
                        payment_ k) s in
  getContract contractId s' =
    Ok ((shipper_, carrier_, recipient_, payment_, COMPLETED,
         len locations, len locations), s') /\
  released_total contractId (events s') = payment_ /\
  transferred carrier_ (transfers s') = transferred carrier_ (transfers s) + payment_ /\
  forall who, who <> carrier_ ->
              transferred who (transfers s') = transferred who (transfers s).
Proof.
  intros Hreach Hpay Hca Hre Hlocs Hlv Hnext Hsent contractId s'.
  pose proof (reachable_invariant _ Hreach) as (Hs & _ & _).
  destruct (createContract_succeeds shipper_ payment_ carrier_
              recipient_ locations verifiers s) as (s1 & Hcreate);
    [lia|assumption|assumption|lia|assumption|assumption|].
  set (tx1 := mkTx (CreateContract shipper_ payment_ carrier_
                      recipient_ locations verifiers) k).
  assert (transact keccak256 s tx1 = s1) as Htx1.
  { unfold transact, commit, run, tx1; simpl.
    by rewrite (bind_run _ _ s (nextContractId s) s1). }
  pose proof (reachable_transact s tx1 Hreach) as Hreach1. rewrite Htx1 in Hreach1.
  apply createContract_post in Hcreate as (_ & _ & Hs1); [|assumption].
  fold contractId in Hs1.
  set (c1 := mkContract shipper_ carrier_ recipient_ payment_ 0
                        CREATED
                        (new_milestones keccak256 contractId locations verifiers) 0).
  assert (contract s1 contractId = c1) as Hc1.
  { rewrite Hs1, contract_sstore. by rewrite decide_True. }
  assert (transfers s1 = transfers s) as Htr1 by (by rewrite Hs1).
  set (tx2 := mkTx (AcceptContract carrier_ contractId) k).
  pose proof (acceptContract_run carrier_ contractId s1) as Haccept.
  rewrite Hc1 in Haccept. specialize (Haccept eq_refl eq_refl).
  set (s2 := mkState (<[contractId := set_status c1 ACTIVE]> (contracts s1))
                     (nextContractId s1) (entered s1)
                     (events s1 ++ [ContractAccepted contractId carrier_])
                     (transfers s1)) in *.
  assert (transact keccak256 s1 tx2 = s2) as Htx2.
  { unfold transact, commit, run, tx2; simpl. by rewrite Haccept. }
  pose proof (reachable_transact s1 tx2 Hreach1) as Hreach2. rewrite Htx2 in Hreach2.
  assert (contract s2 contractId = set_status c1 ACTIVE) as Hc2.
  { unfold s2. rewrite contract_sstore. by rewrite decide_True. }
  assert (length locations = length verifiers) as Hlv' by (unfold len in Hlv; lia).
  assert (locations <> []) as Hne.
  { intros ->. unfold len in Hlocs. simpl in Hlocs. lia. }
  pose proof (verify_steps_run k contractId locations verifiers s2 0 Hreach2 Hsent
                Hlv' Hne) as Hrun.
  cbv zeta in Hrun.
  rewrite Hc2 in Hrun. cbn [set_status status completedMilestones payment milestones
                            shipper carrier recipient releasedAmount c1] in Hrun.
  assert (len (new_milestones keccak256 contractId locations verifiers)
          = len locations) as Hnm.
  { unfold len. by rewrite new_milestones_length. }
  rewrite Hnm in Hrun.
  specialize (Hrun eq_refl eq_refl).
  destruct Hrun as (Hreach' & Hst & Hsh & Hcar & Hrec & Hpa & Hn & Htr);
    [lia|lia|lia|lia| |].
  { intros t l v Hl Hv. eexists. split; [|split].
    - simpl. by apply new_milestones_at.
    - reflexivity.
    - reflexivity. }
  assert (s' = fold_left (transact keccak256)
                 (verify_steps contractId 0 locations verifiers k) s2) as Hs'.
  { unfold s', delivery. cbn [fold_left]. fold tx1. rewrite Htx1. fold tx2.
    by rewrite Htx2. }
  rewrite <- Hs' in Hreach', Hst, Hsh, Hcar, Hrec, Hpa, Hn, Htr. clearbody s'.
  pose proof (reachable_invariant _ Hreach') as (Hstore & [Hlog _] & _).
  assert (0 <= contractId < nextContractId s') as Hid.
  { destruct (decide (0 <= contractId < nextContractId s')) as [|Hid]; [assumption|].
    destruct Hstore as [_ _ Hb]. specialize (Hb _ Hid).
    rewrite Hb in Hn. unfold len in Hn, Hlocs. simpl in Hn. lia. }
  destruct Hstore as [_ Hr _]. destruct (Hr _ Hid) as [_ _ _ Hdone _ _ _].
  destruct (Hdone Hst) as [Hcount Hrel].
  assert (transfers s2 = transfers s) as Htr2 by (unfold s2; by rewrite <- Htr1).
  split; [|split; [|split]].
  - unfold getContract. rewrite (bind_run _ _ s' (contract s' contractId) s')
      by reflexivity.
    unfold ret. by rewrite Hsh, Hcar, Hrec, Hpa, Hst, Hcount, Hn.
  - by rewrite Hlog, Hrel, Hpa.
  - rewrite Htr, Htr2, Z.eqb_refl. lia.
  - intros who Hwho. rewrite Htr, Htr2.
    destruct (Z.eqb_spec carrier_ who); [congruence|lia].
Qed.

(** * Reading back, and identifiers that were never created *)

Lemma getMilestone_at contractId j m s :
  milestones (contract s contractId) !! j = Some m ->
  getMilestone contractId (Z.of_nat j) s
  = Ok ((location m, verifier m, completed m), s).
Proof.
  intros Hm. unfold getMilestone.
  rewrite (bind_run _ _ s (contract s contractId) s) by reflexivity.
  assert ((Z.of_nat j <? len (milestones (contract s contractId))) = true) as ->.
  { apply Z.ltb_lt. apply lookup_lt_Some in Hm. unfold len. lia. }
  rewrite (bind_run _ _ s tt s) by reflexivity.
  rewrite (bind_run _ _ s m s); [reflexivity|].
  apply index_lookup; [lia|]. by rewrite Nat2Z.id.
Qed.

(** X11.  What [createContract] stores is what the lookups return: right
    after a successful creation in a reachable state [getContract] returns
    the caller as shipper, the carrier, the recipient and the escrow given,
    status CREATED, one milestone per location and none completed, and
    [getMilestone] returns for every index the location and the verifier
    given at that index, not completed; the index after the last location
    is refused. *)
Theorem created_contract_readable (s : State) (msg_sender msg_value carrier_ recipient_ : Z)
        (locations : list string) (verifiers : list Z) (contractId : Z) (s' : State) :
  reachable keccak256 s ->
  createContract keccak256 msg_sender msg_value carrier_ recipient_
                 locations verifiers s = Ok (contractId, s') ->
  getContract contractId s' =
    Ok ((msg_sender, carrier_, recipient_, msg_value, CREATED, len locations, 0), s') /\
  (forall j l v,
      locations !! j = Some l -> verifiers !! j = Some v ->
      getMilestone contractId (Z.of_nat j) s' = Ok ((l, v, false), s')) /\
  getMilestone contractId (len locations) s' = Revert (Error "Invalid milestone").
Proof.
  intros Hreach Hcreate.
  pose proof (reachable_invariant _ Hreach) as (Hs & _ & _).
  apply createContract_post in Hcreate as ((_ & _ & _ & _ & Hlv) & _ & Hs');
    [|assumption].
  set (c := mkContract msg_sender carrier_ recipient_ msg_value 0 CREATED
                       (new_milestones keccak256 contractId locations verifiers) 0).
  assert (contract s' contractId = c) as Hc.
  { rewrite Hs', contract_sstore. by rewrite decide_True. }
  assert (len (milestones c) = len locations) as Hn.
  { unfold len, c; simpl. rewrite new_milestones_length; [reflexivity|].
    unfold len in Hlv. lia. }
  clear Hs'.
  split; [|split].
  - unfold getContract. rewrite (bind_run _ _ s' (contract s' contractId) s')
      by reflexivity.
    rewrite Hc. unfold ret. rewrite Hn. reflexivity.
  - intros j l v Hl Hv.
    rewrite (getMilestone_at contractId j
               (mkMilestone (keccak256 (encodePacked contractId l v)) l v false));
      [reflexivity|].
    rewrite Hc. unfold c. simpl. by apply new_milestones_at.
  - unfold getMilestone. rewrite (bind_run _ _ s' (contract s' contractId) s')
      by reflexivity.
    rewrite Hc, Hn, Z.ltb_irrefl. reflexivity.
Qed.

(** X12.  An identifier that was never created is inert.  In a reachable
    state, for an identifier at or above [nextContractId], [acceptContract]
    by any nonzero address is refused with "Not the carrier", and
    [verifyMilestone] by any caller, for any unsigned index and any data, is
    refused with "Invalid status" or "Invalid milestone"; both leave the
    state as it was. *)
Theorem unknown_contract_inert (s : State) (contractId : Z) :
  reachable keccak256 s ->
  nextContractId s <= contractId ->
  (forall sender k,
      sender <> 0 ->
      let tx := mkTx (AcceptContract sender contractId) k in
      run keccak256 tx s = Revert (Error "Not the carrier") /\
      transact keccak256 s tx = s) /\
  (forall sender i qrData k,
      0 <= i ->
      let tx := mkTx (VerifyMilestone sender contractId i qrData) k in
      (run keccak256 tx s = Revert (Error "Invalid status") \/
       run keccak256 tx s = Revert (Error "Invalid milestone")) /\
      transact keccak256 s tx = s).
Proof.
  intros Hreach Hid.
  pose proof (reachable_invariant _ Hreach) as ([Hn _ Hb] & _ & Hent).
  assert (blank (contract s contractId)) as Hblank by (apply Hb; lia).
  split.
  - intros sender k Hsender tx.
    assert (run keccak256 tx s = Revert (Error "Not the carrier")) as Hrun.
    { unfold run, tx; simpl. unfold acceptContract.
      rewrite (bind_run _ _ s (contract s contractId) s) by reflexivity.
      assert (carrier (contract s contractId) = 0) as ->
          by (rewrite Hblank; reflexivity).
      assert ((0 =? sender) = false) as -> by (apply Z.eqb_neq; lia).
      reflexivity. }
    split; [assumption|]. unfold transact, commit. by rewrite Hrun.
  - intros sender i qrData k Hi tx.
    assert (run keccak256 tx s =
            match verifyMilestone_body keccak256 (carrier_call keccak256 k)
                    sender contractId i qrData (lock s) with
            | Ok (a, s') => Ok (a, unlock s')
            | Revert f => Revert f
            end) as Hrun.
    { unfold run, tx; simpl. unfold verifyMilestone. by rewrite nonReentrant_run. }
    assert (run keccak256 tx s = Revert (Error "Invalid status") \/
            run keccak256 tx s = Revert (Error "Invalid milestone")) as Hfail.
    { rewrite Hrun.
      destruct (decide (status (contract s contractId) = ACTIVE)) as [Hst|Hst].
      - right. rewrite body_invalid_milestone; [reflexivity|exact Hst|].
        change (contract (lock s) contractId) with (contract s contractId).
        assert (milestones (contract s contractId) = []) as ->
            by (rewrite Hblank; reflexivity).
        unfold len; simpl. lia.
      - left. by rewrite body_invalid_status. }
    split; [assumption|]. unfold transact, commit.
    by destruct Hfail as [-> | ->].
Qed.


(** * The client's view of the registry *)


Lemma getContractDetails_eq contractId s :
  getContractDetails contractId s = Some (details_of (contract s contractId)).
Proof. reflexivity. Qed.

Lemma getMilestoneDetails_at contractId j m s :
  milestones (contract s contractId) !! j = Some m ->
  getMilestoneDetails contractId (Z.of_nat j) s = Some (milestone_view m).
Proof.
  intros Hm. unfold getMilestoneDetails. by rewrite (getMilestone_at _ _ m).
Qed.

Lemma js_Number_safe n : 0 <= n <= max_safe_integer -> js_Number n = n.
Proof.
  intros Hn. unfold js_Number, is_safe_integer.
  assert ((Z.abs n <=? max_safe_integer) = true) as -> by (apply Z.leb_le; lia).
  reflexivity.
Qed.

Lemma is_safe_integer_true n : 0 <= n <= max_safe_integer -> is_safe_integer n = true.
Proof. intros Hn. unfold is_safe_integer. apply Z.leb_le. lia. Qed.


Lemma load_milestones_all contractId s rest :
  forall pre acc,
    milestones (contract s contractId) = pre ++ rest ->
    len (milestones (contract s contractId)) <= max_safe_integer ->
    Forall (fun m => location m <> ""%string) rest ->
    load_milestones contractId (len pre) (length rest) s acc
    = inr (acc ++ map milestone_view rest).
Proof.
  induction rest as [|m rest IH]; intros pre acc Hms Hmax Hall; simpl.
  - by rewrite app_nil_r.
  - apply Forall_cons in Hall as [Hm Hall].
    rewrite is_safe_integer_true.
    2:{ rewrite Hms in Hmax. unfold len in *. rewrite length_app in Hmax.
        simpl in Hmax. lia. }
    cbn [negb].
    change (len pre) with (Z.of_nat (length pre)).
    rewrite (getMilestoneDetails_at _ _ m).
    2:{ rewrite Hms. by apply list_lookup_middle. }
    unfold milestone_view at 1.
    apply String.eqb_neq in Hm. rewrite Hm.
    replace (Z.of_nat (length pre) + 1) with (len (pre ++ [m]))
      by (unfold len; rewrite length_app; simpl; lia).
    rewrite (IH (pre ++ [m])); [|by rewrite <- app_assoc|assumption|assumption].
    by rewrite <- app_assoc.
Qed.


Lemma processedDetails_safe c :
  0 <= completedMilestones c <= len (milestones c) ->
  len (milestones c) <= max_safe_integer ->
  processedDetails (details_of c) = details_of c.
Proof.
  intros Hcount Hmax. unfold processedDetails, details_of.
  rewrite !js_Number_safe; [reflexivity|unfold len in *; lia..].
Qed.

Section ClientProperties.

Variable parseInt : string -> option Z.

Lemma loadContract_read (s : State) (text : string) (id : Z) (p : Page) :
  text <> ""%string -> parseInt text = Some id -> 0 <= id <= max_safe_integer ->
  let c := contract s id in
  0 <= completedMilestones c <= len (milestones c) ->
  len (milestones c) <= max_safe_integer ->
  loadContract parseInt text true s p
  = if carrier c =? 0 then mkPage not_found_or_invalid None []
    else if len (milestones c) =? 0
    then mkPage no_milestones (Some (details_of c)) []
    else match load_milestones id 0 (length (milestones c)) s [] with
         | inl e => mkPage e (Some (details_of c)) []
         | inr milestoneList => mkPage no_error (Some (details_of c)) milestoneList
         end.
Proof.
  intros Htext Hparse Hid c Hcount Hmax.
  unfold loadContract, validateContractId.
  apply String.eqb_neq in Htext. rewrite Htext, Hparse.
  assert ((id <? 0) = false) as -> by (apply Z.ltb_ge; lia).
  rewrite is_safe_integer_true by assumption.
  cbn [negb]. rewrite getContractDetails_eq. fold c.
  rewrite processedDetails_safe by assumption.
  change (details_carrier (details_of c)) with (carrier c).
  change (details_totalMilestones (details_of c)) with (len (milestones c)).
  cbv zeta. rewrite js_Number_safe by (unfold len in *; lia).
  replace (Z.to_nat (len (milestones c))) with (length (milestones c))
    by (unfold len; lia).
  reflexivity.
Qed.


Lemma loadContract_loaded (s : State) (text : string) (id : Z) (p : Page) :
  text <> ""%string -> parseInt text = Some id -> 0 <= id <= max_safe_integer ->
  let c := contract s id in
  carrier c <> 0 -> 0 < len (milestones c) <= max_safe_integer ->
  0 <= completedMilestones c <= len (milestones c) ->
  Forall (fun m => location m <> ""%string) (milestones c) ->
  loadContract parseInt text true s p
  = mkPage no_error (Some (details_of c)) (map milestone_view (milestones c)).
Proof.
  intros Htext Hparse Hid c Hcar Hn Hcount Hall.
  rewrite (loadContract_read s text id p Htext Hparse Hid); fold c;
    [|assumption|lia].
  apply Z.eqb_neq in Hcar. rewrite Hcar.
  assert ((len (milestones c) =? 0) = false) as -> by (apply Z.eqb_neq; lia).
  pose proof (load_milestones_all id s (milestones c) [] [] eq_refl (proj2 Hn) Hall)
    as Hok.
  change (len []) with 0 in Hok. by rewrite Hok.
Qed.

End ClientProperties.

Lemma loadContracts_from_spec s n :
  forall i id details,
    (id, details) ∈ loadContracts_from i n s ->
    i <= id < i + Z.of_nat n /\
    details = details_of (contract s id) /\ shipper (contract s id) <> 0.
Proof.
  induction n as [|n IH]; intros i id details Hin; cbn [loadContracts_from] in Hin.
  - by apply elem_of_nil in Hin.
  - rewrite getContractDetails_eq in Hin.
    change (details_shipper (details_of (contract s i)))
      with (shipper (contract s i)) in Hin.
    destruct (Z.eqb_spec (shipper (contract s i)) 0) as [E|E]; cbn [negb] in Hin.
    + apply IH in Hin as (Hrange & Hd & Hsh). split; [lia|auto].
    + apply elem_of_cons in Hin as [[= -> ->]|Hin].
      * split; [lia|]. auto.
      * apply IH in Hin as (Hrange & Hd & Hsh). split; [lia|auto].
Qed.

Lemma loadContracts_from_ids s limit n :
  forall i,
    0 <= i ->
    (forall id, 0 <= id -> shipper (contract s id) <> 0 <-> id < limit) ->
    map fst (loadContracts_from i n s)
    = seqZ i (Z.max 0 (Z.min (Z.of_nat n) (limit - i))).
Proof.
  induction n as [|n IH]; intros i Hi Hlimit; cbn [loadContracts_from].
  - rewrite seqZ_nil; [reflexivity|lia].
  - rewrite getContractDetails_eq.
    change (details_shipper (details_of (contract s i))) with (shipper (contract s i)).
    destruct (Z.eqb_spec (shipper (contract s i)) 0) as [E|E]; cbn [negb map fst].
    + assert (~ i < limit) by (intros Hlt; by apply Hlimit in Hlt).
      rewrite IH by (lia || assumption).
      rewrite !seqZ_nil; [reflexivity|lia|lia].
    + apply Hlimit in E; [|lia].
      rewrite IH by (lia || assumption).
      rewrite (seqZ_cons i) by lia. f_equal. f_equal. lia.
Qed.

(** X14.  The dashboard lists, in ascending order, contracts among the
    identifiers 0 to 9 only, each with the details [getContract] returns,
    and only contracts that were created.  When no contract was created from
    the zero address the list is exactly the first ten contracts of the
    registry, or all of them when there are fewer: a contract with an
    identifier of 10 or more is never listed. *)
Theorem loadContracts_first_ten (s : State) :
  reachable keccak256 s ->
  (forall id details,
      (id, details) ∈ loadContracts s ->
      0 <= id < Z.min 10 (nextContractId s) /\
      details = details_of (contract s id)) /\
  ((forall id, 0 <= id < nextContractId s -> shipper (contract s id) <> 0) ->
   map fst (loadContracts s) = seqZ 0 (Z.min 10 (nextContractId s))).
Proof.
  intros Hreach.
  pose proof (reachable_invariant _ Hreach) as ([Hn _ Hb] & _ & _).
  assert (forall id, ~ 0 <= id < nextContractId s -> shipper (contract s id) = 0)
    as Hblank.
  { intros id Hid. rewrite (Hb _ Hid). reflexivity. }
  split.
  - intros id details Hin.
    apply loadContracts_from_spec in Hin as (Hid & -> & Hsh).
    split; [|reflexivity].
    destruct (decide (0 <= id < nextContractId s)) as [|Hout]; [lia|].
    by apply Hblank in Hout.
  - intros Hshippers. unfold loadContracts.
    rewrite (loadContracts_from_ids s (nextContractId s)); [f_equal; lia|lia|].
    intros id Hid. split.
    + intros Hsh. destruct (decide (0 <= id < nextContractId s)) as [|Hout]; [lia|].
      by apply Hblank in Hout.
    + intros Hlt. apply Hshippers. lia.
Qed.


(** * From the creation form to the verification page *)

Lemma new_milestones_locations contractId locations verifiers :
  length locations = length verifiers ->
  map location (new_milestones keccak256 contractId locations verifiers) = locations.
Proof.
  revert verifiers. induction locations as [|l ls IH]; intros [|v vs] Hlen; simpl;
    try discriminate; [reflexivity|].
  f_equal. apply IH. by injection Hlen.
Qed.

Lemma created_id_created contractId sender ca re value :
  created_id [ContractCreated contractId sender ca re value] = contractId.
Proof. reflexivity. Qed.

Lemma existsb_is_empty texts :
  existsb is_empty texts = false -> Forall (fun text => text <> ""%string) texts.
Proof.
  induction texts as [|t ts IH]; simpl; [constructor|].
  intros [Ht Hts]%orb_false_iff. constructor; [|by apply IH].
  by apply String.eqb_neq.
Qed.

Section FormProperties.

Variable parseInt : string -> option Z.
Variable parseEther : string -> option Z.
Variable resolveAddress : string -> option Z.

(** X18.  A contract created through the form can always be read in the
    verification page.  When the registry holds at most 2^53 - 1 contracts
    and the form has fewer than 2^32 rows (the bound of a JavaScript array),
    and submitting the form in a reachable state shows an identifier, that
    identifier is the one the contract allocated (never the fallback 0 of
    the receipt parser, and not rounded by [Number]), and loading it in the
    page gives no error and lists one milestone per row of the form, with
    the locations as typed and none completed. *)
Theorem form_contract_loads (s : State) (f : Form) (signer id : Z) (s' : State)
        (text : string) (p : Page) :
  reachable keccak256 s ->
  nextContractId s <= max_safe_integer -> len (form_milestones f) < 2 ^ 32 ->
  submit_form keccak256 parseEther resolveAddress f signer s = (Some id, s') ->
  text <> ""%string -> parseInt text = Some id ->
  let c := contract s' id in
  let p' := loadContract parseInt text true s' p in
  id = nextContractId s /\
  reachable keccak256 s' /\
  p' = mkPage no_error (Some (details_of c)) (map milestone_view (milestones c)) /\
  shipper c = signer /\ status c = CREATED /\
  map (fun view => view.1.1) (page_milestones p') = map fst (form_milestones f) /\
  Forall (fun view => view.2 = false) (page_milestones p').
Proof.
  intros Hreach Hsafe Hrows32 Hsubmit Htext Hparse c p'.
  pose proof (reachable_invariant _ Hreach) as ([Hnext _ _] & _ & _).
  unfold submit_form, handleSubmit in Hsubmit.
  destruct (is_empty (form_carrier f) || is_empty (form_recipient f)
            || is_empty (form_payment f)); [discriminate|].
  destruct (existsb is_empty (map fst (form_milestones f))
            || existsb is_empty (map snd (form_milestones f))) eqn:Hrows;
    [discriminate|].
  apply orb_false_iff in Hrows as [Hlocs _].
  apply existsb_is_empty in Hlocs.
  unfold lib_createContract in Hsubmit.
  destruct (parseEther (form_payment f)) as [paymentWei|]; [|discriminate].
  destruct (resolveAddress (form_carrier f)) as [ca|]; [|discriminate].
  destruct (resolveAddress (form_recipient f)) as [re|]; [|discriminate].
  destruct (mapM resolveAddress (map snd (form_milestones f))) as [vs|] eqn:Hvs;
    [|discriminate].
  destruct (createContract keccak256 signer paymentWei ca re
              (map fst (form_milestones f)) vs s) as [[r s1]|] eqn:Hcreate;
    [|discriminate].
  injection Hsubmit as Hid <-.
  set (tx := mkTx (CreateContract signer paymentWei ca re
                     (map fst (form_milestones f)) vs) quiet).
  assert (transact keccak256 s tx = s1) as Htx.
  { unfold transact, commit, run, tx; simpl.
    by rewrite (bind_run _ _ s r s1). }
  pose proof (reachable_transact s tx Hreach) as Hreach1. rewrite Htx in Hreach1.
  pose proof (reachable_invariant _ Hreach) as (Hs & _ & _).
  apply createContract_post in Hcreate as ((_ & Hca & _ & Hls & Hlv) & Hr & Hs1);
    [|assumption].
  assert (id = r) as ->.
  { rewrite <- Hid, Hs1. cbn [events]. rewrite drop_app_length.
    rewrite created_id_created. apply js_Number_safe. lia. }
  set (c1 := mkContract signer ca re paymentWei 0 CREATED
               (new_milestones keccak256 r (map fst (form_milestones f)) vs) 0).
  assert (c = c1) as Hc.
  { unfold c. rewrite Hs1, contract_sstore. by rewrite decide_True. }
  assert (length (map fst (form_milestones f)) = length vs) as Hlen
      by (unfold len in Hlv; lia).
  assert (map location (milestones c) = map fst (form_milestones f)) as Hlocations.
  { rewrite Hc. unfold c1. cbn [milestones]. by apply new_milestones_locations. }
  assert (Forall (fun m => location m <> ""%string) (milestones c)) as Hall.
  { rewrite <- Hlocations in Hlocs.
    exact (proj1 (Forall_map location (fun text => text <> ""%string) _) Hlocs). }
  assert (Forall (fun m => completed m = false) (milestones c)) as Hfresh.
  { rewrite Hc. unfold c1. cbn [milestones]. apply Forall_lookup. intros j m Hm.
    by apply new_milestones_lookup in Hm as [Hm _]. }
  assert (len (milestones c) = len (form_milestones f)) as Hcount.
  { rewrite Hc. unfold c1, len. cbn [milestones].
    rewrite new_milestones_length by assumption. by rewrite length_map. }
  assert (2 ^ 32 <= max_safe_integer) as Hbound by (vm_compute; discriminate).
  assert (p' = mkPage no_error (Some (details_of c))
                      (map milestone_view (milestones c))) as Hp'.
  { unfold p'. apply loadContract_loaded; try assumption.
    - lia.
    - fold c. rewrite Hc. exact Hca.
    - fold c. rewrite Hcount. unfold len in *. rewrite length_map in Hls. lia.
    - fold c. rewrite Hcount. rewrite Hc. unfold c1. cbn [completedMilestones].
      unfold len. lia. }
  split; [assumption|]. split; [assumption|]. split; [assumption|].
  split; [by rewrite Hc|]. split; [by rewrite Hc|].
  rewrite Hp'. cbn [page_milestones]. split.
  - rewrite <- Hlocations. rewrite map_map. reflexivity.
  - exact (proj2 (Forall_map milestone_view (fun view => view.2 = false) _) Hfresh).
Qed.

End FormProperties.


End Properties.

(** * Properties of the first generation *)

Section LegacyProperties.

Import Legacy.

Variable keccak256 : list byte -> Z.

Lemma legacy_callee_ind (P : Callee -> Prop) :
  (forall calls sent_, Forall (fun ck => P ck.2) calls -> P (mkCallee calls sent_)) ->
  forall k, P k.
Proof.
  intros H. fix IH 1. intros [calls sent_]. apply H.
  induction calls as [|[call k'] rest IHrest].
  - constructor.
  - constructor; [exact (IH k')|exact IHrest].
Qed.

Lemma legacy_carrier_call_eq calls sent_ to amount s :
  carrier_call keccak256 (mkCallee calls sent_) to amount s
  = if sent_ then (true, fold_left (transact keccak256) calls s) else (false, s).
Proof.
  simpl. destruct sent_; [|reflexivity]. f_equal.
  revert s. induction calls as [|[call k'] rest IH]; intros s; [reflexivity|].
  simpl. apply IH.
Qed.

Lemma legacy_contract_sstore contractId c s j :
  contract (sstore contractId c s) j = if decide (contractId = j) then c else contract s j.
Proof.
  unfold contract, sstore; simpl. rewrite lookup_insert. by case_decide.
Qed.

Lemma legacy_contract_create s r c n e j :
  contract (mkState (<[r := c]> (contracts s)) n e) j
  = if decide (r = j) then c else contract s j.
Proof.
  unfold contract; simpl. rewrite lookup_insert. by case_decide.
Qed.

Lemma legacy_contract_emit e s j : contract (emit e s) j = contract s j.
Proof. reflexivity. Qed.

Lemma legacy_released_total_app contractId evs evs' :
  released_total contractId (evs ++ evs') =
  released_total contractId evs + released_total contractId evs'.
Proof.
  induction evs as [|e evs IH]; simpl; [reflexivity|].
  destruct e; rewrite ?IH; lia.
Qed.

Lemma legacy_new_milestones_length contractId now locations verifiers :
  length locations = length verifiers ->
  length (new_milestones keccak256 contractId now locations verifiers) = length locations.
Proof.
  revert verifiers. induction locations as [|l ls IH]; intros [|v vs]; simpl;
    try discriminate; auto.
Qed.

Lemma legacy_new_milestones_count contractId now locations verifiers :
  completed_count (new_milestones keccak256 contractId now locations verifiers) = 0.
Proof.
  revert verifiers. induction locations as [|l ls IH]; intros [|v vs]; simpl;
    try reflexivity. by rewrite IH.
Qed.

Lemma legacy_count_insert ms : forall i m,
  ms !! i = Some m -> completed m = false ->
  completed_count (<[i := set_completed m]> ms) = completed_count ms + 1.
Proof.
  induction ms as [|m0 ms IH]; intros [|i] m Hm Hc; simpl in *; try discriminate.
  - injection Hm as ->. rewrite Hc. lia.
  - rewrite (IH _ _ Hm Hc). lia.
Qed.

Lemma legacy_count_bound ms : 0 <= completed_count ms <= len ms.
Proof.
  unfold len. induction ms as [|m ms IH]; simpl length; simpl completed_count; [lia|].
  destruct (completed m); lia.
Qed.

(** What a successful [createContract] returns. *)
Lemma legacy_create_Ok sender value now ca re ls vs s r s' :
  createContract keccak256 sender value now ca re ls vs s = Ok (r, s') ->
  0 < value /\ ca <> 0 /\ re <> 0 /\ 0 < len ls /\ len ls = len vs /\
  r = nextContractId s /\
  s' = mkState
         (<[r := mkContract sender ca re value CREATED
                   (milestones (contract s r) ++ new_milestones keccak256 r now ls vs)
                   (completedMilestones (contract s r))]> (contracts s))
         (nextContractId s + 1)
         (events s ++ [ContractCreated r sender ca re value]).
Proof.
  unfold createContract. intros H.
  destruct (Z.ltb_spec 0 value); [|discriminate].
  destruct (Z.eqb_spec ca 0); [discriminate|].
  destruct (Z.eqb_spec re 0); [discriminate|].
  destruct (Z.ltb_spec 0 (len ls)); [|discriminate].
  destruct (Z.eqb_spec (len ls) (len vs)); [|discriminate].
  destruct (Z.leb_spec (nextContractId s + 1) uint256_max); [|discriminate].
  cbn [negb] in H. injection H as <- <-. auto 10.
Qed.

Lemma legacy_accept_Ok sender contractId s u s' :
  acceptContract sender contractId s = Ok (u, s') ->
  carrier (contract s contractId) = sender /\
  status (contract s contractId) = CREATED /\
  s' = emit (ContractAccepted contractId sender)
         (sstore contractId (set_status (contract s contractId) ACCEPTED) s).
Proof.
  unfold acceptContract. intros H.
  destruct (Z.eqb_spec (carrier (contract s contractId)) sender); [|discriminate].
  case_bool_decide; [|discriminate].
  cbn [negb] in H. injection H as _ <-. auto.
Qed.

(** What a successful [verifyMilestone] has checked and written. *)
Lemma legacy_verify_Ok transfer sender contractId i qr s u s' :
  verifyMilestone keccak256 transfer sender contractId i qr s = Ok (u, s') ->
  let c := contract s contractId in
  exists m,
    (status c = ACCEPTED \/ status c = IN_TRANSIT) /\
    0 <= i < len (milestones c) /\
    milestones c !! Z.to_nat i = Some m /\
    completed m = false /\ verifier m = sender /\ keccak256 qr = qrHash m /\
    completedMilestones c + 1 <= uint256_max /\
    ((i = 0 /\
      exists loc,
        s' = emit (MilestoneVerified contractId i loc sender)
               (sstore contractId (set_status (mark_completed c i m) IN_TRANSIT) s)) \/
     (i <> 0 /\ i = len (milestones c) - 1 /\
      exists s2 loc,
        transfer (carrier c) (payment c)
          (sstore contractId (set_status (mark_completed c i m) DELIVERED) s)
        = (true, s2) /\
        s' = emit (MilestoneVerified contractId i loc sender)
               (emit (PaymentReleased contractId (carrier (contract s2 contractId))
                        (payment (contract s2 contractId))) s2)) \/
     (i <> 0 /\ i <> len (milestones c) - 1 /\
      exists loc,
        s' = emit (MilestoneVerified contractId i loc sender)
               (sstore contractId (mark_completed c i m) s))).
Proof.
  intros H c. unfold verifyMilestone in H. fold c in H.
  destruct (bool_decide (status c = ACCEPTED) || bool_decide (status c = IN_TRANSIT))
    eqn:Hst; [|discriminate].
  destruct (Z.ltb_spec i (len (milestones c))) as [Hlt|]; [|discriminate].
  cbn [negb] in H.
  destruct (Z.leb_spec 0 i) as [Hi|]; [|discriminate].
  destruct (milestones c !! Z.to_nat i) as [m|] eqn:Hm; [|discriminate].
  destruct (completed m) eqn:Hdone; [discriminate|].
  destruct (Z.eqb_spec (verifier m) sender) as [Hver|]; [|discriminate].
  destruct (Z.eqb_spec (keccak256 qr) (qrHash m)) as [Hqr|]; [|discriminate].
  destruct (Z.leb_spec (completedMilestones c + 1) uint256_max) as [Hmax|];
    [|discriminate].
  cbn [negb] in H.
  exists m.
  split.
  { apply orb_true_iff in Hst as [Hst|Hst]; apply bool_decide_eq_true in Hst; auto. }
  split; [lia|]. split; [reflexivity|]. split; [assumption|].
  split; [assumption|]. split; [assumption|]. split; [assumption|].
  destruct (Z.eqb_spec i 0) as [Hzero|Hzero].
  - left. split; [assumption|]. injection H as _ <-. eauto.
  - destruct (Z.eqb_spec i (len (milestones c) - 1)) as [Hlast|Hlast].
    + right. left. split; [assumption|]. split; [assumption|].
      destruct (transfer _ _ _) as [ok s2] eqn:Htransfer.
      destruct ok; [|discriminate]. cbn [negb] in H. injection H as _ <-. eauto.
    + right. right. split; [assumption|]. split; [assumption|].
      injection H as _ <-. eauto.
Qed.

Lemma legacy_record_mark c i m st :
  record_ok c -> milestones c !! Z.to_nat i = Some m -> completed m = false ->
  st <> DISPUTED -> (st = DELIVERED -> 2 <= len (milestones c)) ->
  record_ok (set_status (mark_completed c i m) st).
Proof.
  intros [Hp Hn Hc Hs Hd] Hm Hdone Hst Hdel.
  constructor; simpl; rewrite ?len_insert; try assumption.
  rewrite (legacy_count_insert _ _ _ Hm Hdone). lia.
Qed.

Lemma legacy_set_status_same c : set_status c (status c) = c.
Proof. by destruct c. Qed.

Lemma legacy_not_blank c i m :
  milestones c !! i = Some m -> ~ blank c.
Proof. intros Hm [Hb _]. rewrite Hb in Hm. discriminate. Qed.

(** Every call, made by anyone at any depth of reentrancy, keeps the
    invariant. *)
Lemma legacy_transact_ok k :
  forall call pending s,
    state_ok pending s -> state_ok pending (transact keccak256 s (call, k)).
Proof.
  induction k as [calls sent_ IHcalls] using legacy_callee_ind.
  assert (forall pending s,
             state_ok pending s ->
             state_ok pending (fold_left (transact keccak256) calls s)) as Hfold.
  { clear sent_. induction calls as [|[call k'] rest IH]; intros pending s Hs;
      [assumption|].
    apply Forall_cons in IHcalls as [Hk' Hrest]. simpl.
    apply IH; [assumption|]. by apply Hk'. }
  clear IHcalls.
  intros call pending s Hs. unfold transact, commit. cbn [fst snd].
  destruct (dispatch _ _ _ _) as [[u s']|f] eqn:Hrun; [|assumption].
  pose proof Hs as [Hn Hr Hb Hp Hl].
  destruct call as [sender value now ca re ls vs|sender id|sender id i qr];
    cbn [dispatch] in Hrun.
  - (* createContract *)
    destruct (createContract _ _ _ _ _ _ _ _ _) as [[r s1]|] eqn:Hcreate;
      [|discriminate].
    injection Hrun as _ <-.
    apply legacy_create_Ok in Hcreate as (Hv & _ & _ & Hls & Hlv & -> & ->).
    assert (blank (contract s (nextContractId s))) as [Hblank Hbst]
        by (apply Hb; lia).
    assert (forall j, status (contract s j) = DELIVERED -> j <> nextContractId s)
      as Hfresh.
    { intros j Hj ->. destruct Hbst as [E|E]; rewrite E in Hj; discriminate. }
    constructor; cbn [nextContractId events contracts].
    + lia.
    + intros j Hj. rewrite legacy_contract_create.
      case_decide as E.
      * simpl. rewrite Hblank. simpl.
        constructor; simpl.
        -- assumption.
        -- unfold len. rewrite legacy_new_milestones_length; unfold len in *; lia.
        -- by rewrite legacy_new_milestones_count.
        -- discriminate.
        -- discriminate.
      * apply Hr. lia.
    + intros j Hj. rewrite legacy_contract_create.
      case_decide as E; [lia|]. apply Hb. lia.
    + intros j Hj. destruct (Hp j Hj) as [Hst Hrel].
      rewrite legacy_contract_create.
      case_decide as E; [by apply Hfresh in Hst|].
      split; [exact Hst|]. rewrite legacy_released_total_app. simpl. lia.
    + intros j Hj. specialize (Hl j Hj).
      rewrite legacy_released_total_app. simpl.
      rewrite legacy_contract_create.
      destruct (decide (nextContractId s = j)) as [E|E].
      * subst j. simpl. rewrite Hl.
        case_decide as Hd; [by apply Hfresh in Hd|]. lia.
      * rewrite Hl. lia.
  - (* acceptContract *)
    apply legacy_accept_Ok in Hrun as (Hcar & Hst & ->).
    constructor; cbn [nextContractId events contracts emit sstore].
    + assumption.
    + intros j Hj. rewrite legacy_contract_emit, legacy_contract_sstore.
      case_decide as E; [|by apply Hr]. subst j.
      destruct (Hr id Hj) as [? ? ? ? ?]. constructor; simpl; try assumption;
        discriminate.
    + intros j Hj. rewrite legacy_contract_emit, legacy_contract_sstore.
      case_decide as E; [|by apply Hb]. subst j.
      destruct (Hb id Hj) as [Hblank _]. split; [|by right].
      rewrite Hblank. reflexivity.
    + intros j Hj. destruct (Hp j Hj) as [Hd Hrel].
      rewrite legacy_contract_emit, legacy_contract_sstore.
      case_decide as E; [subst j; congruence|].
      split; [exact Hd|]. rewrite legacy_released_total_app. simpl. lia.
    + intros j Hj. specialize (Hl j Hj).
      rewrite legacy_contract_emit, legacy_contract_sstore.
      rewrite legacy_released_total_app. simpl.
      destruct (decide (id = j)) as [E|E].
      * subst j. simpl. rewrite Hl, Hst.
        rewrite decide_False by discriminate. reflexivity.
      * rewrite Hl. lia.
  - (* verifyMilestone *)
    apply legacy_verify_Ok in Hrun
      as (m & Hst & Hi & Hm & Hdone & _ & _ & _ & Hbranch).
    set (c := contract s id) in *.
    assert (0 <= id < nextContractId s) as Hid.
    { destruct (decide (0 <= id < nextContractId s)) as [|Hout]; [assumption|].
      apply Hb in Hout. by apply (legacy_not_blank _ _ _ Hm) in Hout. }
    assert (status c <> DELIVERED) as Hnd by (destruct Hst as [-> | ->]; discriminate).
    assert (id ∉ pending) as Hnp.
    { intros Hin. destruct (Hp id Hin) as [Hd _]. contradiction. }
    assert (released_total id (events s) = 0) as Hzero.
    { rewrite (Hl id Hnp). fold c. by rewrite decide_False. }
    assert (forall st loc,
               st <> DISPUTED -> st <> DELIVERED ->
               state_ok pending
                 (emit (MilestoneVerified id i loc sender)
                    (sstore id (set_status (mark_completed c i m) st) s))) as Hplain.
    { intros st loc Hst1 Hst2.
      constructor; cbn [nextContractId events contracts emit sstore].
      + assumption.
      + intros j Hj. rewrite legacy_contract_emit, legacy_contract_sstore.
        case_decide as E; [|by apply Hr]. subst j.
        apply legacy_record_mark; [by apply Hr|assumption|assumption|assumption|].
        intros ->. contradiction.
      + intros j Hj. rewrite legacy_contract_emit, legacy_contract_sstore.
        case_decide as E; [subst j; contradiction|]. by apply Hb.
      + intros j Hj. destruct (Hp j Hj) as [Hd Hrel].
        rewrite legacy_contract_emit, legacy_contract_sstore.
        case_decide as E; [subst j; contradiction|].
        split; [exact Hd|]. rewrite legacy_released_total_app. simpl. lia.
      + intros j Hj. specialize (Hl j Hj).
        rewrite legacy_contract_emit, legacy_contract_sstore.
        rewrite legacy_released_total_app. simpl.
        destruct (decide (id = j)) as [E|E].
        * subst j. simpl. rewrite decide_False by assumption. lia.
        * rewrite Hl. lia. }
    destruct Hbranch as [(_ & loc & ->)|[(Hnz & Hlast & s2 & loc & Htr & ->)
                                        |(_ & _ & loc & ->)]].
    + apply Hplain; discriminate.
    + (* the last milestone: the record is DELIVERED while the carrier runs *)
      set (s1 := sstore id (set_status (mark_completed c i m) DELIVERED) s) in *.
      assert (state_ok (id :: pending) s1) as Hs1.
      { constructor; unfold s1; cbn [nextContractId events contracts sstore].
        + assumption.
        + intros j Hj. rewrite legacy_contract_sstore.
          case_decide as E; [|by apply Hr]. subst j.
          apply legacy_record_mark;
            [by apply Hr|assumption|assumption|discriminate|].
          intros _. lia.
        + intros j Hj. rewrite legacy_contract_sstore.
          case_decide as E; [subst j; contradiction|]. by apply Hb.
        + intros j Hj. rewrite legacy_contract_sstore.
          case_decide as E.
          * subst j. split; [reflexivity|assumption].
          * apply elem_of_cons in Hj as [->|Hj]; [congruence|]. by apply Hp.
        + intros j Hj. apply not_elem_of_cons in Hj as [Hne Hj].
          rewrite legacy_contract_sstore.
          destruct (decide (id = j)) as [E|E]; [congruence|]. by apply Hl. }
      rewrite legacy_carrier_call_eq in Htr.
      destruct sent_; [|discriminate]. injection Htr as <-.
      apply Hfold in Hs1. destruct Hs1 as [Hn2 Hr2 Hb2 Hp2 Hl2].
      destruct (Hp2 id) as [Hd2 Hrel2]; [by left|].
      constructor; cbn [nextContractId events contracts emit].
      * assumption.
      * assumption.
      * assumption.
      * intros j Hj. destruct (Hp2 j) as [Hd Hrel]; [by right|].
        split; [exact Hd|].
        rewrite !legacy_released_total_app. simpl.
        assert ((id =? j) = false) as -> by (apply Z.eqb_neq; congruence). lia.
      * intros j Hj. rewrite !legacy_released_total_app. simpl.
        rewrite !legacy_contract_emit.
        destruct (Z.eqb_spec id j) as [<-|Hne].
        -- rewrite Hrel2. rewrite decide_True by assumption. lia.
        -- rewrite Hl2 by (apply not_elem_of_cons; split; [congruence|assumption]).
           lia.
    + rewrite <- (legacy_set_status_same (mark_completed c i m)).
      apply Hplain; simpl.
      * by destruct Hst as [-> | ->].
      * assumption.
Qed.

Lemma legacy_initial_ok : state_ok [] initial.
Proof.
  constructor; simpl.
  - lia.
  - intros j Hj. lia.
  - intros j _. split; [reflexivity|by left].
  - intros j Hj. by apply elem_of_nil in Hj.
  - intros j _. reflexivity.
Qed.

Lemma legacy_reachable_ok s : reachable keccak256 s -> state_ok [] s.
Proof.
  intros [txs ->]. unfold run_all.
  induction txs as [|[call k] txs IH] using rev_ind.
  - apply legacy_initial_ok.
  - rewrite fold_left_app. simpl. by apply legacy_transact_ok.
Qed.


Lemma legacy_count_open ms i m :
  ms !! i = Some m -> completed m = false -> completed_count ms < len ms.
Proof.
  intros Hm Hdone.
  pose proof (legacy_count_bound (<[i := set_completed m]> ms)) as Hb.
  rewrite (legacy_count_insert _ _ _ Hm Hdone), len_insert in Hb. lia.
Qed.

(** No call, at any depth, touches a DELIVERED record. *)
Lemma legacy_transact_frozen k :
  forall call s contractId,
    0 <= contractId < nextContractId s ->
    status (contract s contractId) = DELIVERED ->
    contract (transact keccak256 s (call, k)) contractId = contract s contractId /\
    nextContractId s <= nextContractId (transact keccak256 s (call, k)).
Proof.
  induction k as [calls sent_ IHcalls] using legacy_callee_ind.
  assert (forall s contractId,
             0 <= contractId < nextContractId s ->
             status (contract s contractId) = DELIVERED ->
             contract (fold_left (transact keccak256) calls s) contractId
             = contract s contractId /\
             nextContractId s <= nextContractId (fold_left (transact keccak256) calls s))
    as Hfold.
  { clear sent_. induction calls as [|[call k'] rest IH]; intros s id0 Hid Hd;
      [simpl; split; [reflexivity|lia]|].
    apply Forall_cons in IHcalls as [Hk' Hrest]. simpl.
    destruct (Hk' call s id0 Hid Hd) as [Hsame Hnext]. cbn [snd] in Hsame, Hnext.
    destruct (IH Hrest (transact keccak256 s (call, k')) id0) as [Hsame' Hnext'].
    - lia.
    - by rewrite Hsame.
    - split; [by rewrite Hsame'|lia]. }
  clear IHcalls.
  intros call s id0 Hid Hd. unfold transact, commit. cbn [fst snd].
  destruct (dispatch _ _ _ _) as [[u s']|f] eqn:Hrun; [|split; [reflexivity|lia]].
  destruct call as [sender value now ca re ls vs|sender id|sender id i qr];
    cbn [dispatch] in Hrun.
  - destruct (createContract _ _ _ _ _ _ _ _ _) as [[r s1]|] eqn:Hcreate;
      [|discriminate].
    injection Hrun as _ <-.
    apply legacy_create_Ok in Hcreate as (_ & _ & _ & _ & _ & -> & ->).
    rewrite legacy_contract_create. cbn [nextContractId].
    split; [|lia]. destruct (decide (nextContractId s = id0)); [lia|reflexivity].
  - apply legacy_accept_Ok in Hrun as (_ & Hst & ->).
    rewrite legacy_contract_emit, legacy_contract_sstore. cbn [nextContractId emit sstore].
    split; [|lia]. destruct (decide (id = id0)) as [->|]; [congruence|reflexivity].
  - apply legacy_verify_Ok in Hrun as (m & Hst & _ & _ & _ & _ & _ & _ & Hbranch).
    assert (id <> id0) as Hne.
    { intros ->. destruct Hst as [Hst|Hst]; congruence. }
    destruct Hbranch as [(_ & loc & ->)|[(_ & _ & s2 & loc & Htr & ->)
                                        |(_ & _ & loc & ->)]].
    + rewrite legacy_contract_emit, legacy_contract_sstore. cbn [nextContractId emit sstore].
      split; [|lia]. by destruct (decide (id = id0)).
    + rewrite legacy_carrier_call_eq in Htr.
      destruct sent_; [|discriminate]. injection Htr as <-.
      rewrite !legacy_contract_emit. cbn [nextContractId emit].
      match goal with
      | |- context [fold_left _ calls ?s1] =>
          destruct (Hfold s1 id0) as [Hsame Hnext]
      end.
      * exact Hid.
      * rewrite legacy_contract_sstore. by destruct (decide (id = id0)).
      * rewrite Hsame, legacy_contract_sstore.
        split; [by destruct (decide (id = id0))|exact Hnext].
    + rewrite legacy_contract_emit, legacy_contract_sstore. cbn [nextContractId emit sstore].
      split; [|lia]. by destruct (decide (id = id0)).
Qed.

Lemma legacy_frozen_forever txs :
  forall s contractId,
    0 <= contractId < nextContractId s ->
    status (contract s contractId) = DELIVERED ->
    contract (fold_left (transact keccak256) txs s) contractId = contract s contractId.
Proof.
  induction txs as [|[call k] txs IH]; intros s id0 Hid Hd; [reflexivity|]. simpl.
  destruct (legacy_transact_frozen k call s id0 Hid Hd) as [Hsame Hnext].
  rewrite IH; [assumption|lia|by rewrite Hsame].
Qed.

Lemma legacy_reachable_transact s tx :
  reachable keccak256 s -> reachable keccak256 (transact keccak256 s tx).
Proof.
  intros [txs ->]. exists (txs ++ [tx]). unfold run_all. by rewrite fold_left_app.
Qed.

(** X15.  In the first generation the whole payment of a contract is logged
    as released exactly when the contract is DELIVERED, and nothing is
    logged before: the payment is released at most once, although
    [verifyMilestone] is open to reentrancy.  A contract is never DISPUTED,
    and only a contract with two milestones or more is ever DELIVERED. *)
Theorem legacy_payment_once (s : State) (contractId : Z) :
  reachable keccak256 s ->
  let c := contract s contractId in
  released_total contractId (events s)
  = (if decide (status c = DELIVERED) then payment c else 0) /\
  status c <> DISPUTED /\
  (status c = DELIVERED -> 2 <= len (milestones c)).
Proof.
  intros Hreach c. apply legacy_reachable_ok in Hreach as [Hn Hr Hb _ Hl].
  split; [apply Hl; by intros H%elem_of_nil|].
  destruct (decide (0 <= contractId < nextContractId s)) as [Hid|Hid].
  - destruct (Hr _ Hid) as [_ _ _ Hs Hd]. auto.
  - destruct (Hb _ Hid) as [_ Hst]. fold c in Hst.
    split; [by destruct Hst as [-> | ->]|].
    intros Hd. destruct Hst as [Hst|Hst]; congruence.
Qed.

(** X16.  In the first generation the escrow of a contract with a single
    milestone is never released: in every reachable state such a contract
    holds a positive payment, is not DELIVERED, and has no payment
    logged. *)
Theorem legacy_single_milestone_locked (s : State) (contractId : Z) :
  reachable keccak256 s ->
  let c := contract s contractId in
  len (milestones c) = 1 ->
  0 < payment c /\
  status c <> DELIVERED /\
  released_total contractId (events s) = 0.
Proof.
  intros Hreach c Hone. apply legacy_reachable_ok in Hreach as [Hn Hr Hb _ Hl].
  assert (0 <= contractId < nextContractId s) as Hid.
  { destruct (decide (0 <= contractId < nextContractId s)) as [|Hout]; [assumption|].
    destruct (Hb _ Hout) as [Hblank _]. fold c in Hblank.
    rewrite Hblank in Hone. discriminate. }
  destruct (Hr _ Hid) as [Hp _ _ _ Hd]. fold c in Hp, Hd.
  assert (status c <> DELIVERED) as Hnd by (intros H; apply Hd in H; lia).
  split; [assumption|]. split; [assumption|].
  rewrite Hl by (by intros H%elem_of_nil). fold c. by rewrite decide_False.
Qed.

(** X17.  The first generation does not check the order of the milestones.
    In a reachable state, for an accepted contract with two milestones or
    more, the verifier of the last milestone can verify it whatever the
    state of the milestones before it: the call succeeds when the carrier
    accepts the transfer, releases the whole payment and makes the contract
    DELIVERED.  From then on no transaction changes the record, so the
    milestones that were not verified stay unverified. *)
Theorem legacy_last_milestone_first (s : State) (contractId : Z) (m : Milestone)
        (qrData : list byte) (k : Callee) :
  reachable keccak256 s ->
  let c := contract s contractId in
  let last := len (milestones c) - 1 in
  let s' := transact keccak256 s
              (VerifyMilestone (verifier m) contractId last qrData, k) in
  status c = ACCEPTED \/ status c = IN_TRANSIT ->
  2 <= len (milestones c) <= uint256_max ->
  milestones c !! Z.to_nat last = Some m -> completed m = false ->
  keccak256 qrData = qrHash m -> sent k = true ->
  contract s' contractId = set_status (mark_completed c last m) DELIVERED /\
  released_total contractId (events s') = payment c /\
  forall txs,
    contract (fold_left (transact keccak256) txs s') contractId
    = contract s' contractId.
Proof.
  intros Hreach c last s' Hst Hn Hm Hdone Hqr Hsent.
  pose proof (legacy_reachable_ok _ Hreach) as [Hnext Hr Hb _ Hl].
  assert (0 <= contractId < nextContractId s) as Hid.
  { destruct (decide (0 <= contractId < nextContractId s)) as [|Hout]; [assumption|].
    apply Hb in Hout. by apply (legacy_not_blank _ _ _ Hm) in Hout. }
  destruct (Hr _ Hid) as [_ _ Hcount _ _]. fold c in Hcount.
  pose proof (legacy_count_open _ _ _ Hm Hdone) as Hopen.
  destruct k as [calls sent_]. simpl in Hsent. subst sent_.
  set (s1 := sstore contractId (set_status (mark_completed c last m) DELIVERED) s).
  assert (0 <= contractId < nextContractId s1 /\
          status (contract s1 contractId) = DELIVERED) as [Hid1 Hd1].
  { split; [exact Hid|]. unfold s1. rewrite legacy_contract_sstore.
    by rewrite decide_True. }
  assert (exists u s0,
             verifyMilestone keccak256 (carrier_call keccak256 (mkCallee calls true))
               (verifier m) contractId last qrData s = Ok (u, s0)) as (u & s0 & Hrun).
  { unfold verifyMilestone. fold c.
    assert (bool_decide (status c = ACCEPTED) || bool_decide (status c = IN_TRANSIT)
            = true) as ->.
    { apply orb_true_iff.
      destruct Hst as [Hst|Hst]; [left|right]; by apply bool_decide_eq_true. }
    assert ((last <? len (milestones c)) = true) as ->
        by (apply Z.ltb_lt; unfold last; lia).
    assert ((0 <=? last) = true) as -> by (apply Z.leb_le; unfold last; lia).
    cbn [negb]. rewrite Hm, Hdone, Z.eqb_refl.
    assert ((keccak256 qrData =? qrHash m) = true) as -> by (by apply Z.eqb_eq).
    assert ((completedMilestones c + 1 <=? uint256_max) = true) as ->
        by (apply Z.leb_le; lia).
    assert ((last =? 0) = false) as -> by (apply Z.eqb_neq; unfold last; lia).
    cbn [negb]. unfold last at 1. rewrite Z.eqb_refl.
    rewrite legacy_carrier_call_eq. cbn [negb]. eauto. }
  assert (s' = s0) as Hs'.
  { unfold s', transact, commit. cbn [fst snd dispatch]. by rewrite Hrun. }
  apply legacy_verify_Ok in Hrun as (m0 & _ & _ & Hm0 & _ & _ & _ & _ & Hbranch).
  fold c in Hm0, Hbranch. fold last in Hbranch.
  assert (m0 = m) as -> by congruence.
  destruct Hbranch as [(Hz & _)|[(_ & _ & s2 & loc & Htr & Hs0)|(_ & Hnl & _)]];
    [unfold last in Hz; lia| |unfold last in Hnl; lia].
  fold s1 in Htr. rewrite legacy_carrier_call_eq in Htr. injection Htr as <-.
  pose proof (legacy_frozen_forever calls s1 contractId Hid1 Hd1) as Hsame.
  assert (contract s' contractId
          = set_status (mark_completed c last m) DELIVERED) as Hrec.
  { rewrite Hs', Hs0, !legacy_contract_emit, Hsame. unfold s1.
    rewrite legacy_contract_sstore. by rewrite decide_True. }
  pose proof (legacy_reachable_transact s
                (VerifyMilestone (verifier m) contractId last qrData,
                 mkCallee calls true) Hreach) as Hreach'.
  fold s' in Hreach'.
  pose proof (legacy_reachable_ok _ Hreach') as [Hnext' Hr' Hb' _ Hl'].
  split; [exact Hrec|]. split.
  - rewrite Hl' by (by intros H%elem_of_nil). rewrite Hrec. reflexivity.
  - intros txs. apply legacy_frozen_forever.
    + destruct (decide (0 <= contractId < nextContractId s')) as [|Hout];
        [assumption|].
      destruct (Hb' _ Hout) as [_ Hbst]. rewrite Hrec in Hbst. simpl in Hbst.
      destruct Hbst; discriminate.
    + rewrite Hrec. reflexivity.
Qed.

End LegacyProperties.

(** * The contract on concrete inputs *)

Lemma reachable_run_all keccak256 txs : reachable keccak256 (run_all keccak256 txs).
Proof. by exists txs. Qed.

(** The scenarios of the design: escrow 100 over three milestones releases
    33, 33 and 34, in three transfers to carrier 2; escrow 7 with one
    milestone releases 7 at once. *)
Lemma verifyMilestone_releases_witness :
  (releasedAmount (contract (run_all sample_hash abc_first) 0) = 0 + 33 /\
   status (contract (run_all sample_hash abc_first) 0) = ACTIVE) /\
  (releasedAmount (contract (run_all sample_hash abc_second) 0) = 33 + 33 /\
   status (contract (run_all sample_hash abc_second) 0) = ACTIVE) /\
  (releasedAmount (contract (run_all sample_hash abc_third) 0) = 100 /\
   released_total 0 (events (run_all sample_hash abc_third)) = 100 /\
   status (contract (run_all sample_hash abc_third) 0) = COMPLETED) /\
  (releasedAmount (contract (run_all sample_hash single_done) 0) = 0 + 7 /\
   status (contract (run_all sample_hash single_done) 0) = COMPLETED) /\
  transfers (run_all sample_hash abc_third) = [(2, 33); (2, 33); (2, 34)] /\
  transfers (run_all sample_hash single_done) = [(2, 7)].
Proof.
  assert (run sample_hash (mkTx (VerifyMilestone 11 0 0 (encodePacked 0 "Depot" 11)) quiet)
              (run_all sample_hash single_active)
          = Ok (tt, run_all sample_hash single_done)) as H0 by (vm_compute; reflexivity).
  pose proof (verifyMilestone_releases sample_hash _ _ _ _ _ _ _ _
                (reachable_run_all sample_hash single_active) H0)
    as (Hpaid0 & _ & _ & _ & _ & Hsum0 & _ & _ & _ & Hlast0 & Hone0).
  assert (run sample_hash (mkTx (VerifyMilestone 11 0 0 (encodePacked 0 "A" 11)) quiet)
              (run_all sample_hash abc_active)
          = Ok (tt, run_all sample_hash abc_first)) as H1 by (vm_compute; reflexivity).
  assert (run sample_hash (mkTx (VerifyMilestone 12 0 1 (encodePacked 0 "B" 12)) quiet)
              (run_all sample_hash abc_first)
          = Ok (tt, run_all sample_hash abc_second)) as H2 by (vm_compute; reflexivity).
  assert (run sample_hash (mkTx (VerifyMilestone 11 0 2 (encodePacked 0 "C" 11)) quiet)
              (run_all sample_hash abc_second)
          = Ok (tt, run_all sample_hash abc_third)) as H3 by (vm_compute; reflexivity).
  pose proof (verifyMilestone_releases sample_hash _ _ _ _ _ _ _ _
                (reachable_run_all sample_hash abc_active) H1)
    as (Hpaid1 & _ & _ & _ & _ & Hsum1 & _ & _ & Hmid1 & _).
  pose proof (verifyMilestone_releases sample_hash _ _ _ _ _ _ _ _
                (reachable_run_all sample_hash abc_first) H2)
    as (Hpaid2 & _ & _ & _ & _ & Hsum2 & _ & _ & Hmid2 & _).
  pose proof (verifyMilestone_releases sample_hash _ _ _ _ _ _ _ _
                (reachable_run_all sample_hash abc_second) H3)
    as (Hpaid3 & _ & _ & _ & _ & _ & _ & _ & _ & Hlast3 & _).
  split; [|split; [|split; [|split; [|split]]]].
  - split; [rewrite Hsum1; vm_compute; reflexivity|].
    apply Hmid1. vm_compute. discriminate.
  - split; [rewrite Hsum2; vm_compute; reflexivity|].
    apply Hmid2. vm_compute. discriminate.
  - destruct Hlast3 as (_ & Hr & Ht & Hst); [vm_compute; reflexivity|].
    split; [rewrite Hr; vm_compute; reflexivity|].
    split; [rewrite Ht; vm_compute; reflexivity|exact Hst].
  - destruct Hlast0 as (_ & _ & _ & Hst); [vm_compute; reflexivity|].
    split; [|exact Hst].
    rewrite Hsum0, Hone0 by (vm_compute; reflexivity). vm_compute. reflexivity.
  - rewrite Hpaid3, Hpaid2, Hpaid1. vm_compute. reflexivity.
  - rewrite Hpaid0. vm_compute. reflexivity.
Defined.


(** Verifying milestone 0 a second time, by its verifier and with its
    bytes, is out of order. *)
Lemma verify_out_of_order_witness :
  run sample_hash (mkTx (VerifyMilestone 11 0 0 (encodePacked 0 "A" 11)) quiet)
      (run_all sample_hash abc_first) = Revert (Error "Out of order") /\
  transact sample_hash (run_all sample_hash abc_first)
           (mkTx (VerifyMilestone 11 0 0 (encodePacked 0 "A" 11)) quiet)
  = run_all sample_hash abc_first.
Proof.
  assert (0 <> completedMilestones (contract (run_all sample_hash abc_first) 0))
    as Hne by (vm_compute; discriminate).
  pose proof (verify_out_of_order sample_hash _ 11 0 0 (encodePacked 0 "A" 11) quiet
                (reachable_run_all sample_hash abc_first) (or_introl Hne))
    as (_ & Hsame & _ & _ & Horder).
  split; [|exact Hsame].
  apply Horder; vm_compute; reflexivity.
Defined.

(** A completed contract is not ACTIVE, so verifying its last milestone
    again fails on the status check, before the order check; an index past
    the last milestone of an ACTIVE contract fails on the range check. *)
Lemma verify_out_of_order_counterexample :
  (reachable sample_hash (run_all sample_hash abc_third) /\
   2 <> completedMilestones (contract (run_all sample_hash abc_third) 0) /\
   run sample_hash (mkTx (VerifyMilestone 11 0 2 (encodePacked 0 "C" 11)) quiet)
       (run_all sample_hash abc_third) = Revert (Error "Invalid status") /\
   ~ fails_with in_verifyMilestone OrderError
       (run sample_hash (mkTx (VerifyMilestone 11 0 2 (encodePacked 0 "C" 11)) quiet))
       (run_all sample_hash abc_third)) /\
  (reachable sample_hash (run_all sample_hash abc_first) /\
   7 <> completedMilestones (contract (run_all sample_hash abc_first) 0) /\
   run sample_hash (mkTx (VerifyMilestone 11 0 7 (encodePacked 0 "A" 11)) quiet)
       (run_all sample_hash abc_first) = Revert (Error "Invalid milestone") /\
   ~ fails_with in_verifyMilestone OrderError
       (run sample_hash (mkTx (VerifyMilestone 11 0 7 (encodePacked 0 "A" 11)) quiet))
       (run_all sample_hash abc_first)).
Proof.
  split.
  - split; [apply reachable_run_all|]. split; [vm_compute; discriminate|].
    assert (run sample_hash
              (mkTx (VerifyMilestone 11 0 2 (encodePacked 0 "C" 11)) quiet)
              (run_all sample_hash abc_third) = Revert (Error "Invalid status"))
      as Hrun by (vm_compute; reflexivity).
    split; [exact Hrun|].
    intros (f & Hf & Hkind). rewrite Hrun in Hf. injection Hf as <-. discriminate.
  - split; [apply reachable_run_all|]. split; [vm_compute; discriminate|].
    assert (run sample_hash
              (mkTx (VerifyMilestone 11 0 7 (encodePacked 0 "A" 11)) quiet)
              (run_all sample_hash abc_first) = Revert (Error "Invalid milestone"))
      as Hrun by (vm_compute; reflexivity).
    split; [exact Hrun|].
    intros (f & Hf & Hkind). rewrite Hrun in Hf. injection Hf as <-. discriminate.
Qed.

(** After two of three milestones the contract has released 66 of 100. *)
Lemma escrow_never_exceeded_witness :
  escrow_bound (contract (run_all sample_hash abc_second) 0) /\
  escrow_bound (contract (run_all sample_hash abc_third) 0).
Proof.
  destruct (escrow_never_exceeded sample_hash _
              (reachable_run_all sample_hash abc_second)) as [Hnow Hnext].
  split.
  - apply Hnow. vm_compute. split; [discriminate|reflexivity].
  - apply (Hnext (mkTx (VerifyMilestone 11 0 2 (encodePacked 0 "C" 11)) quiet)).
    vm_compute. split; [discriminate|reflexivity].
Defined.

(** The first milestone of the scenario with a carrier that refuses the
    transfer. *)
Lemma failed_transfer_rolls_back_witness :
  run sample_hash (mkTx (VerifyMilestone 11 0 0 (encodePacked 0 "A" 11)) refusing)
      (run_all sample_hash abc_active) = Revert (Error "Failed to send payment") /\
  transact sample_hash (run_all sample_hash abc_active)
           (mkTx (VerifyMilestone 11 0 0 (encodePacked 0 "A" 11)) refusing)
  = run_all sample_hash abc_active.
Proof.
  assert (run sample_hash (mkTx (VerifyMilestone 11 0 0 (encodePacked 0 "A" 11))
                                (mkCallee [] true))
              (run_all sample_hash abc_active)
          = Ok (tt, run_all sample_hash abc_first)) as Hok by (vm_compute; reflexivity).
  pose proof (failed_transfer_rolls_back sample_hash _ _ _ _ _ _ _ _ Hok)
    as (Hrev & _ & Hsame & _).
  split; [exact Hrev|exact Hsame].
Defined.

(** The verifier of milestone 0 presenting the empty byte string. *)
Lemma commitment_check_witness :
  run sample_hash (mkTx (VerifyMilestone 11 0 0 []) quiet)
      (run_all sample_hash abc_active) = Revert (Error "Invalid QR code") /\
  transact sample_hash (run_all sample_hash abc_active)
           (mkTx (VerifyMilestone 11 0 0 []) quiet)
  = run_all sample_hash abc_active.
Proof.
  assert (milestones (contract (run_all sample_hash abc_active) 0) !! 0%nat =
          Some (mkMilestone (sample_hash (encodePacked 0 "A" 11)) "A" 11 false))
    as Hm by (vm_compute; reflexivity).
  pose proof (commitment_check sample_hash _ _ _ _
                (reachable_run_all sample_hash abc_active) Hm)
    as (_ & _ & _ & Hbad).
  destruct (Hbad 11 [] quiet) as (_ & Hsame & _ & _ & _ & Hqr).
  { vm_compute. discriminate. }
  split; [|exact Hsame].
  apply Hqr; vm_compute; reflexivity.
Defined.

(** Bytes that do not hash to the commitment, presented by someone who is
    not the verifier: the caller check comes first. *)
Lemma commitment_check_counterexample :
  reachable sample_hash (run_all sample_hash abc_active) /\
  (exists m,
      milestones (contract (run_all sample_hash abc_active) 0) !! 0%nat = Some m /\
      sample_hash [] <> qrHash m) /\
  run sample_hash (mkTx (VerifyMilestone 99 0 0 []) quiet)
      (run_all sample_hash abc_active) = Revert (Error "Not authorized") /\
  ~ fails_with in_verifyMilestone VerificationError
      (run sample_hash (mkTx (VerifyMilestone 99 0 0 []) quiet))
      (run_all sample_hash abc_active).
Proof.
  split; [apply reachable_run_all|]. split.
  - eexists. split; [vm_compute; reflexivity|]. vm_compute. discriminate.
  - assert (run sample_hash (mkTx (VerifyMilestone 99 0 0 []) quiet)
                (run_all sample_hash abc_active) = Revert (Error "Not authorized"))
      as Hrun by (vm_compute; reflexivity).
    split; [exact Hrun|].
    intros (f & Hf & Hkind). rewrite Hrun in Hf. injection Hf as <-. discriminate.
Qed.

(** The three verifications of the scenario never move the status backward,
    and nothing moves the completed contract afterwards. *)
Lemma status_lifecycle_witness :
  status_rank (status (contract (run_all sample_hash abc_active) 0)) <=
  status_rank
    (status
       (contract
          (fold_left (transact sample_hash)
             [mkTx (VerifyMilestone 11 0 0 (encodePacked 0 "A" 11)) quiet;
              mkTx (VerifyMilestone 12 0 1 (encodePacked 0 "B" 12)) quiet;
              mkTx (VerifyMilestone 11 0 2 (encodePacked 0 "C" 11)) quiet]
             (run_all sample_hash abc_active)) 0)) /\
  status (contract
            (fold_left (transact sample_hash)
                       [mkTx (AcceptContract 2 0) quiet]
                       (run_all sample_hash abc_third)) 0) = COMPLETED.
Proof.
  assert (0 <= 0 < nextContractId (run_all sample_hash abc_active)) as Hid
      by (vm_compute; split; [discriminate|reflexivity]).
  assert (0 <= 0 < nextContractId (run_all sample_hash abc_third)) as Hid'
      by (vm_compute; split; [discriminate|reflexivity]).
  pose proof (status_lifecycle sample_hash _ 0
                (reachable_run_all sample_hash abc_active) Hid) as (_ & Hmono & _).
  pose proof (status_lifecycle sample_hash _ 0
                (reachable_run_all sample_hash abc_third) Hid') as (_ & _ & Hdone).
  split.
  - exact (Hmono _).
  - apply Hdone. vm_compute. reflexivity.
Defined.

(** The carrier 2 accepts contract 0; the shipper 1 may not. *)
Lemma acceptContract_spec_witness :
  (exists s', acceptContract 2 0 (run_all sample_hash abc_created) = Ok (tt, s')) /\
  acceptContract 1 0 (run_all sample_hash abc_created)
  = Revert (Error "Not the carrier").
Proof.
  destruct (acceptContract_spec 2 0 (run_all sample_hash abc_created))
    as (Hiff & _).
  destruct (acceptContract_spec 1 0 (run_all sample_hash abc_created))
    as (_ & _ & Hauth & _).
  split.
  - apply Hiff. vm_compute. split; reflexivity.
  - apply Hauth. vm_compute. discriminate.
Defined.

(** A creation without escrow is refused; on the scenario, where contract 0
    exists, a creation succeeds and gets identifier 1. *)
Lemma createContract_spec_witness :
  fails_with in_createContract ValidationError
    (createContract sample_hash 1 0 2 3 ["A"]%string [11]) initial /\
  exists s',
    createContract sample_hash 1 100 2 3 ["A"; "B"; "C"]%string [11; 12; 11]
                   (run_all sample_hash abc_created) = Ok (1, s') /\
    nextContractId s' = 2 /\
    created_ids (events s') = [0; 1] /\
    status (contract s' 1) = CREATED /\
    releasedAmount (contract s' 1) = 0 /\
    len (milestones (contract s' 1)) = 3.
Proof.
  split.
  - destruct (createContract_spec sample_hash 1 0 2 3 ["A"]%string [11] initial)
      as (Hbad & _).
    apply Hbad. left. lia.
  - destruct (createContract_spec sample_hash 1 100 2 3 ["A"; "B"; "C"]%string
                [11; 12; 11] (run_all sample_hash abc_created))
      as (_ & Hgood & Hok).
    destruct Hok as (s' & Hok);
      [lia|discriminate|discriminate|discriminate|reflexivity
      |vm_compute; discriminate|].
    assert (nextContractId (run_all sample_hash abc_created) = 1) as Hnext
        by (vm_compute; reflexivity).
    rewrite Hnext in Hok.
    destruct (Hgood (reachable_run_all sample_hash abc_created) _ _ Hok)
      as (_ & Hnext' & Hids & Hids' & Hst & Hrel & Hlen & _).
    exists s'. rewrite Hids in Hids'.
    repeat split; assumption.
Defined.

(** Contract 0 of the scenario has three milestones: index 5 is not found,
    index 1 is the milestone "B". *)
Lemma lookups_spec_witness :
  getMilestone 0 5 (run_all sample_hash abc_created)
  = Revert (Error "Invalid milestone") /\
  getMilestone 0 1 (run_all sample_hash abc_created)
  = Ok (("B"%string, 12, false), run_all sample_hash abc_created).
Proof.
  destruct (lookups_spec sample_hash 0 5 (run_all sample_hash abc_created))
    as (_ & _ & Hout & _).
  destruct (lookups_spec sample_hash 0 1 (run_all sample_hash abc_created))
    as (_ & _ & _ & Hin & _).
  split.
  - apply Hout. vm_compute. discriminate.
  - apply (Hin (mkMilestone (sample_hash (encodePacked 0 "B" 12)) "B" 12 false));
      [lia|vm_compute; reflexivity].
Defined.

(** An identifier that was never created: [getContract] answers with the
    zero record instead of failing. *)
Lemma lookups_spec_counterexample :
  reachable sample_hash (run_all sample_hash abc_created) /\
  ~ 0 <= 7 < nextContractId (run_all sample_hash abc_created) /\
  getContract 7 (run_all sample_hash abc_created)
  = Ok ((0, 0, 0, 0, CREATED, 0, 0), run_all sample_hash abc_created) /\
  ~ exists f, getContract 7 (run_all sample_hash abc_created) = Revert f.
Proof.
  split; [apply reachable_run_all|]. split; [vm_compute; intros [_ H]; discriminate|].
  assert (getContract 7 (run_all sample_hash abc_created)
          = Ok ((0, 0, 0, 0, CREATED, 0, 0), run_all sample_hash abc_created))
    as Hrun by (vm_compute; reflexivity).
  split; [exact Hrun|]. intros [f Hf]. rewrite Hrun in Hf. discriminate.
Qed.

(** Two milestones at "Dock" with verifier 11: one commitment, so the bytes
    that verified the first are accepted for the second. *)
Lemma equal_commitments_witness :
  exists mi mj,
    milestones (contract (run_all sample_hash twin_first) 0) !! 0%nat = Some mi /\
    milestones (contract (run_all sample_hash twin_first) 0) !! 1%nat = Some mj /\
    completed mi = true /\ completed mj = false /\
    qrHash mi = qrHash mj /\
    commitment_ok sample_hash (encodePacked 0 "Dock" 11) mj = true.
Proof.
  assert (milestones (contract (run_all sample_hash twin_first) 0) !! 0%nat =
          Some (mkMilestone (sample_hash (encodePacked 0 "Dock" 11)) "Dock" 11 true))
    as Hi by (vm_compute; reflexivity).
  assert (milestones (contract (run_all sample_hash twin_first) 0) !! 1%nat =
          Some (mkMilestone (sample_hash (encodePacked 0 "Dock" 11)) "Dock" 11 false))
    as Hj by (vm_compute; reflexivity).
  destruct (equal_commitments sample_hash _ _ _ _ _ _
              (reachable_run_all sample_hash twin_first) Hi Hj eq_refl eq_refl)
    as (_ & Heq & Hsame).
  eexists _, _. split; [exact Hi|]. split; [exact Hj|].
  split; [reflexivity|]. split; [reflexivity|]. split; [exact Heq|].
  rewrite <- Hsame. vm_compute. reflexivity.
Defined.

(** The verifier 11 of milestone 0 of the accepted scenario contract gets it
    verified. *)
Lemma verifyMilestone_succeeds_witness :
  exists s',
    run sample_hash (mkTx (VerifyMilestone 11 0 0 (encodePacked 0 "A" 11)) quiet)
        (run_all sample_hash abc_active) = Ok (tt, s').
Proof.
  apply (verifyMilestone_succeeds sample_hash (run_all sample_hash abc_active)
           11 0 0 (encodePacked 0 "A" 11)
           (mkMilestone (sample_hash (encodePacked 0 "A" 11)) "A" 11 false) quiet
           (reachable_run_all sample_hash abc_active)).
  - vm_compute. discriminate.
  - vm_compute. discriminate.
  - vm_compute. reflexivity.
  - vm_compute. reflexivity.
  - vm_compute. reflexivity.
  - reflexivity.
  - reflexivity.
  - reflexivity.
Defined.

(** Of the three milestones of the scenario after the first verification,
    milestone 0 is completed and milestone 1 is not. *)
Lemma completed_prefix_witness :
  completedMilestones (contract (run_all sample_hash abc_first) 0) = 1 /\
  (forall m,
      milestones (contract (run_all sample_hash abc_first) 0) !! 1%nat = Some m ->
      completed m <> true).
Proof.
  split; [vm_compute; reflexivity|].
  intros m Hm.
  destruct (completed_prefix sample_hash _ 0 1%nat m
              (reachable_run_all sample_hash abc_first) Hm) as [_ Hiff].
  intros Hdone. apply Hiff in Hdone. vm_compute in Hdone. discriminate.
Defined.


(** After two verifications of the scenario 66 is logged and 66 is released. *)
Lemma releases_logged_witness :
  released_total 0 (events (run_all sample_hash abc_second)) = 66 /\
  releasedAmount (contract (run_all sample_hash abc_second) 0) = 66.
Proof.
  pose proof (releases_logged sample_hash _ 0
                (reachable_run_all sample_hash abc_second)) as Heq.
  split; [rewrite Heq|]; vm_compute; reflexivity.
Defined.

(** The second verification of the scenario leaves the payment at 100 and
    the carrier at 2. *)
Lemma record_fixed_at_creation_witness :
  payment (contract
             (transact sample_hash (run_all sample_hash abc_first)
                (mkTx (VerifyMilestone 12 0 1 (encodePacked 0 "B" 12)) quiet)) 0)
  = 100 /\
  carrier (contract
             (transact sample_hash (run_all sample_hash abc_first)
                (mkTx (VerifyMilestone 12 0 1 (encodePacked 0 "B" 12)) quiet)) 0)
  = 2.
Proof.
  assert (0 <= 0 < nextContractId (run_all sample_hash abc_first)) as Hid
      by (vm_compute; split; [discriminate|reflexivity]).
  destruct (record_fixed_at_creation sample_hash _
              (mkTx (VerifyMilestone 12 0 1 (encodePacked 0 "B" 12)) quiet) 0
              (reachable_run_all sample_hash abc_first) Hid)
    as (_ & Hcarrier & _ & Hpayment & _).
  split; [rewrite Hpayment|rewrite Hcarrier]; vm_compute; reflexivity.
Defined.

(** Escrow 100, of which 66 is paid out after two milestones and 34 is
    still owed. *)
Lemma escrow_conserved_witness :
  escrowed_in (events (run_all sample_hash abc_second)) = 66 + 34 /\
  paid_out (events (run_all sample_hash abc_second)) = 66 /\
  outstanding (run_all sample_hash abc_second) = 34.
Proof.
  destruct (escrow_conserved sample_hash _ (reachable_run_all sample_hash abc_second))
    as (Heq & _ & _).
  split; [rewrite Heq|split]; vm_compute; reflexivity.
Defined.

(** On the accepted scenario the wrong caller is refused and the verifier
    of milestone 0 is not. *)
Lemma verifyMilestone_outcome_witness :
  run sample_hash (mkTx (VerifyMilestone 12 0 0 (encodePacked 0 "A" 11)) quiet)
      (run_all sample_hash abc_active) = Revert (Error "Not authorized") /\
  exists s',
    run sample_hash (mkTx (VerifyMilestone 11 0 0 (encodePacked 0 "A" 11)) quiet)
        (run_all sample_hash abc_active) = Ok (tt, s').
Proof.
  assert (payment (contract (run_all sample_hash abc_active) 0) <= uint256_max) as Hp
      by (vm_compute; discriminate).
  assert (len (milestones (contract (run_all sample_hash abc_active) 0))
          <= uint256_max) as Hn by (vm_compute; discriminate).
  split.
  - pose proof (verifyMilestone_outcome sample_hash (run_all sample_hash abc_active)
                  12 0 0 (encodePacked 0 "A" 11) quiet
                  (reachable_run_all sample_hash abc_active)) as H.
    cbv zeta in H. specialize (H (Z.le_refl 0) Hp Hn).
    assert (verify_outcome sample_hash (run_all sample_hash abc_active) 12 0 0
              (encodePacked 0 "A" 11) quiet = Some "Not authorized"%string) as E
        by (vm_compute; reflexivity).
    rewrite E in H. exact (proj1 H).
  - pose proof (verifyMilestone_outcome sample_hash (run_all sample_hash abc_active)
                  11 0 0 (encodePacked 0 "A" 11) quiet
                  (reachable_run_all sample_hash abc_active)) as H.
    cbv zeta in H. specialize (H (Z.le_refl 0) Hp Hn).
    assert (verify_outcome sample_hash (run_all sample_hash abc_active) 11 0 0
              (encodePacked 0 "A" 11) quiet = None) as E
        by (vm_compute; reflexivity).
    rewrite E in H. exact H.
Defined.

(** After two verifications the log names milestones 0 and 1, in this
    order. *)
Lemma milestones_logged_in_order_witness :
  verified_indices 0 (events (run_all sample_hash abc_second)) = [0; 1].
Proof.
  rewrite (milestones_logged_in_order sample_hash _ 0
             (reachable_run_all sample_hash abc_second)).
  vm_compute. reflexivity.
Defined.

(** The release of 33 for milestone 1 of the scenario went to carrier 2. *)
Lemma releases_go_to_carrier_witness :
  2 = carrier (contract (run_all sample_hash abc_second) 0) /\
  33 = share (contract (run_all sample_hash abc_second) 0) 1.
Proof.
  assert (PaymentReleased 0 2 33 1 ∈ events (run_all sample_hash abc_second)) as Hin.
  { apply list_elem_of_In. vm_compute. auto 10. }
  destruct (releases_go_to_carrier sample_hash _ 0 2 33 1
              (reachable_run_all sample_hash abc_second) Hin)
    as (_ & Hto & _ & Hamount & _).
  split; assumption.
Defined.

(** A delivery over three locations on a fresh deployment: 0.1 ether is
    logged, and sent to carrier 2. *)
Lemma delivery_completes_witness :
  released_total 0
    (events
       (fold_left (transact sample_hash)
          (delivery 0 1 2 12 ["Warehouse A"; "Port Facility"; "Delivery Hub"]%string
                    [11; 12; 11] 100000000000000000 quiet)
          (run_all sample_hash [])))
  = 100000000000000000 /\
  transferred 2
    (transfers
       (fold_left (transact sample_hash)
          (delivery 0 1 2 12 ["Warehouse A"; "Port Facility"; "Delivery Hub"]%string
                    [11; 12; 11] 100000000000000000 quiet)
          (run_all sample_hash [])))
  = 0 + 100000000000000000.
Proof.
  pose proof (delivery_completes sample_hash (run_all sample_hash []) 1 2 12
                ["Warehouse A"; "Port Facility"; "Delivery Hub"]%string [11; 12; 11]
                100000000000000000 quiet (reachable_run_all sample_hash [])) as H.
  cbv zeta in H.
  destruct H as (_ & Hlog & Hpaid & _).
  - split; vm_compute; [reflexivity|discriminate].
  - discriminate.
  - discriminate.
  - split; vm_compute; [reflexivity|discriminate].
  - reflexivity.
  - vm_compute. discriminate.
  - reflexivity.
  - split; [exact Hlog|exact Hpaid].
Defined.

(** The milestone "B" of the created scenario reads back as given. *)
Lemma created_contract_readable_witness :
  getMilestone 0 1 (run_all sample_hash abc_created)
  = Ok (("B"%string, 12, false), run_all sample_hash abc_created).
Proof.
  assert (createContract sample_hash 1 100 2 3 ["A"; "B"; "C"]%string [11; 12; 11]
            (run_all sample_hash [])
          = Ok (0, run_all sample_hash abc_created)) as Hcreate
      by (vm_compute; reflexivity).
  destruct (created_contract_readable sample_hash _ _ _ _ _ _ _ _ _
              (reachable_run_all sample_hash []) Hcreate) as (_ & Hget & _).
  exact (Hget 1%nat "B"%string 12 eq_refl eq_refl).
Defined.

(** Identifier 7 was never created in the scenario. *)
Lemma unknown_contract_inert_witness :
  run sample_hash (mkTx (AcceptContract 5 7) quiet) (run_all sample_hash abc_created)
  = Revert (Error "Not the carrier").
Proof.
  assert (nextContractId (run_all sample_hash abc_created) <= 7) as Hle
      by (vm_compute; discriminate).
  destruct (unknown_contract_inert sample_hash _ 7
              (reachable_run_all sample_hash abc_created) Hle) as [Haccept _].
  refine (proj1 (Haccept 5 quiet _)). discriminate.
Defined.


(** Of twelve contracts the dashboard lists the first ten. *)
Lemma loadContracts_first_ten_witness :
  map fst (loadContracts (run_all sample_hash twelve_created))
  = [0; 1; 2; 3; 4; 5; 6; 7; 8; 9].
Proof.
  destruct (loadContracts_first_ten sample_hash _
              (reachable_run_all sample_hash twelve_created)) as [_ Hids].
  rewrite Hids; [vm_compute; reflexivity|].
  intros id Hid.
  assert (nextContractId (run_all sample_hash twelve_created) = 12) as Hn
      by (vm_compute; reflexivity).
  rewrite Hn in Hid.
  assert (id = 0 \/ id = 1 \/ id = 2 \/ id = 3 \/ id = 4 \/ id = 5 \/ id = 6 \/
          id = 7 \/ id = 8 \/ id = 9 \/ id = 10 \/ id = 11) as Hcases by lia.
  repeat destruct Hcases as [->|Hcases]; try subst id; vm_compute; discriminate.
Defined.

(** First generation: the contract verified at its last milestone has its
    100 logged once. *)
Lemma legacy_payment_once_witness :
  Legacy.released_total 0 (Legacy.events (Legacy.run_all sample_hash legacy_pair_last))
  = 100.
Proof.
  destruct (legacy_payment_once sample_hash (Legacy.run_all sample_hash legacy_pair_last)
              0 (ex_intro _ legacy_pair_last eq_refl)) as (Hrel & _).
  rewrite Hrel. vm_compute. reflexivity.
Defined.

(** First generation: the single milestone of the contract is verified and
    nothing is released. *)
Lemma legacy_single_milestone_locked_witness :
  Legacy.completedMilestones
    (Legacy.contract (Legacy.run_all sample_hash legacy_single) 0) = 1 /\
  Legacy.released_total 0 (Legacy.events (Legacy.run_all sample_hash legacy_single)) = 0.
Proof.
  split; [vm_compute; reflexivity|].
  destruct (legacy_single_milestone_locked sample_hash
              (Legacy.run_all sample_hash legacy_single) 0
              (ex_intro _ legacy_single eq_refl)) as (_ & _ & Hrel).
  - vm_compute. reflexivity.
  - exact Hrel.
Defined.

(** First generation: milestone B verified before milestone A. *)
Lemma legacy_last_milestone_first_witness :
  Legacy.released_total 0
    (Legacy.events
       (Legacy.transact sample_hash (Legacy.run_all sample_hash legacy_pair)
          (Legacy.VerifyMilestone 12 0 1 (encodePacked 0 "B" 12), legacy_quiet)))
  = 100.
Proof.
  pose proof (legacy_last_milestone_first sample_hash
                (Legacy.run_all sample_hash legacy_pair) 0
                (Legacy.mkMilestone (sample_hash (encodePacked 0 "B" 12)) "B" 0 12 false)
                (encodePacked 0 "B" 12) legacy_quiet
                (ex_intro _ legacy_pair eq_refl)) as H.
  cbv zeta in H. cbn [Legacy.verifier] in H.
  assert (len (Legacy.milestones
                 (Legacy.contract (Legacy.run_all sample_hash legacy_pair) 0)) - 1 = 1)
    as E by (vm_compute; reflexivity).
  rewrite E in H.
  destruct H as (_ & Hrel & _).
  - left. vm_compute. reflexivity.
  - split; vm_compute; discriminate.
  - vm_compute. reflexivity.
  - reflexivity.
  - reflexivity.
  - reflexivity.
  - rewrite Hrel. vm_compute. reflexivity.
Defined.

(** The form for two milestones, submitted after the scenario has taken
    identifier 0, shows identifier 1, and the page loads both milestones. *)
Lemma form_contract_loads_witness :
  submit_form sample_hash sample_parseEther sample_resolveAddress sample_form 1
    (run_all sample_hash abc_created)
  = (Some 1, run_all sample_hash form_created) /\
  loadContract sample_parseInt "1" true (run_all sample_hash form_created)
    (mkPage no_error None [])
  = mkPage no_error (Some (1, 2, 3, 10 ^ 18, CREATED, 2, 0))
           [("A"%string, 11, false); ("B"%string, 12, false)].
Proof.
  assert (submit_form sample_hash sample_parseEther sample_resolveAddress sample_form 1
            (run_all sample_hash abc_created)
          = (Some 1, run_all sample_hash form_created)) as Hsubmit
      by (vm_compute; reflexivity).
  split; [exact Hsubmit|].
  destruct (form_contract_loads sample_hash sample_parseInt sample_parseEther
              sample_resolveAddress (run_all sample_hash abc_created) sample_form 1 1
              (run_all sample_hash form_created) "1" (mkPage no_error None [])
              (reachable_run_all sample_hash abc_created))
    as (_ & _ & Hpage & _);
    [vm_compute; discriminate|vm_compute; reflexivity|exact Hsubmit|discriminate
    |reflexivity|].
  rewrite Hpage. vm_compute. reflexivity.
Defined.
